(** * hrflow-indeed-connector: the producer/consumer orchestration layer

    A shallow embedding of [src/crawling.py] and [src/indexing.py].

    - Sequential code ([ScrapingWorker], [index_job], [__aenter__],
      [__aexit__]) is written in a small effect monad [Eff]: a log of the
      calls made on external collaborators, threaded together with an
      outcome that is either a returned value or a raised exception.
    - The coroutines of [JobIndexing.run] (the producer, the consumers and
      [run] itself) are a labelled transition system [step]: a label picks
      the task that the event loop resumes and carries what the outside
      world (browser, job board, indexing service) answered. *)

From stdpp Require Import gmap strings list.
From Stdlib Require Import ZArith Lia.

Set Default Proof Using "Type".
Local Open Scope Z_scope.

(** ** Exceptions and outcomes *)

Inductive Exn :=
| CancelledError
| ValueError (msg : string)
| Error (msg : string).

Inductive Outcome (A : Type) :=
| Returned (a : A)
| Raised (e : Exn).
Arguments Returned {A} a.
Arguments Raised {A} e.

(** ** Data model *)

(** Modelled from the spec: [RawJob] ([src/data_models.py] is not among the
    sources).  A record has a [reference] given by the board
    ([in_platform_id] in the code), summary fields set by the feed scan, and
    detail fields that are absent until enrichment. *)
Record RawJob := {
  in_platform_id : string;
  summary : string;
  job_details : option string;
  job_metadata : option string;
}.

(** Modelled from the spec: [RawJob.update_data] adds the detail fields and
    leaves the reference and the summary fields as they are. *)
Definition update_data (job : RawJob) (details metadata : string) : RawJob :=
  {| in_platform_id := in_platform_id job;
     summary := summary job;
     job_details := Some details;
     job_metadata := Some metadata |}.

(** Modelled from the spec: [HrflowJob] and [RawJob.api_format]
    ([src/data_models.py] is not among the sources): the record submitted to
    the index keeps the reference of the record it is made from. *)
Record HrflowJob := {
  reference : string;
  body : string;
}.

Definition api_format (job : RawJob) : HrflowJob :=
  {| reference := in_platform_id job;
     body := summary job +:+ default "" (job_details job)
                         +:+ default "" (job_metadata job) |}.

(** Tasks are named by the coroutine they run. *)
Inductive TaskId :=
| TProducer
| TConsumer (i : nat).

(** Browsing contexts are named by the order in which the browser opens them. *)
Abbreviation Context := nat (only parsing).

(** Calls on the external collaborators and on the queue. *)
Inductive Event :=
| EvEngineStart                         (* async_playwright().start() *)
| EvBrowserLaunch (headless : bool)     (* chromium.launch(headless=...) *)
| EvClientCreate                        (* Hrflow(api_secret=..., api_user=...) *)
| EvTaskCancel (t : TaskId)             (* task.cancel() *)
| EvContextClose (c : Context)          (* context.close() *)
| EvBrowserClose                        (* browser.close() *)
| EvEngineStop                          (* playwright_engine.stop() *)
| EvNewContext (c : Context)            (* browser.new_context(...) returned [c] *)
| EvNewPage (c : Context)               (* context.new_page() *)
| EvStealth (c : Context)               (* stealth_async(page) *)
| EvVisit (c : Context) (ref : string)  (* visit_job_page(page, job) *)
| EvExtract (ref : string)              (* extract_details(page_content) *)
| EvIndexingGet (board ref : string)    (* client.job.indexing.get *)
| EvIndexingAdd (board ref : string)    (* client.job.indexing.add_json *)
| EvPut (ref : string)                  (* job_queue.put *)
| EvTaskDone                            (* job_queue.task_done() *)
| EvJoin.                               (* job_queue.join() returned *)

Global Instance TaskId_eq_dec : EqDecision TaskId.
Proof. solve_decision. Defined.

Global Instance Event_eq_dec : EqDecision Event.
Proof. solve_decision. Defined.

(** ** [random.randint] *)

(** The generator of Python's [random] module is hidden process state,
    seeded from the operating system when the module is loaded.  [raw] is
    the sequence of numbers it will hand out, [pos] how many were drawn. *)
Record RandomState := {
  raw : nat → Z;
  pos : nat;
}.

(** [random.randint(a, b)]: an integer [n] with [a <= n <= b]. *)
Definition randint_pure (a b : Z) (rs : RandomState) : Z * RandomState :=
  (a + raw rs (pos rs) mod (b - a + 1),
   {| raw := raw rs; pos := S (pos rs) |}).

(** ** [asyncio.Queue] *)

(** The queue of the standard library: [maxsize], the buffered items, and
    the count of items that were put and not yet acknowledged with
    [task_done] (the library's [_unfinished_tasks]). *)
Record Queue := {
  maxsize : Z;
  items : list RawJob;
  unfinished_tasks : nat;
}.

Definition Queue_new (maxsize : Z) : Queue :=
  {| maxsize := maxsize; items := []; unfinished_tasks := 0 |}.

Definition qsize (q : Queue) : nat := length (items q).

(** [full()]: "if the queue was initialized with maxsize=0 (or less), then
    full() never returns True". *)
Definition full (q : Queue) : bool :=
  if maxsize q <=? 0 then false else maxsize q <=? Z.of_nat (qsize q).

(** [put_nowait]; [None] is [QueueFull], on which [put] suspends. *)
Definition put_nowait (q : Queue) (x : RawJob) : option Queue :=
  if full q then None
  else Some {| maxsize := maxsize q;
               items := items q ++ [x];
               unfinished_tasks := S (unfinished_tasks q) |}.

(** [get_nowait]; [None] is [QueueEmpty], on which [get] suspends. *)
Definition get_nowait (q : Queue) : option (RawJob * Queue) :=
  match items q with
  | [] => None
  | x :: rest =>
      Some (x, {| maxsize := maxsize q;
                  items := rest;
                  unfinished_tasks := unfinished_tasks q |})
  end.

(** [task_done()] raises [ValueError] when called more times than there
    were items placed in the queue. *)
Definition task_done (q : Queue) : Outcome Queue :=
  match unfinished_tasks q with
  | O => Raised (ValueError "task_done() called too many times")
  | S n => Returned {| maxsize := maxsize q;
                       items := items q;
                       unfinished_tasks := n |}
  end.

(** [join()] returns when the count of unfinished items is zero. *)
Definition join_ready (q : Queue) : bool :=
  bool_decide (unfinished_tasks q = 0%nat).

(** ** The process state outside the orchestrator object *)

(** [env_settings] of [src/utils.py]: the process-wide configuration. *)
Record Settings := {
  API_KEY : string;
  USER_EMAIL : string;
  BOARD_KEY : string;
}.

(** - [current_task]: the task the event loop is running ([None] outside
      the tasks of [run], that is in the caller's coroutine);
    - [log]: every call made so far, with the task that made it;
    - [random_state]: the generator behind [random.randint];
    - [contexts_opened]: how many browsing contexts the browser has opened
      (each [new_context] gives a new one);
    - [boards]: the indexing service, from board key and reference to the
      job stored there. *)
Record World := {
  env_settings : Settings;
  current_task : option TaskId;
  log : list (option TaskId * Event);
  random_state : RandomState;
  contexts_opened : nat;
  boards : gmap (string * string) HrflowJob;
}.

Definition set_current_task (t : option TaskId) (w : World) : World :=
  {| env_settings := env_settings w; current_task := t; log := log w;
     random_state := random_state w; contexts_opened := contexts_opened w;
     boards := boards w |}.

Definition set_log (l : list (option TaskId * Event)) (w : World) : World :=
  {| env_settings := env_settings w; current_task := current_task w; log := l;
     random_state := random_state w; contexts_opened := contexts_opened w;
     boards := boards w |}.

Definition set_random_state (rs : RandomState) (w : World) : World :=
  {| env_settings := env_settings w; current_task := current_task w;
     log := log w; random_state := rs; contexts_opened := contexts_opened w;
     boards := boards w |}.

Definition set_contexts_opened (n : nat) (w : World) : World :=
  {| env_settings := env_settings w; current_task := current_task w;
     log := log w; random_state := random_state w; contexts_opened := n;
     boards := boards w |}.

Definition set_boards (b : gmap (string * string) HrflowJob) (w : World) : World :=
  {| env_settings := env_settings w; current_task := current_task w;
     log := log w; random_state := random_state w;
     contexts_opened := contexts_opened w; boards := b |}.

(** The calls made so far, without the task that made them. *)
Definition events (w : World) : list Event := (log w).*2.

(** ** The effect monad of the sequential code *)

(** State [S] threaded through, and a result that is returned or raised. *)
Definition Eff (S A : Type) : Type := S → S * Outcome A.

Definition ret {S A} (a : A) : Eff S A := λ s, (s, Returned a).

Definition raise {S A} (e : Exn) : Eff S A := λ s, (s, Raised e).

Definition bind {S A B} (m : Eff S A) (k : A → Eff S B) : Eff S B :=
  λ s,
    match m s with
    | (s', Returned a) => k a s'
    | (s', Raised e) => (s', Raised e)
    end.

Notation "'let!' x ':=' m 'in' k" := (bind m (λ x, k))
  (at level 10, x pattern, m at level 100, k at level 200, only parsing).
Notation "'do!' m 'in' k" := (bind m (λ _, k))
  (at level 10, m at level 100, k at level 200, only parsing).

Definition gets {S A} (f : S → A) : Eff S A := λ s, (s, Returned (f s)).

Definition modify {S} (f : S → S) : Eff S unit := λ s, (f s, Returned tt).

(** An outcome decided by a collaborator. *)
Definition answer {S A} (o : Outcome A) : Eff S A := λ s, (s, o).

Definition fault {S} (f : option Exn) : Eff S unit :=
  answer (match f with Some e => Raised e | None => Returned tt end).

(** Code that only touches the process state, run next to an object [O]. *)
Definition lift {O A} (m : Eff World A) : Eff (World * O) A :=
  λ '(w, o), let '(w', r) := m w in ((w', o), r).

(** [for x in xs: body(x)] *)
Fixpoint for_each {S A} (xs : list A) (body : A → Eff S unit) : Eff S unit :=
  match xs with
  | [] => ret tt
  | x :: xs' => do! body x in for_each xs' body
  end.

Definition emit (ev : Event) : Eff World unit :=
  modify (λ w, set_log (log w ++ [(current_task w, ev)]) w).

(** A call on a collaborator: logged when it is made, then it returns or
    raises what the collaborator answered. *)
Definition call {A} (ev : Event) (o : Outcome A) : Eff World A :=
  do! emit ev in answer o.

Definition call_ (ev : Event) (f : option Exn) : Eff World unit :=
  do! emit ev in fault f.

(** [random.randint(a, b)] on the generator of the process. *)
Definition randint (a b : Z) : Eff World Z :=
  λ w, let '(n, rs) := randint_pure a b (random_state w) in
       (set_random_state rs w, Returned n).

(** ** Playwright *)

Inductive Playwright := PlaywrightEngine.

Record Browser := { launched_headless : bool }.

(** [browser.new_context(...)]: a new browsing context at every call that
    the browser grants. *)
Definition new_context (browser : Browser) (f : option Exn) : Eff World Context :=
  do! fault f in
  let! c := gets contexts_opened in
  do! emit (EvNewContext c) in
  do! modify (set_contexts_opened (S c)) in
  ret c.

(** ** [ScrapingWorker] *)

Module ScrapingWorker.

Record t := {
  proxy : option string;
  browser : Browser;
  page : Context;
  purpose : string;
  id : Z;
  context : Context;
}.

(** What the browser answers to the three calls of the constructor. *)
Record InitEnv := {
  new_context_fault : option Exn;
  new_page_fault : option Exn;
  stealth_fault : option Exn;
}.

Definition init_ok : InitEnv :=
  {| new_context_fault := None; new_page_fault := None; stealth_fault := None |}.

Definition __init__ (env : InitEnv) (browser : Browser)
    (proxy_info : option string) (_purpose : string) : Eff World t :=
  let! id := randint 20 9999 in
  let! context := new_context browser (new_context_fault env) in
  do! call_ (EvNewPage context) (new_page_fault env) in
  do! call_ (EvStealth context) (stealth_fault env) in
  ret {| proxy := proxy_info; browser := browser; page := context;
         purpose := _purpose; id := id; context := context |}.

(** [stop]: closes the context of the worker. *)
Definition stop (close_fault : option Exn) (self : t) : Eff World unit :=
  call_ (EvContextClose (context self)) close_fault.

(** What [visit_job_page] ([src/navigation.py]) and [extract_details]
    ([src/parsing.py]) answer for one record: the page content or [None],
    and the pair of details and metadata; either may raise. *)
Record FetchEnv := {
  visit_job_page : Outcome (option string);
  extract_details : Outcome (string * string);
}.

(** Python's truth value of [visit_job_page]'s result: [None] and the
    empty content are false. *)
Definition truthy (content : option string) : bool :=
  match content with
  | Some c => negb (String.eqb c "")
  | None => false
  end.

Definition job_details_collector (env : FetchEnv) (self : t) (job : RawJob)
    : Eff World (option RawJob) :=
  let! job_page_content :=
    call (EvVisit (page self) (in_platform_id job)) (visit_job_page env) in
  if truthy job_page_content then
    let! (job_details, job_metadata) :=
      call (EvExtract (in_platform_id job)) (extract_details env) in
    ret (Some (update_data job job_details job_metadata))
  else ret None.

End ScrapingWorker.

(** ** [index_job] ([src/indexing.py]) *)

Inductive Hrflow := HrflowClient (api_secret api_user : string).

(** The answer of [client.job.indexing.get]: its ["data"] entry holds the
    job when there is one under the reference. *)
Record Response := { data : option HrflowJob }.

(** Transport errors of the two remote calls, if any. *)
Record IndexEnv := {
  get_fault : option Exn;
  add_fault : option Exn;
}.

Definition index_ok : IndexEnv := {| get_fault := None; add_fault := None |}.

Definition indexing_get (f : option Exn) (board_key ref : string)
    : Eff World Response :=
  do! call_ (EvIndexingGet board_key ref) f in
  let! b := gets boards in
  ret {| data := b !! (board_key, ref) |}.

Definition indexing_add_json (f : option Exn) (board_key : string)
    (job_json : HrflowJob) : Eff World unit :=
  do! call_ (EvIndexingAdd board_key (reference job_json)) f in
  modify (λ w, set_boards (<[(board_key, reference job_json) := job_json]> (boards w)) w).

Definition index_job (env : IndexEnv) (client : Hrflow) (extracted_job : RawJob)
    : Eff World unit :=
  let! settings := gets env_settings in
  let! response :=
    indexing_get (get_fault env) (BOARD_KEY settings) (in_platform_id extracted_job) in
  let job_already_indexed := data response in
  if negb (bool_decide (is_Some job_already_indexed)) then
    let job := api_format extracted_job in
    do! indexing_add_json (add_fault env) (BOARD_KEY settings) job in
    ret tt
  else ret tt.

(** ** [JobIndexing]: construction, [__aenter__], [__aexit__] *)

Module JobIndexing.

(** [tasks] holds the tasks by name; [cancelled] of a task is looked up in
    the state of the tasks (see [System] below). *)
Record t := {
  query : option string;
  conccurency_lvl : Z;
  job_queue : Queue;
  headless : bool;
  playwright_engine : option Playwright;
  browser : option Browser;
  hrflow_client : option Hrflow;
  worker_pool : list ScrapingWorker.t;
  tasks : list TaskId;
}.

Definition set_job_queue (q : Queue) (self : t) : t :=
  {| query := query self; conccurency_lvl := conccurency_lvl self;
     job_queue := q; headless := headless self;
     playwright_engine := playwright_engine self; browser := browser self;
     hrflow_client := hrflow_client self; worker_pool := worker_pool self;
     tasks := tasks self |}.

Definition set_playwright_engine (e : option Playwright) (self : t) : t :=
  {| query := query self; conccurency_lvl := conccurency_lvl self;
     job_queue := job_queue self; headless := headless self;
     playwright_engine := e; browser := browser self;
     hrflow_client := hrflow_client self; worker_pool := worker_pool self;
     tasks := tasks self |}.

Definition set_browser (b : option Browser) (self : t) : t :=
  {| query := query self; conccurency_lvl := conccurency_lvl self;
     job_queue := job_queue self; headless := headless self;
     playwright_engine := playwright_engine self; browser := b;
     hrflow_client := hrflow_client self; worker_pool := worker_pool self;
     tasks := tasks self |}.

Definition set_hrflow_client (c : option Hrflow) (self : t) : t :=
  {| query := query self; conccurency_lvl := conccurency_lvl self;
     job_queue := job_queue self; headless := headless self;
     playwright_engine := playwright_engine self; browser := browser self;
     hrflow_client := c; worker_pool := worker_pool self;
     tasks := tasks self |}.

Definition set_worker_pool (p : list ScrapingWorker.t) (self : t) : t :=
  {| query := query self; conccurency_lvl := conccurency_lvl self;
     job_queue := job_queue self; headless := headless self;
     playwright_engine := playwright_engine self; browser := browser self;
     hrflow_client := hrflow_client self; worker_pool := p;
     tasks := tasks self |}.

Definition set_tasks (ts : list TaskId) (self : t) : t :=
  {| query := query self; conccurency_lvl := conccurency_lvl self;
     job_queue := job_queue self; headless := headless self;
     playwright_engine := playwright_engine self; browser := browser self;
     hrflow_client := hrflow_client self; worker_pool := worker_pool self;
     tasks := ts |}.

Definition __init__ (search_query : option string)
    (conccurent_scraper_count : Z) (is_headless : bool)
    (data_buffer_size : Z) : t :=
  {| query := search_query;
     conccurency_lvl := conccurent_scraper_count;
     job_queue := Queue_new data_buffer_size;
     headless := is_headless;
     playwright_engine := None;
     browser := None;
     hrflow_client := None;
     worker_pool := [];
     tasks := [] |}.

(** The defaults of the constructor's keyword arguments. *)
Definition default_conccurent_scraper_count : Z := 1.
Definition default_data_buffer_size : Z := -1.

(** What the three acquisitions of [__aenter__] answer. *)
Record EnterEnv := {
  start_fault : option Exn;
  launch_fault : option Exn;
  client_fault : option Exn;
}.

Definition __aenter__ (env : EnterEnv) : Eff (World * t) unit :=
  do! lift (call_ EvEngineStart (start_fault env)) in
  do! modify (λ '(w, self), (w, set_playwright_engine (Some PlaywrightEngine) self)) in
  let! headless := gets (λ '(_, self), headless self) in
  do! lift (call_ (EvBrowserLaunch headless) (launch_fault env)) in
  do! modify (λ '(w, self), (w, set_browser (Some {| launched_headless := headless |}) self)) in
  let! settings := gets (λ '(w, _), env_settings w) in
  do! lift (call_ EvClientCreate (client_fault env)) in
  do! modify (λ '(w, self),
        (w, set_hrflow_client
              (Some (HrflowClient (API_KEY settings) (USER_EMAIL settings))) self)) in
  ret tt.

(** What the releases of [__aexit__] answer: [worker.stop()] for each
    context, [browser.close()] and [playwright_engine.stop()].
    [task_cancelled] is [task.cancelled()] of each task. *)
Record ExitEnv := {
  task_cancelled : TaskId → bool;
  stop_fault : Context → option Exn;
  close_fault : option Exn;
  engine_stop_fault : option Exn;
}.

Definition __aexit__ (env : ExitEnv) : Eff (World * t) unit :=
  let! tasks := gets (λ '(_, self), tasks self) in
  do! for_each tasks (λ task,
        if negb (task_cancelled env task)
        then lift (call_ (EvTaskCancel task) None)
        else ret tt) in
  let! worker_pool := gets (λ '(_, self), worker_pool self) in
  do! for_each worker_pool (λ worker,
        lift (ScrapingWorker.stop (stop_fault env (ScrapingWorker.context worker)) worker)) in
  let! browser := gets (λ '(_, self), browser self) in
  do! (if bool_decide (is_Some browser)
       then lift (call_ EvBrowserClose (close_fault env))
       else ret tt) in
  let! playwright_engine := gets (λ '(_, self), playwright_engine self) in
  if bool_decide (is_Some playwright_engine)
  then lift (call_ EvEngineStop (engine_stop_fault env))
  else ret tt.

End JobIndexing.

(** ** The tasks of [JobIndexing.run] *)

(** Where the coroutine [job_producer] is. *)
Inductive ProducerState :=
| PCreated                                              (* task created, body not entered *)
| PFeeding (worker : ScrapingWorker.t)                  (* in the [async for], waiting for the feed *)
| PPutting (worker : ScrapingWorker.t) (job : RawJob)   (* suspended in [put]: the queue is full *)
| PFinished (result : Outcome unit).

(** Where the coroutine [job_consumer] is.  It has no [return]: it ends
    with an exception, and [unacknowledged] is the item it had taken from
    the queue and not yet acknowledged at that point. *)
Inductive ConsumerState :=
| CCreated
| CWaiting (worker : ScrapingWorker.t)                    (* suspended in [job_queue.get()] *)
| CFetching (worker : ScrapingWorker.t) (job : RawJob)    (* in [job_details_collector] *)
| CIndexing (worker : ScrapingWorker.t) (job : RawJob)    (* in [to_thread(index_job, ...)] *)
| CFinished (e : Exn) (unacknowledged : option RawJob).

(** A consumer task: its coroutine, and the cancellation request that
    [task.cancel()] leaves on a task that is not done. *)
Record ConsumerTask := {
  state : ConsumerState;
  must_cancel : bool;
}.

(** Where the coroutine [run] is. *)
Inductive RunState :=
| RCalled
| RAwaitProducer               (* suspended in [await producer_task] *)
| RAwaitJoin                   (* suspended in [await self.job_queue.join()] *)
| RFinished (result : Outcome unit).

Record System := {
  world : World;
  self : JobIndexing.t;
  run_state : RunState;
  producer : option ProducerState;
  consumers : list ConsumerTask;
}.

Definition set_world (w : World) (s : System) : System :=
  {| world := w; self := self s; run_state := run_state s;
     producer := producer s; consumers := consumers s |}.

Definition set_self (o : JobIndexing.t) (s : System) : System :=
  {| world := world s; self := o; run_state := run_state s;
     producer := producer s; consumers := consumers s |}.

Definition set_run_state (r : RunState) (s : System) : System :=
  {| world := world s; self := self s; run_state := r;
     producer := producer s; consumers := consumers s |}.

Definition set_producer (p : option ProducerState) (s : System) : System :=
  {| world := world s; self := self s; run_state := run_state s;
     producer := p; consumers := consumers s |}.

Definition set_consumers (cs : list ConsumerTask) (s : System) : System :=
  {| world := world s; self := self s; run_state := run_state s;
     producer := producer s; consumers := cs |}.

Definition set_consumer (i : nat) (c : ConsumerState) (s : System) : System :=
  set_consumers (<[i := {| state := c; must_cancel := false |}]> (consumers s)) s.

Definition queue (s : System) : Queue := JobIndexing.job_queue (self s).

Definition set_queue (q : Queue) (s : System) : System :=
  set_self (JobIndexing.set_job_queue q (self s)) s.

(** The event loop resumes task [t]. *)
Definition resume (t : option TaskId) (s : System) : System :=
  set_world (set_current_task t (world s)) s.

(** Runs code of the process state inside the system. *)
Definition perform {A} (m : Eff World A) (s : System) : System * Outcome A :=
  let '(w, r) := m (world s) in (set_world w s, r).

(** What the feed generator does when the producer asks for the next job:
    [feed_pagination] and [extract_initial_info] yield a job, are exhausted,
    or raise. *)
Inductive FeedStep :=
| FeedYield (job : RawJob)
| FeedStop
| FeedRaise (e : Exn).

(** One resumption of one coroutine by the event loop, with what the
    outside world answered to the calls made until the next suspension.
    An awaited operation is one resumption, taken when it ends: its calls
    enter the log then.  So the construction of a worker, the detail fetch
    and [index_job] (which the code hands to a thread with
    [asyncio.to_thread]) are each taken as a whole; the calls of two of
    them are not interleaved. *)
Inductive Label :=
| LRun                                                   (* [run] starts, up to [await producer_task] *)
| LProducerStart (env : ScrapingWorker.InitEnv)          (* [job_producer] builds its worker *)
| LProducerNext (f : FeedStep)                           (* next job of the feed, and [put] *)
| LProducerPut                                           (* a suspended [put] goes through *)
| LConsumerStart (i : nat) (env : ScrapingWorker.InitEnv)  (* [job_consumer] builds its worker *)
| LConsumerGet (i : nat)                                 (* [get] returns an item *)
| LConsumerFetch (i : nat) (env : ScrapingWorker.FetchEnv) (* [job_details_collector] ends *)
| LConsumerIndex (i : nat) (env : IndexEnv)              (* [to_thread(index_job)] ends *)
| LRunProducerDone                                       (* [await producer_task] ends *)
| LRunJoin                                               (* [join()] ends, up to the end of [run] *)
| LCancelDelivered (i : nat).                            (* [CancelledError] raised in consumer [i] *)

(** [worker = await ScrapingWorker(browser=self.browser, _purpose=...)]
    followed by [self.worker_pool.append(worker)].  Without a browser (the
    object was not entered) the constructor still draws the identity, and
    then fails on [self.browser.new_context].  The constructor is run as a
    whole in the resumption in which it ends. *)
Definition make_worker (env : ScrapingWorker.InitEnv) (_purpose : string)
    (s : System) : System * Outcome ScrapingWorker.t :=
  match JobIndexing.browser (self s) with
  | None =>
      (fst (perform (randint 20 9999) s),
       Raised (Error "AttributeError: 'NoneType' object has no attribute 'new_context'"))
  | Some browser =>
      match perform (ScrapingWorker.__init__ env browser None _purpose) s with
      | (s', Returned worker) =>
          (set_self (JobIndexing.set_worker_pool
                       (JobIndexing.worker_pool (self s') ++ [worker]) (self s')) s',
           Returned worker)
      | (s', Raised e) => (s', Raised e)
      end
  end.

(** [await self.job_queue.put(job)], when the queue has room. *)
Definition put (job : RawJob) (s : System) : option System :=
  q ← put_nowait (queue s) job;
  Some (fst (perform (emit (EvPut (in_platform_id job))) (set_queue q s))).

(** [self.job_queue.task_done()] at the end of an iteration of consumer [i],
    which goes back to [get]. *)
Definition acknowledge (i : nat) (worker : ScrapingWorker.t) (job : RawJob)
    (s : System) : System :=
  match task_done (queue s) with
  | Returned q =>
      set_consumer i (CWaiting worker)
        (fst (perform (emit EvTaskDone) (set_queue q s)))
  | Raised e => set_consumer i (CFinished e (Some job)) s
  end.

(** The item a consumer has taken and not acknowledged. *)
Definition in_flight (c : ConsumerState) : option RawJob :=
  match c with
  | CFetching _ job | CIndexing _ job => Some job
  | CFinished _ unacknowledged => unacknowledged
  | CCreated | CWaiting _ => None
  end.

Definition finished (c : ConsumerState) : bool :=
  match c with CFinished _ _ => true | _ => false end.

(** [consumer.cancel()]: a request left on a task that is not done. *)
Definition cancel (c : ConsumerTask) : ConsumerTask :=
  if finished (state c) then c
  else {| state := state c; must_cancel := true |}.

(** [run], first part:
<<
  producer_task = asyncio.create_task(self.job_producer())
  consumer_tasks = [asyncio.create_task(self.job_consumer())
                    for _ in range(self.conccurency_lvl)]
  self.tasks.append(producer_task)
  self.tasks.extend(consumer_tasks)
  await producer_task
>> *)
Definition run_spawn (s : System) : System :=
  let n := Z.to_nat (JobIndexing.conccurency_lvl (self s)) in
  let consumer_tasks := TConsumer <$> seq 0 n in
  set_run_state RAwaitProducer
    (set_self (JobIndexing.set_tasks
                 (JobIndexing.tasks (self s) ++ [TProducer] ++ consumer_tasks)
                 (self s))
       (set_consumers (replicate n {| state := CCreated; must_cancel := false |})
          (set_producer (Some PCreated) s))).

(** [run], after [await producer_task]: the result of the producer task is
    the result of the [await]. *)
Definition run_producer_done (result : Outcome unit) (s : System) : System :=
  match result with
  | Returned _ => set_run_state RAwaitJoin s
  | Raised e => set_run_state (RFinished (Raised e)) s
  end.

(** [run], after [await self.job_queue.join()]:
<<
  for consumer in consumer_tasks:
      consumer.cancel()
>>
    and [run] returns. *)
Definition run_cancel_consumers (s : System) : System :=
  let n := length (consumers s) in
  let '(s', _) :=
    perform (do! emit EvJoin in
             for_each (seq 0 n) (λ i, emit (EvTaskCancel (TConsumer i)))) s in
  set_run_state (RFinished (Returned tt))
    (set_consumers (cancel <$> consumers s') s').

Definition step (l : Label) (s : System) : option System :=
  match l with
  | LRun =>
      match run_state s with
      | RCalled => Some (run_spawn (resume None s))
      | _ => None
      end
  | LProducerStart env =>
      match producer s with
      | Some PCreated =>
          match make_worker env "Feed Scraping" (resume (Some TProducer) s) with
          | (s', Returned worker) => Some (set_producer (Some (PFeeding worker)) s')
          | (s', Raised e) => Some (set_producer (Some (PFinished (Raised e))) s')
          end
      | _ => None
      end
  | LProducerNext f =>
      match producer s with
      | Some (PFeeding worker) =>
          let s := resume (Some TProducer) s in
          match f with
          | FeedYield job =>
              match put job s with
              | Some s' => Some s'
              | None => Some (set_producer (Some (PPutting worker job)) s)
              end
          | FeedStop => Some (set_producer (Some (PFinished (Returned tt))) s)
          | FeedRaise e => Some (set_producer (Some (PFinished (Raised e))) s)
          end
      | _ => None
      end
  | LProducerPut =>
      match producer s with
      | Some (PPutting worker job) =>
          s' ← put job (resume (Some TProducer) s);
          Some (set_producer (Some (PFeeding worker)) s')
      | _ => None
      end
  | LConsumerStart i env =>
      match consumers s !! i with
      | Some {| state := CCreated; must_cancel := false |} =>
          match make_worker env "Job Details Scraping"
                  (resume (Some (TConsumer i)) s) with
          | (s', Returned worker) => Some (set_consumer i (CWaiting worker) s')
          | (s', Raised e) => Some (set_consumer i (CFinished e None) s')
          end
      | _ => None
      end
  | LConsumerGet i =>
      match consumers s !! i with
      | Some {| state := CWaiting worker; must_cancel := false |} =>
          '(initial_job, q) ← get_nowait (queue s);
          Some (set_consumer i (CFetching worker initial_job)
                  (set_queue q (resume (Some (TConsumer i)) s)))
      | _ => None
      end
  | LConsumerFetch i env =>
      match consumers s !! i with
      | Some {| state := CFetching worker initial_job; must_cancel := false |} =>
          match perform (ScrapingWorker.job_details_collector env worker initial_job)
                  (resume (Some (TConsumer i)) s) with
          | (s', Returned (Some full_job)) =>
              Some (set_consumer i (CIndexing worker full_job) s')
          | (s', Returned None) => Some (acknowledge i worker initial_job s')
          | (s', Raised e) => Some (set_consumer i (CFinished e (Some initial_job)) s')
          end
      | _ => None
      end
  | LConsumerIndex i env =>
      match consumers s !! i with
      | Some {| state := CIndexing worker full_job; must_cancel := false |} =>
          let s := resume (Some (TConsumer i)) s in
          match JobIndexing.hrflow_client (self s) with
          | None =>
              Some (set_consumer i
                      (CFinished (Error "AttributeError: 'JobIndexing' object has no attribute 'hrflow_client'")
                         (Some full_job)) s)
          | Some client =>
              match perform (index_job env client full_job) s with
              | (s', Returned _) => Some (acknowledge i worker full_job s')
              | (s', Raised e) => Some (set_consumer i (CFinished e (Some full_job)) s')
              end
          end
      | _ => None
      end
  | LRunProducerDone =>
      match run_state s, producer s with
      | RAwaitProducer, Some (PFinished result) =>
          Some (run_producer_done result (resume None s))
      | _, _ => None
      end
  | LRunJoin =>
      match run_state s with
      | RAwaitJoin =>
          if join_ready (queue s) then Some (run_cancel_consumers (resume None s))
          else None
      | _ => None
      end
  | LCancelDelivered i =>
      match consumers s !! i with
      | Some {| state := c; must_cancel := true |} =>
          if finished c then None
          else Some (set_consumer i (CFinished CancelledError (in_flight c))
                       (resume (Some (TConsumer i)) s))
      | _ => None
      end
  end.

(** A schedule: the resumptions in the order the event loop makes them. *)
Fixpoint exec (ls : list Label) (s : System) : option System :=
  match ls with
  | [] => Some s
  | l :: ls' => s' ← step l s; exec ls' s'
  end.

(** The process at the call of [run]: a [JobIndexing] object built by its
    constructor and entered with [async with], all acquisitions granted. *)
Record Config := {
  settings : Settings;
  seed : RandomState;
  indexed : gmap (string * string) HrflowJob;
  search_query : option string;
  conccurent_scraper_count : Z;
  is_headless : bool;
  data_buffer_size : Z;
}.

Definition enter_ok : JobIndexing.EnterEnv :=
  {| JobIndexing.start_fault := None;
     JobIndexing.launch_fault := None;
     JobIndexing.client_fault := None |}.

Definition boot_world (c : Config) : World :=
  {| env_settings := settings c; current_task := None; log := [];
     random_state := seed c; contexts_opened := 0; boards := indexed c |}.

Definition boot (c : Config) : System :=
  let self0 :=
    JobIndexing.__init__ (search_query c) (conccurent_scraper_count c)
      (is_headless c) (data_buffer_size c) in
  let '((w, self1), _) := JobIndexing.__aenter__ enter_ok (boot_world c, self0) in
  {| world := w; self := self1; run_state := RCalled;
     producer := None; consumers := [] |}.

Definition reachable (c : Config) (s : System) : Prop :=
  ∃ ls, exec ls (boot c) = Some s.

(** ** Reading the log *)

(** The world after the calls [evs] were logged, in this order. *)
Definition emitted (evs : list Event) (w : World) : World :=
  set_log (log w ++ ((λ ev, (current_task w, ev)) <$> evs)) w.

(** A sequence of calls with the exception each one raises, if any, run in
    order up to the first one that raises: the calls made and the result. *)
Fixpoint attempted (plan : list (Event * option Exn)) : list Event :=
  match plan with
  | [] => []
  | (ev, None) :: rest => ev :: attempted rest
  | (ev, Some _) :: _ => [ev]
  end.

Fixpoint result_of (plan : list (Event * option Exn)) : Outcome unit :=
  match plan with
  | [] => Returned tt
  | (_, None) :: rest => result_of rest
  | (_, Some e) :: _ => Raised e
  end.

(** The release steps of [__aexit__] in the order of the code: cancel the
    tasks that are not cancelled, stop the workers of the pool, close the
    browser if there is one, stop the engine if there is one. *)
Definition teardown_plan (env : JobIndexing.ExitEnv) (self : JobIndexing.t)
    : list (Event * option Exn) :=
  ((λ task, (EvTaskCancel task, None)) <$>
     filter (λ task, JobIndexing.task_cancelled env task = false)
       (JobIndexing.tasks self))
  ++ ((λ worker, (EvContextClose (ScrapingWorker.context worker),
                  JobIndexing.stop_fault env (ScrapingWorker.context worker))) <$>
        JobIndexing.worker_pool self)
  ++ (if bool_decide (is_Some (JobIndexing.browser self))
      then [(EvBrowserClose, JobIndexing.close_fault env)] else [])
  ++ (if bool_decide (is_Some (JobIndexing.playwright_engine self))
      then [(EvEngineStop, JobIndexing.engine_stop_fault env)] else []).

Definition is_add (ev : Event) : bool :=
  match ev with EvIndexingAdd _ _ => true | _ => false end.

(** The number of [add_json] calls among [evs]. *)
Definition add_calls (evs : list Event) : nat := length (filter is_add evs).

(** The contexts opened so far, each with the task that opened it. *)
Definition created (l : list (option TaskId * Event)) : list (option TaskId * Context) :=
  omap (λ '(t, ev), match ev with EvNewContext c => Some (t, c) | _ => None end) l.

(** The visits of detail pages so far: the task and the context used. *)
Definition visits (l : list (option TaskId * Event)) : list (option TaskId * Context) :=
  omap (λ '(t, ev), match ev with EvVisit c _ => Some (t, c) | _ => None end) l.

(** The worker a consumer holds in its local variable [worker]. *)
Definition worker_of (c : ConsumerState) : option ScrapingWorker.t :=
  match c with
  | CWaiting w | CFetching w _ | CIndexing w _ => Some w
  | CCreated | CFinished _ _ => None
  end.

(** The workers of the pool that task [t] built: those whose context was
    opened by [t]. *)
Definition built_by (t : TaskId) (s : System) : list ScrapingWorker.t :=
  filter (λ w, (Some t, ScrapingWorker.context w) ∈ created (log (world s)))
    (JobIndexing.worker_pool (self s)).

(** The worker the producer holds in its local variable [worker]. *)
Definition producer_worker (p : option ProducerState) : option ScrapingWorker.t :=
  match p with
  | Some (PFeeding w) | Some (PPutting w _) => Some w
  | _ => None
  end.

(** The number of items taken from the queue and not acknowledged. *)
Definition weight (c : ConsumerTask) : nat :=
  match in_flight (state c) with Some _ => 1 | None => 0 end.

Definition held (cs : list ConsumerTask) : nat := sum_list_with weight cs.

(** A consumer that ended while it held an item of the queue. *)
Definition lost_item (c : ConsumerTask) : bool :=
  match state c with CFinished _ (Some _) => true | _ => false end.

(** [join] and [cancel] calls: what [run] does to shut the pipeline down. *)
Definition is_shutdown (ev : Event) : bool :=
  match ev with EvJoin | EvTaskCancel _ => true | _ => false end.

Definition shutdowns (l : list (option TaskId * Event)) : list Event :=
  filter (λ ev, is_shutdown ev = true) l.*2.

(** The calls made between two states of the process. *)
Definition calls_since (w w' : World) : list Event :=
  drop (length (events w)) (events w').

(** The value a computation returned, if it returned. *)
Definition built {S A} (r : S * Outcome A) : option A :=
  match r.2 with Returned a => Some a | Raised _ => None end.

(** ** Sample data *)

Definition sample_settings : Settings :=
  {| API_KEY := "key"; USER_EMAIL := "operator@example.org"; BOARD_KEY := "board" |}.

(** A generator that hands out 0, 1, 2, ... *)
Definition counting : RandomState := {| raw := λ n, Z.of_nat n; pos := 0 |}.

(** A generator that hands out 7 at every draw. *)
Definition stuck : RandomState := {| raw := λ _, 7; pos := 0 |}.

Definition sample_config (rs : RandomState) (n : Z) : Config :=
  {| settings := sample_settings; seed := rs; indexed := ∅;
     search_query := Some "developer"; conccurent_scraper_count := n;
     is_headless := true;
     data_buffer_size := JobIndexing.default_data_buffer_size |}.

Definition sample_job (ref : string) : RawJob :=
  {| in_platform_id := ref; summary := "title"; job_details := None;
     job_metadata := None |}.

Definition sample_browser : Browser := {| launched_headless := true |}.

Definition fetch_ok : ScrapingWorker.FetchEnv :=
  {| ScrapingWorker.visit_job_page := Returned (Some "<html>");
     ScrapingWorker.extract_details := Returned ("description", "metadata") |}.

(** The lookup returns, [add_json] raises. *)
Definition add_refused : IndexEnv :=
  {| get_fault := None; add_fault := Some (Error "503 Service Unavailable") |}.

(** ** Invariants of the pipeline *)

(** What a call that does not open a context leaves of the process state. *)
Record same_browser (w w' : World) : Prop := {
  sb_task : current_task w' = current_task w;
  sb_created : created (log w') = created (log w);
  sb_opened : contexts_opened w' = contexts_opened w;
  sb_shutdowns : shutdowns (log w') = shutdowns (log w);
}.

Definition no_cancel (cs : list ConsumerTask) : Prop :=
  Forall (λ c, must_cancel c = false) cs.

(** What the state of [run] tells about the tasks and the queue. *)
Definition control_ok (s : System) : Prop :=
  match run_state s with
  | RCalled => producer s = None ∧ consumers s = []
  | RAwaitProducer => producer s ≠ None ∧ no_cancel (consumers s)
  | RAwaitJoin =>
      producer s = Some (PFinished (Returned tt)) ∧ no_cancel (consumers s)
  | RFinished (Returned _) =>
      producer s = Some (PFinished (Returned tt))
      ∧ unfinished_tasks (queue s) = 0%nat
  | RFinished (Raised e) =>
      producer s = Some (PFinished (Raised e)) ∧ no_cancel (consumers s)
  end.

(** The steps seen from the queue and the control state. *)
Record InvQ (c : Config) (s : System) : Prop := {
  inv_maxsize : maxsize (queue s) = data_buffer_size c;
  inv_putting : ∀ w j, producer s = Some (PPutting w j) → 0 < maxsize (queue s);
  inv_unfinished :
    unfinished_tasks (queue s) = (length (items (queue s)) + held (consumers s))%nat;
  inv_control : control_ok s;
}.

Definition InvShut (s : System) : Prop :=
  (∀ u, run_state s ≠ RFinished (Returned u)) → shutdowns (log (world s)) = [].

(** A consumer seen from the contexts opened so far: before it built its
    worker it opened none, and the worker it holds has the context that
    this consumer opened. *)
Definition consumer_ok (cr : list (option TaskId * Context)) (i : nat)
    (ct : ConsumerTask) : Prop :=
  (state ct = CCreated → Some (TConsumer i) ∉ cr.*1)
  ∧ (∀ w, worker_of (state ct) = Some w →
       (Some (TConsumer i), ScrapingWorker.context w) ∈ cr
       ∧ ScrapingWorker.page w = ScrapingWorker.context w).

Record InvCtx (s : System) : Prop := {
  ctx_called : run_state s = RCalled → created (log (world s)) = [];
  ctx_bound : ∀ tc, tc ∈ created (log (world s)) →
    (tc.2 < contexts_opened (world s))%nat;
  ctx_nodup_ctx : NoDup (created (log (world s))).*2;
  ctx_nodup_task : NoDup (created (log (world s))).*1;
  ctx_producer : Some TProducer ∈ (created (log (world s))).*1 →
    producer s ≠ None ∧ producer s ≠ Some PCreated;
  ctx_consumers : ∀ i ct, consumers s !! i = Some ct →
    consumer_ok (created (log (world s))) i ct;
  ctx_visits : ∀ tc, tc ∈ visits (log (world s)) → tc ∈ created (log (world s));
}.

Definition InvT (c : Config) (s : System) : Prop :=
  JobIndexing.conccurency_lvl (self s) = conccurent_scraper_count c
  ∧ match run_state s with
    | RCalled => JobIndexing.tasks (self s) = []
    | _ =>
        JobIndexing.tasks (self s) =
          TProducer :: (TConsumer <$> seq 0 (Z.to_nat (conccurent_scraper_count c)))
        ∧ length (consumers s) = Z.to_nat (conccurent_scraper_count c)
        ∧ is_Some (producer s)
    end.

Definition has_lost_item (s : System) : Prop :=
  ∃ i ct, consumers s !! i = Some ct ∧ lost_item ct = true.

(** How the iteration of the consumer loop that ends with this resumption
    ends, if one does: the detail fetch returned nothing, the indexing
    returned, or one of the two raised. *)
Definition iteration_outcome (l : Label) (s : System) : option (nat * Outcome unit) :=
  match l with
  | LConsumerFetch i env =>
      match consumers s !! i with
      | Some {| state := CFetching worker initial_job; must_cancel := false |} =>
          match (perform (ScrapingWorker.job_details_collector env worker initial_job)
                   (resume (Some (TConsumer i)) s)).2 with
          | Returned None => Some (i, Returned tt)
          | Returned (Some _) => None
          | Raised e => Some (i, Raised e)
          end
      | _ => None
      end
  | LConsumerIndex i env =>
      match consumers s !! i with
      | Some {| state := CIndexing worker full_job; must_cancel := false |} =>
          match JobIndexing.hrflow_client (self s) with
          | Some client =>
              match (perform (index_job env client full_job)
                       (resume (Some (TConsumer i)) s)).2 with
              | Returned _ => Some (i, Returned tt)
              | Raised e => Some (i, Raised e)
              end
          | None =>
              Some (i, Raised (Error "AttributeError: 'JobIndexing' object has no attribute 'hrflow_client'"))
          end
      | _ => None
      end
  | _ => None
  end.

(** ** Sample schedules *)

(** The state a schedule leads to from the start of [run]. *)
Definition after (c : Config) (ls : list Label) : System :=
  default (boot c) (exec ls (boot c)).

(** The feed fails on its first page while one consumer waits. *)
Definition feed_fails : list Label :=
  [LRun;
   LProducerStart ScrapingWorker.init_ok;
   LConsumerStart 0 ScrapingWorker.init_ok;
   LProducerNext (FeedRaise (Error "feed page failed"));
   LRunProducerDone].

Definition feed_fails_state : System :=
  Eval vm_compute in after (sample_config counting 1) feed_fails.

(** The feed is empty: [run] goes through to its end. *)
Definition empty_feed : list Label :=
  [LRun;
   LProducerStart ScrapingWorker.init_ok;
   LConsumerStart 0 ScrapingWorker.init_ok;
   LProducerNext FeedStop;
   LRunProducerDone;
   LRunJoin].

Definition empty_feed_state : System :=
  Eval vm_compute in after (sample_config counting 1) empty_feed.


(** One job is produced and its detail page cannot be visited. *)
Definition visit_raises : ScrapingWorker.FetchEnv :=
  {| ScrapingWorker.visit_job_page := Raised (Error "context closed");
     ScrapingWorker.extract_details := Returned ("description", "metadata") |}.

Definition fetch_raises : list Label :=
  [LRun;
   LProducerStart ScrapingWorker.init_ok;
   LConsumerStart 0 ScrapingWorker.init_ok;
   LProducerNext (FeedYield (sample_job "r1"));
   LConsumerGet 0;
   LConsumerFetch 0 visit_raises].

Definition before_fetch_state : System :=
  Eval vm_compute in after (sample_config counting 1) (removelast fetch_raises).

Definition fetch_raises_state : System :=
  Eval vm_compute in after (sample_config counting 1) fetch_raises.

(** Two consumers, each fetching the details of one job. *)
Definition two_consumers : list Label :=
  [LRun;
   LProducerStart ScrapingWorker.init_ok;
   LConsumerStart 0 ScrapingWorker.init_ok;
   LConsumerStart 1 ScrapingWorker.init_ok;
   LProducerNext (FeedYield (sample_job "r1"));
   LProducerNext (FeedYield (sample_job "r2"));
   LConsumerGet 0;
   LConsumerGet 1;
   LConsumerFetch 1 fetch_ok;
   LConsumerFetch 0 fetch_ok].

Definition two_consumers_state : System :=
  Eval vm_compute in after (sample_config counting 2) two_consumers.

(** What is left of the tasks: ended or not, cancellation requested or not. *)
Definition task_states (s : System) : list (bool * bool) :=
  (λ ct, (finished (state ct), must_cancel ct)) <$> consumers s.

(** * The rest of the code: invariants, generators, the script *)

(** ** Reading the log: the references handled by each stage *)

(** The reference a call is about, by the kind of call: [put], the visit
    of a detail page, [extract_details], and the two calls of [index_job]. *)
Definition sel_put (ev : Event) : option string :=
  match ev with EvPut ref => Some ref | _ => None end.

Definition sel_visit (ev : Event) : option string :=
  match ev with EvVisit _ ref => Some ref | _ => None end.

Definition sel_extract (ev : Event) : option string :=
  match ev with EvExtract ref => Some ref | _ => None end.

Definition sel_get (ev : Event) : option string :=
  match ev with EvIndexingGet _ ref => Some ref | _ => None end.

Definition sel_add (ev : Event) : option string :=
  match ev with EvIndexingAdd _ ref => Some ref | _ => None end.

(** The references of the calls of one kind, in the order of the log. *)
Definition refs_of (sel : Event → option string) (l : list (option TaskId * Event))
    : list string :=
  omap (λ te, sel te.2) l.

(** The references of the buffered jobs, the next to be taken first. *)
Definition queue_refs (q : Queue) : list string := in_platform_id <$> items q.

(** The job a consumer has taken from the queue and whose detail page it
    has not visited yet. *)
Definition fetching (ct : ConsumerTask) : list string :=
  match state ct with
  | CFetching _ job => [in_platform_id job]
  | _ => []
  end.

Definition fetching_refs (cs : list ConsumerTask) : list string := cs ≫= fetching.

(** ** Further invariants of the pipeline *)

(** A consumer whose cancellation was requested holds no item. *)
Definition InvCancel (s : System) : Prop :=
  ∀ i ct, consumers s !! i = Some ct → must_cancel ct = true →
    in_flight (state ct) = None.

(** Every job put was visited, is being fetched, or is still buffered. *)
Definition InvJobs (s : System) : Prop :=
  refs_of sel_put (log (world s)) ≡ₚ
    refs_of sel_visit (log (world s)) ++ fetching_refs (consumers s)
      ++ queue_refs (queue s).

(** FIFO: what is buffered is the end of what was put, in the same order. *)
Definition InvFifo (s : System) : Prop :=
  queue_refs (queue s) `suffix_of` refs_of sel_put (log (world s)).

(** The contexts of the workers of the pool, in pool order. *)
Definition pool_contexts (s : System) : list nat :=
  ScrapingWorker.context <$> JobIndexing.worker_pool (self s).

Definition is_close (ev : Event) : bool :=
  match ev with EvContextClose _ => true | _ => false end.

(** The pool seen from the browser: its contexts were opened by the run,
    are pairwise distinct, and none was closed. *)
Record InvPool (s : System) : Prop := {
  pool_bound : ∀ ctx, ctx ∈ pool_contexts s → (ctx < contexts_opened (world s))%nat;
  pool_nodup : NoDup (pool_contexts s);
  pool_created : ∀ ctx, ctx ∈ pool_contexts s → ctx ∈ (created (log (world s))).*2;
  pool_no_close : Forall (λ ev, is_close ev = false) (events (world s));
}.

(** What [__aenter__] acquired and the constructor stored stay as they
    are during [run]. *)
Record InvRes (c : Config) (s : System) : Prop := {
  res_engine : JobIndexing.playwright_engine (self s) = Some PlaywrightEngine;
  res_browser : JobIndexing.browser (self s) = Some {| launched_headless := is_headless c |};
  res_client : JobIndexing.hrflow_client (self s) =
                 Some (HrflowClient (API_KEY (settings c)) (USER_EMAIL (settings c)));
  res_settings : env_settings (world s) = settings c;
  res_query : JobIndexing.query (self s) = search_query c;
}.

(** The worker a task holds is in the pool. *)
Record InvOwn (s : System) : Prop := {
  own_consumer : ∀ i ct w, consumers s !! i = Some ct →
    worker_of (state ct) = Some w → w ∈ JobIndexing.worker_pool (self s);
  own_producer : ∀ w, producer_worker (producer s) = Some w →
    w ∈ JobIndexing.worker_pool (self s)
    ∧ (Some TProducer, ScrapingWorker.context w) ∈ created (log (world s));
}.


(** A context that was opened and belongs to no worker of the pool. *)
Definition orphan (ctx : nat) (s : System) : Prop :=
  (ctx < contexts_opened (world s))%nat ∧ ctx ∉ pool_contexts s.

(** A bounded queue never holds more than [maxsize] items. *)
Definition InvBound (s : System) : Prop :=
  0 < maxsize (queue s) → Z.of_nat (qsize (queue s)) ≤ maxsize (queue s).

Definition is_task_done (ev : Event) : bool :=
  match ev with EvTaskDone => true | _ => false end.

(** The number of [task_done] calls so far. *)
Definition acks (l : list (option TaskId * Event)) : nat :=
  length (filter (λ te, is_task_done te.2 = true) l).

(** Every job put is acknowledged or counted as unfinished. *)
Definition InvAck (s : System) : Prop :=
  length (refs_of sel_put (log (world s))) =
    (acks (log (world s)) + unfinished_tasks (queue s))%nat.

(** 1 for a consumer that is in [index_job], 0 otherwise. *)
Definition indexing (ct : ConsumerTask) : nat :=
  match state ct with CIndexing _ _ => 1 | _ => 0 end.

(** The stages of the pipeline follow one another. *)
Record InvOrder (s : System) : Prop := {
  ord_extract : refs_of sel_extract (log (world s)) ⊆+ refs_of sel_visit (log (world s));
  ord_add : refs_of sel_add (log (world s)) ⊆+ refs_of sel_get (log (world s));
  ord_get : (length (refs_of sel_get (log (world s)))
             + sum_list_with indexing (consumers s)
             ≤ length (refs_of sel_extract (log (world s))))%nat;
}.

(** A run without consumers visits nothing. *)
Definition InvNone (s : System) : Prop :=
  consumers s = [] ∧ refs_of sel_visit (log (world s)) = [].

(** ** A run that completes *)





(** A consumer that does nothing more, or nothing but receive its
    [CancelledError]. *)
Definition stopped (ct : ConsumerTask) : Prop :=
  finished (state ct) = true ∨ must_cancel ct = true.

(** When [run] has returned, every consumer is stopped. *)
Definition InvDone (s : System) : Prop :=
  run_state s = RFinished (Returned tt) → Forall stopped (consumers s).

(** ** Generators: [feed_jobs_generator] *)

(** A finite iteration: the values it yields, then exhaustion ([None]) or
    an exception. *)
Record Generated (A : Type) := {
  yielded : list A;
  ending : option Exn;
}.

Arguments yielded {A} _.

Arguments ending {A} _.

(** [yield x] *)
Definition yield_ {A} (x : A) : Generated A := {| yielded := [x]; ending := None |}.

(** One piece of generator code after another: the second runs when the
    first did not raise. *)
Definition then_ {A} (g1 g2 : Generated A) : Generated A :=
  match ending g1 with
  | Some e => g1
  | None => {| yielded := yielded g1 ++ yielded g2; ending := ending g2 |}
  end.

(** [for x in source: body(x)] in a generator, [source] being itself an
    iteration that may raise. *)
Fixpoint for_in {A B} (xs : list A) (last : option Exn) (body : A → Generated B)
    : Generated B :=
  match xs with
  | [] => {| yielded := []; ending := last |}
  | x :: xs' => then_ (body x) (for_in xs' last body)
  end.

(** [for x in source: body(x)] over an iteration. *)
Definition iterate {A B} (source : Generated A) (body : A → Generated B) : Generated B :=
  for_in (yielded source) (ending source) body.

(** [feed_jobs_generator]: [feed_pagination] ([src/navigation.py]) and
    [extract_initial_info] ([src/parsing.py]) are not among the sources and
    are given by what they yield.
<<
  async for page_content in feed_pagination(page=self.page):
      for job in extract_initial_info(indeed_feed_page=page_content):
          yield job
>> *)
Definition feed_jobs_generator (self : ScrapingWorker.t)
    (search_query_what : option string)
    (feed_pagination : nat → Generated string)
    (extract_initial_info : string → Generated RawJob) : Generated RawJob :=
  iterate (feed_pagination (ScrapingWorker.page self)) (λ page_content,
    iterate (extract_initial_info page_content) (λ job, yield_ job)).

(** What the producer sees of a feed: its jobs one by one, then its end. *)
Definition feed_steps (g : Generated RawJob) : list FeedStep :=
  (FeedYield <$> yielded g)
  ++ [match ending g with None => FeedStop | Some e => FeedRaise e end].

(** How a task that iterates over [g] to its end ends. *)
Definition outcome_of (g : Generated RawJob) : Outcome unit :=
  match ending g with None => Returned tt | Some e => Raised e end.

(** A feed of two pages, with one job and two jobs. *)
Definition sample_pages : nat → Generated string :=
  λ _, {| yielded := ["page1"; "page2"]; ending := None |}.

Definition sample_extract : string → Generated RawJob :=
  λ page_content,
    if String.eqb page_content "page1"
    then {| yielded := [sample_job "r1"]; ending := None |}
    else {| yielded := [sample_job "r2"; sample_job "r3"]; ending := None |}.

(** A worker on context 0. *)
Definition sample_worker : ScrapingWorker.t :=
  {| ScrapingWorker.proxy := None; ScrapingWorker.browser := sample_browser;
     ScrapingWorker.page := 0%nat; ScrapingWorker.purpose := "Feed Scraping";
     ScrapingWorker.id := 20; ScrapingWorker.context := 0%nat |}.

(** The configuration with another search query. *)
Definition with_query (q : option string) (c : Config) : Config :=
  {| settings := settings c; seed := seed c; indexed := indexed c;
     search_query := q; conccurent_scraper_count := conccurent_scraper_count c;
     is_headless := is_headless c; data_buffer_size := data_buffer_size c |}.

(** The system with another search query in the orchestrator object. *)
Definition requery (q : option string) (s : System) : System :=
  set_self
    {| JobIndexing.query := q;
       JobIndexing.conccurency_lvl := JobIndexing.conccurency_lvl (self s);
       JobIndexing.job_queue := JobIndexing.job_queue (self s);
       JobIndexing.headless := JobIndexing.headless (self s);
       JobIndexing.playwright_engine := JobIndexing.playwright_engine (self s);
       JobIndexing.browser := JobIndexing.browser (self s);
       JobIndexing.hrflow_client := JobIndexing.hrflow_client (self s);
       JobIndexing.worker_pool := JobIndexing.worker_pool (self s);
       JobIndexing.tasks := JobIndexing.tasks (self s) |} s.

(** ** Further sample data *)

(** No task is cancelled yet and every release call returns. *)
Definition exit_ok : JobIndexing.ExitEnv :=
  {| JobIndexing.task_cancelled := λ _, false;
     JobIndexing.stop_fault := λ _, None;
     JobIndexing.close_fault := None;
     JobIndexing.engine_stop_fault := None |}.

(** The page of a new context cannot be opened. *)
Definition page_fails : ScrapingWorker.InitEnv :=
  {| ScrapingWorker.new_context_fault := None;
     ScrapingWorker.new_page_fault := Some (Error "page failed");
     ScrapingWorker.stealth_fault := None |}.

(** [run] was called and the producer built its worker. *)
Definition producer_started : list Label :=
  [LRun; LProducerStart ScrapingWorker.init_ok].

Definition producer_started_state : System :=
  Eval vm_compute in after (sample_config counting 1) producer_started.

(** The consumer then fails to build its worker. *)
Definition consumer_failed_state : System :=
  Eval vm_compute in
    after (sample_config counting 1) (producer_started ++ [LConsumerStart 0 page_fails]).




(** A buffer of one item and a feed of two jobs, no consumer started. *)
Definition bounded_config : Config :=
  {| settings := sample_settings; seed := counting; indexed := ∅;
     search_query := None; conccurent_scraper_count := 1;
     is_headless := true; data_buffer_size := 1 |}.

Definition two_puts : list Label :=
  [LRun; LProducerStart ScrapingWorker.init_ok;
   LProducerNext (FeedYield (sample_job "r1"));
   LProducerNext (FeedYield (sample_job "r2"))].

Definition two_puts_state : System :=
  Eval vm_compute in after bounded_config two_puts.

(** No consumer and a feed of one job. *)
Definition no_consumer : list Label :=
  [LRun; LProducerStart ScrapingWorker.init_ok;
   LProducerNext (FeedYield (sample_job "r1"));
   LProducerNext FeedStop; LRunProducerDone].

Definition no_consumer_state : System :=
  Eval vm_compute in after (sample_config counting 0) no_consumer.

(** One job fetched, about to be indexed. *)
Definition fetched : list Label :=
  [LRun; LProducerStart ScrapingWorker.init_ok;
   LConsumerStart 0 ScrapingWorker.init_ok;
   LProducerNext (FeedYield (sample_job "r1"));
   LConsumerGet 0; LConsumerFetch 0 fetch_ok].

Definition fetched_state : System :=
  Eval vm_compute in after (sample_config counting 1) fetched.

(** A job stored earlier under the reference "r1". *)
Definition old_job : HrflowJob := {| reference := "r1"; body := "old" |}.

(** A process whose index already holds a job under the reference "r1". *)
Definition indexed_world : World :=
  set_boards {[ ("board", "r1") := old_job ]} (boot_world (sample_config counting 1)).

Definition sample_client : Hrflow := HrflowClient "key" "operator@example.org".

(** The empty feed, and then the cancellation delivered to the consumer. *)
Definition cancelled_state : System :=
  Eval vm_compute in after (sample_config counting 1) (empty_feed ++ [LCancelDelivered 0]).

(** * The script [main.py] *)

Module Script.

(** The two pages of the script: [page] and [details_page]. *)
Inductive PageName := FeedPage | DetailsPage.

(** The calls of the script on the browser, the job board and the file
    system. *)
Inductive Call :=
| CallPlaywrightStart                          (* sync_playwright().__enter__() *)
| CallLaunch (headless : bool)                 (* p.chromium.launch(headless=True) *)
| CallNewContext                               (* browser.new_context(...) *)
| CallNewPage (p : PageName)                   (* context.new_page() *)
| CallStealth (p : PageName)                   (* stealth_sync(page=...) *)
| CallGoto (url : string)                      (* page.goto(url) *)
| CallFill (selector text : string)            (* location_input.fill(text) *)
| CallPress (selector key : string)            (* location_input.press(key=...) *)
| CallVisit (ref : string)                     (* visit_job_page(page=details_page, job=job_info) *)
| CallExtractDetails (ref : string)            (* extract_details(job_page_content=job_page) *)
| CallOpen (path : string)                     (* open(path, "w") *)
| CallDump (path : string)                     (* json.dump(data, f) *)
| CallScreenshot (p : PageName) (path : string) (* page.screenshot(path=...) *)
| CallBrowserClose                             (* browser.close() *)
| CallPlaywrightStop.                          (* sync_playwright().__exit__() *)

Global Instance PageName_eq_dec : EqDecision PageName.
Proof. solve_decision. Defined.

Global Instance Call_eq_dec : EqDecision Call.
Proof. solve_decision. Defined.

(** The state of the script: the calls made, the list [data], and the
    content of [jobdata.json] ([None]: the file was not written). *)
Record State := {
  calls : list Call;
  data : list RawJob;
  jobdata_json : option (list RawJob);
}.

(** What the outside world answers ([navigation] and [parsing] are not
    among the sources): the exception a call on the browser or on the file
    system raises, if any; the pages [paginate] yields; the jobs
    [extract_initial_info] yields for a page; what [visit_job_page] returns
    for a job; the exception [extract_details] raises on a page content, if
    any. *)
Record ScriptEnv := {
  fails : Call → option Exn;
  paginate : Generated string;
  extract_initial_info : string → Generated RawJob;
  visit_job_page : RawJob → Outcome (option string);
  extract_details : option string → option Exn;
}.

(** A call on the browser or on the file system: logged, then it returns
    or raises what the outside world answered. *)
Definition script_call (env : ScriptEnv) (c : Call) : Eff State unit :=
  do! modify (λ s, {| calls := calls s ++ [c]; data := data s;
                      jobdata_json := jobdata_json s |}) in
  fault (fails env c).

(** [try: body finally: final]: [final] runs in every case; when it raises,
    its exception replaces the outcome of [body]. *)
Definition try_finally {S A} (body : Eff S A) (final : Eff S unit) : Eff S A :=
  λ s,
    let '(s1, r) := body s in
    match final s1 with
    | (s2, Returned _) => (s2, r)
    | (s2, Raised e) => (s2, Raised e)
    end.

(** [with enter as x: body], for a context manager that does not swallow
    exceptions: when [enter] raises, neither [body] nor [exit] runs. *)
Definition with_ {S A B} (enter : Eff S A) (exit : Eff S unit) (body : A → Eff S B)
    : Eff S B :=
  let! x := enter in try_finally (body x) exit.

(** [for x in source: body(x)], [source] being an iteration that may raise. *)
Definition for_gen {S A} (source : Generated A) (body : A → Eff S unit) : Eff S unit :=
  do! for_each (yielded source) body in fault (ending source).

(** The locator [page.locator("//input[@id='text-input-where']")]. *)
Definition location_input : string := "//input[@id='text-input-where']".

(** Lines 19 to 31: the browser, the two pages and the search form. *)
Definition script_setup (env : ScriptEnv) : Eff State unit :=
  do! script_call env (CallLaunch true) in
  do! script_call env CallNewContext in
  do! script_call env (CallNewPage FeedPage) in
  do! script_call env (CallNewPage DetailsPage) in
  do! script_call env (CallStealth FeedPage) in
  do! script_call env (CallStealth DetailsPage) in
  do! script_call env (CallGoto "https://uk.indeed.com/") in
  do! script_call env (CallFill location_input "Davidstow, Cornwall") in
  do! script_call env (CallPress location_input "Enter") in
  modify (λ s, {| calls := calls s; data := []; jobdata_json := jobdata_json s |}).

(** Lines 36 to 38: the body of the inner loop. *)
Definition script_job (env : ScriptEnv) (job_info : RawJob) : Eff State unit :=
  let! job_page :=
    (do! modify (λ s, {| calls := calls s ++ [CallVisit (in_platform_id job_info)];
                         data := data s; jobdata_json := jobdata_json s |}) in
     answer (visit_job_page env job_info)) in
  do! modify (λ s, {| calls := calls s; data := data s ++ [job_info];
                      jobdata_json := jobdata_json s |}) in
  do! modify (λ s, {| calls := calls s ++ [CallExtractDetails (in_platform_id job_info)];
                      data := data s; jobdata_json := jobdata_json s |}) in
  fault (extract_details env job_page).

(** Lines 34 to 38: the two loops. *)
Definition script_loop (env : ScriptEnv) : Eff State unit :=
  for_gen (paginate env) (λ page_content,
    for_gen (extract_initial_info env page_content) (λ job_info, script_job env job_info)).

(** Lines 40 to 43: the [finally] block. *)
Definition script_save (env : ScriptEnv) : Eff State unit :=
  do! with_
        (do! script_call env (CallOpen "jobdata.json") in
         modify (λ s, {| calls := calls s; data := data s; jobdata_json := Some [] |}))
        (ret tt)
        (λ _,
           do! script_call env (CallDump "jobdata.json") in
           modify (λ s, {| calls := calls s; data := data s;
                           jobdata_json := Some (data s) |})) in
  do! script_call env (CallScreenshot DetailsPage "./assets/bugetails.jpg") in
  script_call env (CallScreenshot FeedPage "./assets/bugfeed.jpg").

(** What the block of the [with] statement does: the setup, the loops with
    their [finally], and [browser.close()]. *)
Definition script_body (env : ScriptEnv) : Eff State unit :=
  do! script_setup env in
  do! try_finally (script_loop env) (script_save env) in
  script_call env CallBrowserClose.

(** The script: the block, inside [with sync_playwright() as p]. *)
Definition main (env : ScriptEnv) : Eff State unit :=
  with_ (script_call env CallPlaywrightStart) (script_call env CallPlaywrightStop)
    (λ _, script_body env).

(** The script is started with no call made and no file written. *)
Definition script_start : State := {| calls := []; data := []; jobdata_json := None |}.

(** All the jobs of the feed, in the order of the pages. *)
Definition all_jobs (env : ScriptEnv) : list RawJob :=
  yielded (paginate env) ≫= (λ page_content, yielded (extract_initial_info env page_content)).

(** The calls of the setup, in the order of the code. *)
Definition setup_calls : list Call :=
  [CallLaunch true; CallNewContext; CallNewPage FeedPage; CallNewPage DetailsPage;
   CallStealth FeedPage; CallStealth DetailsPage; CallGoto "https://uk.indeed.com/";
   CallFill location_input "Davidstow, Cornwall"; CallPress location_input "Enter"].

(** The calls of the loop, and those of the [finally] block. *)
Definition is_job_call (c : Call) : bool :=
  match c with CallVisit _ | CallExtractDetails _ => true | _ => false end.

Definition is_save_call (c : Call) : bool :=
  match c with CallOpen _ | CallDump _ | CallScreenshot _ _ => true | _ => false end.

(** What the loop over a list of jobs leaves. *)
Record loop_result (env : ScriptEnv) (jobs : list RawJob) (s : State)
    (r : State * Outcome unit) : Prop := {
  lr_data : ∃ taken,
    data r.1 = data s ++ taken ∧ taken `prefix_of` jobs
    ∧ (r.2 = Returned tt → taken = jobs)
    ∧ ∀ job, job ∈ taken →
        CallVisit (in_platform_id job) ∈ calls r.1
        ∧ CallExtractDetails (in_platform_id job) ∈ calls r.1
        ∧ ∃ content, visit_job_page env job = Returned content;
  lr_calls : ∃ new, calls r.1 = calls s ++ new ∧ Forall (λ c, is_job_call c = true) new;
  lr_file : jobdata_json r.1 = jobdata_json s;
}.

End Script.

(** The second job of the feed cannot be visited. *)
Definition sample_script_env : Script.ScriptEnv :=
  {| Script.fails := λ _, None;
     Script.paginate := {| yielded := ["page1"; "page2"]; ending := None |};
     Script.extract_initial_info := sample_extract;
     Script.visit_job_page := λ job,
       if String.eqb (in_platform_id job) "r2"
       then Raised (Error "timeout") else Returned (Some "<html>");
     Script.extract_details := λ _, None |}.

(** * Proofs *)

(** ** The log of calls *)

Lemma emit_eq ev w : emit ev w = (emitted [ev] w, Returned tt).
Proof. done. Qed.

Lemma emitted_nil w : emitted [] w = w.
Proof. destruct w; unfold emitted, set_log; cbn. by rewrite app_nil_r. Qed.

Lemma emitted_app evs1 evs2 w :
  emitted evs2 (emitted evs1 w) = emitted (evs1 ++ evs2) w.
Proof.
  destruct w; unfold emitted, set_log; cbn.
  by rewrite fmap_app, (assoc_L (++)).
Qed.

Lemma events_emitted evs w : events (emitted evs w) = events w ++ evs.
Proof.
  unfold events, emitted; cbn. rewrite fmap_app. f_equal.
  rewrite <- list_fmap_compose. by rewrite list_fmap_id.
Qed.

Lemma for_each_emit {A} (f : A → Event) (xs : list A) w :
  for_each xs (λ x, emit (f x)) w = (emitted (f <$> xs) w, Returned tt).
Proof.
  revert w. induction xs as [|x xs IH]; intros w.
  - cbn. by rewrite emitted_nil.
  - change (for_each (x :: xs) ?b) with (bind (b x) (λ _, for_each xs b)).
    unfold bind at 1. rewrite emit_eq, IH, emitted_app. done.
Qed.

Lemma bind_gets {S A B} (f : S → A) (k : A → Eff S B) s :
  bind (gets f) k s = k (f s) s.
Proof. done. Qed.

Lemma calls_since_emitted evs w : calls_since w (emitted evs w) = evs.
Proof. unfold calls_since. rewrite events_emitted. by rewrite drop_app_length. Qed.

Lemma calls_since_set_boards b w w' :
  calls_since w (set_boards b w') = calls_since w w'.
Proof. done. Qed.

Ltac not_in_log :=
  let H := fresh in
  intros H; apply list_elem_of_In in H; vm_compute in H; intuition congruence.

(** ** Acquisition: [__aenter__] *)

(** C3 (amended): when a step of the acquisition in [__aenter__] fails
    (engine start, browser launch, creation of the indexing client), the
    error propagates at once: the later steps are not attempted, no release
    call is made, and what was acquired before stays held by the object. *)
Theorem aenter_failure_releases_nothing env w o :
  let engine := JobIndexing.set_playwright_engine (Some PlaywrightEngine) in
  let browser :=
    JobIndexing.set_browser
      (Some {| launched_headless := JobIndexing.headless o |}) in
  let client :=
    JobIndexing.set_hrflow_client
      (Some (HrflowClient (API_KEY (env_settings w)) (USER_EMAIL (env_settings w)))) in
  let launch := EvBrowserLaunch (JobIndexing.headless o) in
  JobIndexing.__aenter__ env (w, o) =
    match JobIndexing.start_fault env, JobIndexing.launch_fault env,
          JobIndexing.client_fault env with
    | Some e, _, _ =>
        ((emitted [EvEngineStart] w, o), Raised e)
    | None, Some e, _ =>
        ((emitted [EvEngineStart; launch] w, engine o), Raised e)
    | None, None, Some e =>
        ((emitted [EvEngineStart; launch; EvClientCreate] w,
          browser (engine o)), Raised e)
    | None, None, None =>
        ((emitted [EvEngineStart; launch; EvClientCreate] w,
          client (browser (engine o))), Returned tt)
    end.
Proof.
  destruct env as [[e1|] [e2|] [e3|]], w; cbn; unfold emitted, set_log; cbn;
    rewrite <- ?(assoc_L (++)); reflexivity.
Qed.

(** C3 as stated fails: the browser launch fails after the engine was
    started; the error propagates and the engine was not stopped. *)
Lemma aenter_leaks_engine_when_launch_fails :
  let env := {| JobIndexing.start_fault := None;
                JobIndexing.launch_fault := Some (Error "launch failed");
                JobIndexing.client_fault := None |} in
  let c := sample_config counting 1 in
  let o := JobIndexing.__init__ (search_query c) (conccurent_scraper_count c)
             (is_headless c) (data_buffer_size c) in
  let r := JobIndexing.__aenter__ env (boot_world c, o) in
  r.2 = Raised (Error "launch failed")
  ∧ events r.1.1 = [EvEngineStart; EvBrowserLaunch true]
  ∧ (EvEngineStop ∉ events r.1.1)
  ∧ JobIndexing.playwright_engine r.1.2 = Some PlaywrightEngine.
Proof.
  intros env c o r. split_and!; [by vm_compute..|not_in_log|by vm_compute].
Qed.

(** ** Detail fetch: [job_details_collector] *)

(** C5 (amended): [job_details_collector] returns the enriched record when
    [visit_job_page] returns a non-empty content and [extract_details]
    returns; it returns [None] when [visit_job_page] returns [None] or an
    empty content; an exception raised by [visit_job_page] or by
    [extract_details] is not caught and reaches the caller. *)
Theorem job_details_collector_outcome env worker job w :
  (ScrapingWorker.job_details_collector env worker job w).2 =
    match ScrapingWorker.visit_job_page env with
    | Raised e => Raised e
    | Returned content =>
        if ScrapingWorker.truthy content then
          match ScrapingWorker.extract_details env with
          | Raised e => Raised e
          | Returned (details, metadata) =>
              Returned (Some (update_data job details metadata))
          end
        else Returned None
    end.
Proof.
  destruct env as [[content|e] [[d m]|e']]; cbn; try done;
    destruct (ScrapingWorker.truthy content); done.
Qed.

(** C5 as stated fails: the page is fetched and the extraction fails; the
    collector raises instead of returning [None]. *)
Lemma job_details_collector_raises_on_extraction_failure :
  let env := {| ScrapingWorker.visit_job_page := Returned (Some "<html>");
                ScrapingWorker.extract_details := Raised (Error "no description") |} in
  let w := boot_world (sample_config counting 1) in
  ∃ w' worker,
    ScrapingWorker.__init__ ScrapingWorker.init_ok sample_browser None
      "Job Details Scraping" w = (w', Returned worker)
    ∧ (ScrapingWorker.job_details_collector env worker (sample_job "r1") w').2
      = Raised (Error "no description").
Proof. eexists _, _. split; reflexivity. Qed.

(** ** Teardown: [__aexit__] *)

(** Running a sequence of calls next to an object: the calls made are the
    attempted ones, the object is untouched. *)
Lemma bind_emitted {O} (plan : list (Event * option Exn)) (k : Eff (World * O) unit)
    (m : Eff (World * O) unit) w (o : O) :
  m (w, o) = ((emitted (attempted plan) w, o), result_of plan) →
  bind m (λ _, k) (w, o) =
    match result_of plan with
    | Returned _ => k (emitted (attempted plan) w, o)
    | Raised e => ((emitted (attempted plan) w, o), Raised e)
    end.
Proof. unfold bind. intros ->. by destruct (result_of plan) as [[]|]. Qed.

Lemma lift_call_ {O} ev f w (o : O) :
  lift (call_ ev f) (w, o) = ((emitted (attempted [(ev, f)]) w, o), result_of [(ev, f)]).
Proof. by destruct f. Qed.

Lemma attempted_app p1 p2 :
  attempted (p1 ++ p2) =
    match result_of p1 with
    | Returned _ => attempted p1 ++ attempted p2
    | Raised _ => attempted p1
    end.
Proof.
  induction p1 as [|[ev [e|]] p1 IH]; cbn; [done..|].
  rewrite IH. by destruct (result_of p1).
Qed.

Lemma result_of_app p1 p2 :
  result_of (p1 ++ p2) =
    match result_of p1 with
    | Returned _ => result_of p2
    | Raised e => Raised e
    end.
Proof. induction p1 as [|[ev [e|]] p1 IH]; cbn; done. Qed.

(** Two pieces of code that run their plans, one after the other, run the
    concatenated plan. *)
Lemma seq_plans {O} (m1 m2 : Eff (World * O) unit) p1 p2 :
  (∀ w o, m1 (w, o) = ((emitted (attempted p1) w, o), result_of p1)) →
  (∀ w o, m2 (w, o) = ((emitted (attempted p2) w, o), result_of p2)) →
  ∀ w o, bind m1 (λ _, m2) (w, o) =
           ((emitted (attempted (p1 ++ p2)) w, o), result_of (p1 ++ p2)).
Proof.
  intros H1 H2 w o. rewrite (bind_emitted p1) by apply H1.
  rewrite attempted_app, result_of_app.
  destruct (result_of p1) as [[]|e]; [|done].
  by rewrite H2, emitted_app.
Qed.

Lemma for_each_plan {O A} (xs : list A) (release : A → Event * option Exn) :
  ∀ w (o : O),
    for_each xs (λ x, lift (call_ (release x).1 (release x).2)) (w, o) =
      ((emitted (attempted (release <$> xs)) w, o), result_of (release <$> xs)).
Proof.
  induction xs as [|x xs IH]; intros w o.
  - cbn. by rewrite emitted_nil.
  - change (for_each (x :: xs) ?b) with (bind (b x) (λ _, for_each xs b)).
    change (release <$> x :: xs) with ([release x] ++ (release <$> xs)).
    apply (seq_plans _ _ [release x] (release <$> xs)); [|apply IH].
    intros w' o'. destruct (release x) as [ev f]. apply lift_call_.
Qed.

Lemma cancel_loop_plan {O} (cancelled : TaskId → bool) (ts : list TaskId) :
  ∀ w (o : O),
    for_each ts (λ task, if negb (cancelled task)
                         then lift (call_ (EvTaskCancel task) None) else ret tt) (w, o) =
      let plan := (λ task, (EvTaskCancel task, None)) <$>
                    filter (λ task, cancelled task = false) ts in
      ((emitted (attempted plan) w, o), result_of plan).
Proof.
  induction ts as [|task ts IH]; intros w o.
  - cbn. by rewrite emitted_nil.
  - change (for_each (task :: ts) ?b) with (bind (b task) (λ _, for_each ts b)).
    rewrite filter_cons. destruct (cancelled task) eqn:Hc; cbn [negb].
    + rewrite decide_False by done. unfold bind, ret. apply IH.
    + rewrite decide_True by done.
      change (?f <$> task :: ?l) with ([f task] ++ (f <$> l)).
      apply (seq_plans _ _ [_] _); [|apply IH].
      intros w' o'. apply lift_call_.
Qed.

Lemma if_plan {O} (b : bool) ev f :
  ∀ w (o : O),
    (if b then lift (call_ ev f) else ret tt) (w, o) =
      let plan := if b then [(ev, f)] else [] in
      ((emitted (attempted plan) w, o), result_of plan).
Proof.
  intros w o. destruct b; [apply lift_call_|]. cbn. by rewrite emitted_nil.
Qed.

(** C4 (amended): the teardown makes its release calls in the fixed order
    (1) cancel the tasks that are not cancelled, (2) stop every worker of the
    pool, (3) close the browser, (4) stop the engine; the first call that
    raises ends the teardown: its error propagates at once and the calls
    after it are not made. *)
Theorem aexit_stops_at_first_error env w o :
  JobIndexing.__aexit__ env (w, o) =
    ((emitted (attempted (teardown_plan env o)) w, o),
     result_of (teardown_plan env o)).
Proof.
  unfold JobIndexing.__aexit__, teardown_plan.
  set (p1 := (λ task, (EvTaskCancel task, None)) <$> _).
  set (p2 := (λ worker, _) <$> JobIndexing.worker_pool o).
  set (p3 := if bool_decide (is_Some (JobIndexing.browser o)) then _ else _).
  set (p4 := if bool_decide (is_Some (JobIndexing.playwright_engine o)) then _ else _).
  rewrite bind_gets, (bind_emitted p1) by apply cancel_loop_plan.
  rewrite (attempted_app p1), (result_of_app p1).
  destruct (result_of p1) as [[]|e]; [|done].
  rewrite bind_gets, (bind_emitted p2)
    by apply (for_each_plan _
                (λ worker, (EvContextClose (ScrapingWorker.context worker),
                            JobIndexing.stop_fault env (ScrapingWorker.context worker)))).
  rewrite (attempted_app p2), (result_of_app p2).
  destruct (result_of p2) as [[]|e]; [|by rewrite emitted_app].
  rewrite bind_gets, (bind_emitted p3) by apply if_plan.
  rewrite (attempted_app p3), (result_of_app p3).
  destruct (result_of p3) as [[]|e]; [|by rewrite !emitted_app].
  rewrite bind_gets, if_plan. cbv zeta. fold p4.
  by rewrite ?emitted_app, <- ?(assoc_L (++)).
Qed.

(** C4 as stated fails: stopping the first worker raises; the second worker
    is not stopped, the browser is not closed and the engine is not stopped. *)
Lemma aexit_skips_browser_when_worker_stop_raises :
  let worker c := {| ScrapingWorker.proxy := None;
                     ScrapingWorker.browser := sample_browser;
                     ScrapingWorker.page := c; ScrapingWorker.purpose := "Feed Scraping";
                     ScrapingWorker.id := 20; ScrapingWorker.context := c |} in
  let o := {| JobIndexing.query := None; JobIndexing.conccurency_lvl := 1;
              JobIndexing.job_queue := Queue_new (-1);
              JobIndexing.headless := true;
              JobIndexing.playwright_engine := Some PlaywrightEngine;
              JobIndexing.browser := Some sample_browser;
              JobIndexing.hrflow_client := None;
              JobIndexing.worker_pool := [worker 0%nat; worker 1%nat];
              JobIndexing.tasks := [TProducer; TConsumer 0] |} in
  let env := {| JobIndexing.task_cancelled := λ _, false;
                JobIndexing.stop_fault := λ _, Some (Error "context closed");
                JobIndexing.close_fault := None;
                JobIndexing.engine_stop_fault := None |} in
  let r := JobIndexing.__aexit__ env (boot_world (sample_config counting 1), o) in
  r.2 = Raised (Error "context closed")
  ∧ events r.1.1 = [EvTaskCancel TProducer; EvTaskCancel (TConsumer 0); EvContextClose 0%nat]
  ∧ (EvContextClose 1%nat ∉ events r.1.1)
  ∧ (EvBrowserClose ∉ events r.1.1)
  ∧ (EvEngineStop ∉ events r.1.1).
Proof.
  intros worker o env r. split_and!.
  1,2: by vm_compute.
  all: not_in_log.
Qed.

(** ** Indexing: [index_job] *)

(** What one call of [index_job] does, by the answer of the service. *)
Lemma index_job_cases env client job w :
  let board := BOARD_KEY (env_settings w) in
  let ref := in_platform_id job in
  index_job env client job w =
    match get_fault env with
    | Some e => (emitted [EvIndexingGet board ref] w, Raised e)
    | None =>
        match boards w !! (board, ref) with
        | Some _ => (emitted [EvIndexingGet board ref] w, Returned tt)
        | None =>
            match add_fault env with
            | Some e =>
                (emitted [EvIndexingGet board ref; EvIndexingAdd board ref] w, Raised e)
            | None =>
                (set_boards (<[(board, ref) := api_format job]> (boards w))
                   (emitted [EvIndexingGet board ref; EvIndexingAdd board ref] w),
                 Returned tt)
            end
        end
    end.
Proof.
  destruct env as [[e1|] [e2|]], w as [st ct lg rs co bs]; cbn;
    try reflexivity;
    destruct (bs !! (BOARD_KEY st, in_platform_id job)) eqn:Hb; cbn;
    unfold emitted, set_log, set_boards; cbn;
    rewrite <- ?(assoc_L (++)); reflexivity.
Qed.

Lemma not_in_get board ref board' ref' :
  EvIndexingAdd board ref ∉ [EvIndexingGet board' ref'].
Proof. intros [=]%list_elem_of_singleton. Qed.

Lemma add_calls_app l1 l2 : add_calls (l1 ++ l2) = (add_calls l1 + add_calls l2)%nat.
Proof. unfold add_calls. by rewrite filter_app, length_app. Qed.

Lemma calls_since_trans w w1 w2 :
  events w `prefix_of` events w1 → events w1 `prefix_of` events w2 →
  calls_since w w2 = calls_since w w1 ++ calls_since w1 w2.
Proof.
  intros [l1 H1] [l2 H2]. unfold calls_since. rewrite H2, H1.
  rewrite <- (assoc_L (++)), !drop_app_length.
  by rewrite (assoc_L (++)), drop_app_length.
Qed.

Lemma index_job_events env client job w :
  events w `prefix_of` events (index_job env client job w).1.
Proof.
  rewrite index_job_cases. cbv zeta.
  destruct (get_fault env); cbn [fst]; [rewrite events_emitted; by eexists|].
  destruct (boards w !! _); cbn [fst]; [rewrite events_emitted; by eexists|].
  destruct (add_fault env); cbn [fst];
    try change (events (set_boards ?b ?w')) with (events w');
    rewrite events_emitted; by eexists.
Qed.

(** C6 (amended): [index_job] calls [add_json] if and only if the [get]
    before it returned, and returned no data for the reference.  Two
    submissions, one after the other, of records with the same reference
    make exactly one [add_json] call when the reference is new to the index
    and the calls of the first submission do not raise (the calls are then
    [get], [add_json], [get]).  They make none when the index already holds
    the reference, and two when the first [add_json] raised, so that nothing
    was stored, and the second [get] returns.  In general the number of
    [add_json] calls is one for each submission whose [get] returns without
    data. *)
Theorem index_job_adds_once_per_reference env1 env2 client job1 job2 w :
  let board := BOARD_KEY (env_settings w) in
  let ref := in_platform_id job1 in
  let absent := get_fault env1 = None ∧ boards w !! (board, ref) = None in
  let w1 := (index_job env1 client job1 w).1 in
  let w2 := (index_job env2 client job2 w1).1 in
  (EvIndexingAdd board ref ∈ calls_since w w1 ↔ absent)
  ∧ add_calls (calls_since w w1) = (if bool_decide absent then 1 else 0)%nat
  ∧ (in_platform_id job2 = ref →
     add_calls (calls_since w w2) =
       ((if bool_decide absent then 1 else 0)
        + (if bool_decide (get_fault env2 = None ∧ boards w1 !! (board, ref) = None)
           then 1 else 0))%nat
     ∧ (boards w1 !! (board, ref) = None ↔
        boards w !! (board, ref) = None
        ∧ (is_Some (get_fault env1) ∨ is_Some (add_fault env1)))
     ∧ (absent → add_fault env1 = None →
        calls_since w w2 =
          [EvIndexingGet board ref; EvIndexingAdd board ref; EvIndexingGet board ref]
        ∧ add_calls (calls_since w w2) = 1%nat)
     ∧ (is_Some (boards w !! (board, ref)) → add_calls (calls_since w w2) = 0%nat)
     ∧ (absent → is_Some (add_fault env1) → get_fault env2 = None →
        add_calls (calls_since w w2) = 2%nat)).
Proof.
  intros board ref absent w1 w2.
  assert (env_settings w1 = env_settings w) as Hset.
  { subst w1. rewrite index_job_cases.
    by destruct (get_fault env1), (boards w !! _), (add_fault env1). }
  assert (calls_since w w2 = calls_since w w1 ++ calls_since w1 w2) as Hsplit
    by (apply calls_since_trans; apply index_job_events).
  assert (in_platform_id job2 = ref →
          calls_since w1 w2 =
            EvIndexingGet board ref ::
              (if bool_decide (get_fault env2 = None ∧ boards w1 !! (board, ref) = None)
               then [EvIndexingAdd board ref] else [])) as Hsecond.
  { intros Href. subst w2. rewrite (index_job_cases env2 client job2 w1).
    cbv zeta. rewrite Hset, Href. fold board.
    destruct (get_fault env2) as [e|]; cbn [fst].
    { rewrite calls_since_emitted. by rewrite bool_decide_eq_false_2 by by intros [? _]. }
    destruct (boards w1 !! (board, ref)) as [j|]; cbn [fst].
    { rewrite calls_since_emitted. by rewrite bool_decide_eq_false_2 by by intros [_ ?]. }
    rewrite bool_decide_eq_true_2 by done.
    destruct (add_fault env2); cbn [fst];
      by rewrite ?calls_since_set_boards, calls_since_emitted. }
  assert (calls_since w w1 =
            EvIndexingGet board ref ::
              (if bool_decide absent then [EvIndexingAdd board ref] else [])
          ∧ (boards w1 !! (board, ref) = None ↔
             boards w !! (board, ref) = None
             ∧ (is_Some (get_fault env1) ∨ is_Some (add_fault env1)))) as [Hfirst Hstored].
  { subst w1 absent. rewrite (index_job_cases env1 client job1 w). cbv zeta.
    fold board ref.
    destruct (get_fault env1) as [e|]; cbn [fst].
    { rewrite calls_since_emitted, bool_decide_eq_false_2 by by intros [? _].
      split; [done|]. cbn. split; [eauto|tauto]. }
    destruct (boards w !! (board, ref)) as [j|] eqn:Hb; cbn [fst].
    { rewrite calls_since_emitted, bool_decide_eq_false_2 by by intros [_ ?].
      split; [done|]. cbn. rewrite Hb. split; [done|by intros [? _]]. }
    rewrite bool_decide_eq_true_2 by done.
    destruct (add_fault env1) as [e|]; cbn [fst].
    - rewrite calls_since_emitted. split; [done|]. cbn. rewrite Hb. split; [eauto|done].
    - rewrite calls_since_set_boards, calls_since_emitted. split; [done|].
      cbn. rewrite lookup_insert_eq. split; [done|].
      intros [_ [[? [=]]|[? [=]]]]. }
  split_and!.
  - rewrite Hfirst. case_bool_decide as Ha.
    + split; [done|]. intros _. apply list_elem_of_In. cbn. auto.
    + split; [|done]. by intros ?%not_in_get.
  - rewrite Hfirst. by case_bool_decide.
  - intros Href. specialize (Hsecond Href).
    assert (add_calls (calls_since w w2) =
              ((if bool_decide absent then 1 else 0)
               + (if bool_decide (get_fault env2 = None ∧ boards w1 !! (board, ref) = None)
                  then 1 else 0))%nat) as Htotal.
    { rewrite Hsplit, add_calls_app, Hfirst, Hsecond. by repeat case_bool_decide. }
    split; [exact Htotal|]. split; [exact Hstored|]. split_and!.
    + intros Habs Hadd.
      assert (boards w1 !! (board, ref) ≠ None) as Hne.
      { rewrite Hstored, Hadd. destruct Habs as [-> _].
        intros [_ [[? [=]]|[? [=]]]]. }
      rewrite Hsplit, Hfirst, Hsecond, bool_decide_eq_true_2 by done.
      rewrite bool_decide_eq_false_2 by (by intros [_ ?]). done.
    + intros [j Hj]. rewrite Htotal.
      rewrite bool_decide_eq_false_2 by (intros [_ ?]; congruence).
      rewrite bool_decide_eq_false_2; [done|].
      intros [_ [? _]%Hstored]. congruence.
    + intros Habs Hadd Hg2. rewrite Htotal.
      rewrite bool_decide_eq_true_2 by done.
      rewrite bool_decide_eq_true_2; [done|].
      split; [done|]. apply Hstored. destruct Habs as [_ ?]. auto.
Qed.

(** C6 on a reference new to the index. *)
Lemma index_job_adds_once_per_reference_witness :
  let w := boot_world (sample_config counting 1) in
  let client := HrflowClient "key" "operator@example.org" in
  let w2 := (index_job index_ok client (sample_job "r1")
               (index_job index_ok client (sample_job "r1") w).1).1 in
  calls_since w w2 =
    [EvIndexingGet "board" "r1"; EvIndexingAdd "board" "r1"; EvIndexingGet "board" "r1"]
  ∧ add_calls (calls_since w w2) = 1%nat.
Proof.
  intros w client w2.
  destruct (index_job_adds_once_per_reference index_ok index_ok client
              (sample_job "r1") (sample_job "r1") w) as (_ & _ & H).
  destruct (H eq_refl) as (_ & _ & Hok & _).
  by apply Hok.
Defined.

(** C6 as stated fails: two submissions of a reference make no [add_json]
    call when the index already holds the reference, and two when the first
    [add_json] raised. *)
Lemma index_job_twice_adds_none_or_twice :
  let twice env1 w :=
    calls_since w
      (index_job index_ok sample_client (sample_job "r1")
         (index_job env1 sample_client (sample_job "r1") w).1).1 in
  twice index_ok indexed_world = [EvIndexingGet "board" "r1"; EvIndexingGet "board" "r1"]
  ∧ add_calls (twice index_ok indexed_world) = 0%nat
  ∧ twice add_refused (boot_world (sample_config counting 1)) =
      [EvIndexingGet "board" "r1"; EvIndexingAdd "board" "r1";
       EvIndexingGet "board" "r1"; EvIndexingAdd "board" "r1"]
  ∧ add_calls (twice add_refused (boot_world (sample_config counting 1))) = 2%nat.
Proof. split_and!; vm_compute; reflexivity. Qed.

(** ** The steps of the pipeline *)

Lemma created_app l1 l2 : created (l1 ++ l2) = created l1 ++ created l2.
Proof. apply omap_app. Qed.

Lemma visits_app l1 l2 : visits (l1 ++ l2) = visits l1 ++ visits l2.
Proof. apply omap_app. Qed.

Lemma shutdowns_app l1 l2 : shutdowns (l1 ++ l2) = shutdowns l1 ++ shutdowns l2.
Proof. unfold shutdowns. by rewrite fmap_app, filter_app. Qed.

Ltac eff_norm :=
  cbv [ScrapingWorker.__init__ ScrapingWorker.job_details_collector
       ScrapingWorker.stop index_job indexing_get indexing_add_json
       new_context randint randint_pure call call_ emit fault answer
       bind ret raise gets modify
       set_log set_random_state set_contexts_opened set_boards set_current_task
       log current_task contexts_opened random_state boards env_settings
       ScrapingWorker.new_context_fault ScrapingWorker.new_page_fault
       ScrapingWorker.stealth_fault ScrapingWorker.visit_job_page
       ScrapingWorker.extract_details get_fault add_fault data
       ScrapingWorker.context ScrapingWorker.page].

Ltac log_norm :=
  cbn [log current_task contexts_opened fst snd];
  rewrite ?created_app, ?visits_app, ?shutdowns_app; cbn;
  rewrite ?app_nil_r.

Lemma init_effect env browser proxy_info _purpose w w' r :
  ScrapingWorker.__init__ env browser proxy_info _purpose w = (w', r) →
  current_task w' = current_task w
  ∧ visits (log w') = visits (log w)
  ∧ shutdowns (log w') = shutdowns (log w)
  ∧ match ScrapingWorker.new_context_fault env with
    | Some e =>
        r = Raised e ∧ created (log w') = created (log w)
        ∧ contexts_opened w' = contexts_opened w
    | None =>
        created (log w') = created (log w) ++ [(current_task w, contexts_opened w)]
        ∧ contexts_opened w' = S (contexts_opened w)
        ∧ ∀ worker, r = Returned worker →
            ScrapingWorker.context worker = contexts_opened w
            ∧ ScrapingWorker.page worker = contexts_opened w
    end.
Proof.
  destruct env as [[e1|] [e2|] [e3|]], w as [st ct lg rs co bs];
    eff_norm; intros [= <- <-]; log_norm; split_and!; try done;
    by intros ? [= <-].
Qed.

Lemma collector_effect env self job w w' r :
  ScrapingWorker.job_details_collector env self job w = (w', r) →
  same_browser w w'
  ∧ visits (log w') = visits (log w) ++ [(current_task w, ScrapingWorker.page self)].
Proof.
  destruct env as [[content|e] [[d m]|e']], w as [st ct lg rs co bs];
    eff_norm; try destruct (ScrapingWorker.truthy content);
    intros [= <- <-]; (split; [split|]); log_norm; done.
Qed.

Lemma index_job_effect env client job w w' r :
  index_job env client job w = (w', r) →
  same_browser w w' ∧ visits (log w') = visits (log w).
Proof.
  destruct env as [[e1|] [e2|]], w as [st ct lg rs co bs]; eff_norm;
    try destruct (bs !! (BOARD_KEY st, in_platform_id job)); cbn;
    intros [= <- <-]; (split; [split|]); log_norm; done.
Qed.

Lemma emit_effect ev w :
  is_shutdown ev = false → (∀ c, ev ≠ EvNewContext c) → (∀ c ref, ev ≠ EvVisit c ref) →
  same_browser w (emit ev w).1 ∧ visits (log (emit ev w).1) = visits (log w).
Proof.
  intros Hs Hc Hv. destruct w as [st ct lg rs co bs]; eff_norm.
  (split; [split|]); log_norm; try done.
  - destruct ev; cbn; rewrite ?app_nil_r; try done. exfalso. by eapply Hc.
  - destruct ev; cbn in *; rewrite ?app_nil_r; done.
  - destruct ev; cbn; rewrite ?app_nil_r; try done. exfalso. by eapply Hv.
Qed.

Lemma held_insert cs i c c' :
  cs !! i = Some c →
  (held (<[i := c']> cs) + weight c = held cs + weight c')%nat.
Proof.
  unfold held. revert i.
  induction cs as [|x cs IH]; intros [|i] H; simplify_eq/=; [lia|].
  specialize (IH _ H). lia.
Qed.

Lemma held_lookup cs i c : cs !! i = Some c → (weight c ≤ held cs)%nat.
Proof.
  unfold held. revert i.
  induction cs as [|x cs IH]; intros [|i] H; simplify_eq/=; [lia|].
  specialize (IH _ H). lia.
Qed.

Lemma held_cancel cs : held (cancel <$> cs) = held cs.
Proof.
  unfold held. induction cs as [|x cs IH]; cbn; [done|]. rewrite IH. f_equal.
  unfold cancel, weight. by destruct (finished (state x)).
Qed.

Lemma held_replicate n c : weight c = 0%nat → held (replicate n c) = 0%nat.
Proof. intros Hc. unfold held. induction n; cbn; [done|]. by rewrite Hc. Qed.

Lemma InvQ_boot c : InvQ c (boot c).
Proof. by split. Qed.

Lemma perform_eq {A} (m : Eff World A) s :
  perform m s = (set_world (m (world s)).1 s, (m (world s)).2).
Proof. unfold perform. by destruct (m (world s)). Qed.

Lemma make_worker_eq env p s :
  make_worker env p s =
    match JobIndexing.browser (self s) with
    | None =>
        (set_world (set_random_state (randint_pure 20 9999 (random_state (world s))).2
                      (world s)) s,
         Raised (Error "AttributeError: 'NoneType' object has no attribute 'new_context'"))
    | Some browser =>
        let r := ScrapingWorker.__init__ env browser None p (world s) in
        match r.2 with
        | Returned worker =>
            (set_self (JobIndexing.set_worker_pool
                         (JobIndexing.worker_pool (self s) ++ [worker]) (self s))
               (set_world r.1 s), Returned worker)
        | Raised e => (set_world r.1 s, Raised e)
        end
    end.
Proof.
  unfold make_worker. destruct (JobIndexing.browser (self s)).
  - rewrite perform_eq. cbn. by destruct (_.2).
  - by rewrite perform_eq.
Qed.

(** ** What a step leaves of the system *)

Lemma same_browser_refl w : same_browser w w.
Proof. by split. Qed.

Lemma set_world_self s : set_world (world s) s = s.
Proof. by destruct s. Qed.

Lemma set_pool_self o :
  JobIndexing.set_worker_pool (JobIndexing.worker_pool o) o = o.
Proof. by destruct o. Qed.

Lemma set_self_self s : set_self (self s) s = s.
Proof. by destruct s. Qed.

(** [make_worker] changes the pool and the process state only; it opens
    one context when [new_context] is granted, none otherwise. *)
Lemma make_worker_inv env p s s0 r :
  make_worker env p s = (s0, r) →
  ∃ w pool,
    s0 = set_self (JobIndexing.set_worker_pool pool (self s)) (set_world w s)
    ∧ current_task w = current_task (world s)
    ∧ visits (log w) = visits (log (world s))
    ∧ shutdowns (log w) = shutdowns (log (world s))
    ∧ ((created (log w) = created (log (world s))
        ∧ contexts_opened w = contexts_opened (world s)
        ∧ ∃ e, r = Raised e)
       ∨ (created (log w) =
            created (log (world s)) ++ [(current_task (world s), contexts_opened (world s))]
          ∧ contexts_opened w = S (contexts_opened (world s))
          ∧ ∀ worker, r = Returned worker →
              ScrapingWorker.context worker = contexts_opened (world s)
              ∧ ScrapingWorker.page worker = contexts_opened (world s))).
Proof.
  rewrite make_worker_eq. destruct (JobIndexing.browser (self s)) as [b|].
  - cbv zeta.
    destruct (ScrapingWorker.__init__ env b None p (world s)) as [w r0] eqn:Hi.
    apply init_effect in Hi as (Ht & Hv & Hs & Hc). cbn [fst snd].
    assert (∀ pool (r1 : Outcome ScrapingWorker.t), r1 = r0 →
      (set_self (JobIndexing.set_worker_pool pool (self s)) (set_world w s), r1) = (s0, r) →
      ∃ w1 pool1,
        s0 = set_self (JobIndexing.set_worker_pool pool1 (self s)) (set_world w1 s)
        ∧ current_task w1 = current_task (world s)
        ∧ visits (log w1) = visits (log (world s))
        ∧ shutdowns (log w1) = shutdowns (log (world s))
        ∧ ((created (log w1) = created (log (world s))
            ∧ contexts_opened w1 = contexts_opened (world s)
            ∧ ∃ e, r = Raised e)
           ∨ (created (log w1) =
                created (log (world s)) ++ [(current_task (world s), contexts_opened (world s))]
              ∧ contexts_opened w1 = S (contexts_opened (world s))
              ∧ ∀ worker, r = Returned worker →
                  ScrapingWorker.context worker = contexts_opened (world s)
                  ∧ ScrapingWorker.page worker = contexts_opened (world s)))) as Hgen.
    { intros pool r1 -> [= <- <-]. exists w, pool. split_and!; try done.
      destruct (ScrapingWorker.new_context_fault env) as [e|].
      - left. destruct Hc as (-> & ? & ?). eauto.
      - right. done. }
    destruct r0 as [worker|e]; cbn [fst snd]; intros H.
    + by eapply Hgen.
    + apply (Hgen (JobIndexing.worker_pool (self s)) (Raised e)); [done|].
      rewrite set_pool_self. by destruct s.
  - intros [= <- <-].
    exists (set_random_state (randint_pure 20 9999 (random_state (world s))).2 (world s)),
      (JobIndexing.worker_pool (self s)).
    rewrite set_pool_self. split; [by destruct s|].
    split_and!; try done. left. eauto.
Qed.

Lemma collector_inv env worker job s s0 r :
  perform (ScrapingWorker.job_details_collector env worker job) s = (s0, r) →
  ∃ w, s0 = set_world w s
    ∧ same_browser (world s) w
    ∧ visits (log w) =
        visits (log (world s)) ++ [(current_task (world s), ScrapingWorker.page worker)].
Proof.
  rewrite perform_eq. intros [= <- <-]. eexists. split; [done|].
  eapply collector_effect. apply surjective_pairing.
Qed.

Lemma index_job_inv env client job s s0 r :
  perform (index_job env client job) s = (s0, r) →
  ∃ w, s0 = set_world w s
    ∧ same_browser (world s) w ∧ visits (log w) = visits (log (world s)).
Proof.
  rewrite perform_eq. intros [= <- <-]. eexists. split; [done|].
  eapply index_job_effect. apply surjective_pairing.
Qed.

Lemma put_nowait_inv q job q' :
  put_nowait q job = Some q' →
  maxsize q' = maxsize q ∧ items q' = items q ++ [job]
  ∧ unfinished_tasks q' = S (unfinished_tasks q) ∧ full q = false.
Proof. unfold put_nowait. destruct (full q); [done|]. by intros [= <-]. Qed.

Lemma put_nowait_full q job : put_nowait q job = None → 0 < maxsize q.
Proof.
  unfold put_nowait, full. destruct (maxsize q <=? 0) eqn:Hm; [done|].
  intros _. lia.
Qed.

Lemma put_none job s : put job s = None → put_nowait (queue s) job = None.
Proof. unfold put. by destruct (put_nowait (queue s) job). Qed.

Lemma put_inv job s s0 :
  put job s = Some s0 →
  ∃ w q, s0 = set_world w (set_queue q s)
    ∧ maxsize q = maxsize (queue s) ∧ items q = items (queue s) ++ [job]
    ∧ unfinished_tasks q = S (unfinished_tasks (queue s))
    ∧ same_browser (world s) w ∧ visits (log w) = visits (log (world s)).
Proof.
  unfold put. destruct (put_nowait (queue s) job) as [q|] eqn:Hq; [|done].
  cbn [mbind option_bind]. rewrite perform_eq. intros [= <-].
  apply put_nowait_inv in Hq as (?&?&?&?).
  eexists _, q. split; [done|]. split_and!; try done; by apply emit_effect.
Qed.

Lemma acknowledge_eq i worker job s :
  acknowledge i worker job s =
    match task_done (queue s) with
    | Returned q =>
        set_consumer i (CWaiting worker)
          (set_world (emit EvTaskDone (world s)).1 (set_queue q s))
    | Raised e => set_consumer i (CFinished e (Some job)) s
    end.
Proof. unfold acknowledge. destruct (task_done (queue s)); [|done]. by rewrite perform_eq. Qed.
Lemma created_shutdown t evs :
  Forall (λ ev, is_shutdown ev = true) evs → created ((λ ev, (t, ev)) <$> evs) = [].
Proof. induction 1 as [|ev evs Hev _ IH]; [done|]. by destruct ev. Qed.

Lemma visits_shutdown t evs :
  Forall (λ ev, is_shutdown ev = true) evs → visits ((λ ev, (t, ev)) <$> evs) = [].
Proof. induction 1 as [|ev evs Hev _ IH]; [done|]. by destruct ev. Qed.

Lemma run_cancel_consumers_inv s :
  ∃ w,
    run_cancel_consumers s =
      set_run_state (RFinished (Returned tt))
        (set_consumers (cancel <$> consumers s) (set_world w s))
    ∧ current_task w = current_task (world s)
    ∧ created (log w) = created (log (world s))
    ∧ contexts_opened w = contexts_opened (world s)
    ∧ visits (log w) = visits (log (world s))
    ∧ events w = events (world s) ++
        EvJoin :: ((λ i, EvTaskCancel (TConsumer i)) <$> seq 0 (length (consumers s))).
Proof.
  unfold run_cancel_consumers. rewrite perform_eq.
  cbn [fst snd consumers set_world].
  unfold bind. rewrite emit_eq. cbv beta iota. rewrite for_each_emit, emitted_app.
  cbn [fst].
  set (evs := [EvJoin] ++ _).
  exists (emitted evs (world s)). split; [done|].
  assert (Forall (λ ev, is_shutdown ev = true) evs) as Hevs.
  { apply Forall_app. split; [by constructor|]. by apply Forall_fmap, Forall_true. }
  split_and!; try done.
  - unfold emitted; cbn [log set_log]. by rewrite created_app, created_shutdown, app_nil_r.
  - unfold emitted; cbn [log set_log]. by rewrite visits_app, visits_shutdown, app_nil_r.
  - by rewrite events_emitted.
Qed.

Lemma get_nowait_inv q job q' :
  get_nowait q = Some (job, q') →
  maxsize q' = maxsize q ∧ items q = job :: items q'
  ∧ unfinished_tasks q' = unfinished_tasks q.
Proof. unfold get_nowait. destruct (items q); [done|]. by intros [= <- <-]. Qed.

Lemma task_done_inv q q' :
  task_done q = Returned q' →
  maxsize q' = maxsize q ∧ items q' = items q
  ∧ unfinished_tasks q = S (unfinished_tasks q').
Proof. unfold task_done. destruct (unfinished_tasks q); [done|]. by intros [= <-]. Qed.

Lemma task_done_raised q e : task_done q = Raised e → unfinished_tasks q = 0%nat.
Proof. unfold task_done. by destruct (unfinished_tasks q). Qed.

Ltac step_split H :=
  match type of H with
  | step ?l ?s = Some ?s' =>
      destruct l; cbn [step] in H;
      repeat (case_match; simplify_option_eq)
  end.

Ltac step_facts :=
  rewrite ?acknowledge_eq in *;
  repeat match goal with
  | H : make_worker _ _ _ = (_, _) |- _ =>
      apply make_worker_inv in H as (?w & ?pool & -> & ?Ht & ?Hv & ?Hs & ?Hc)
  | H : perform (ScrapingWorker.job_details_collector _ _ _) _ = _ |- _ =>
      apply collector_inv in H as (?w & -> & ?Hb & ?Hv)
  | H : perform (index_job _ _ _) _ = _ |- _ =>
      apply index_job_inv in H as (?w & -> & ?Hb & ?Hv)
  | H : put _ _ = Some _ |- _ =>
      apply put_inv in H as (?w & ?q & -> & ?Hm & ?Hi & ?Hu & ?Hb & ?Hv)
  | H : put _ _ = None |- _ => apply put_none, put_nowait_full in H
  | H : get_nowait _ = Some _ |- _ => apply get_nowait_inv in H as (?Hm & ?Hi & ?Hu)
  | |- context [task_done ?q0] =>
      let Htd := fresh "Htd" in
      destruct (task_done q0) as [?q|?e] eqn:Htd;
      [apply task_done_inv in Htd as (?Hm & ?Hi & ?Hu)
      |apply task_done_raised in Htd]
  | |- context [run_producer_done ?r0 _] => destruct r0; cbn [run_producer_done]
  | |- context [run_cancel_consumers ?s0] =>
      let Hrc := fresh "Hrc" in
      destruct (run_cancel_consumers_inv s0) as (?w & Hrc & ?Ht & ?Hc & ?Ho & ?Hv & ?He);
      rewrite Hrc; clear Hrc
  | H : join_ready _ = true |- _ => apply bool_decide_eq_true in H
  end.

Ltac step_inv H := step_split H; step_facts.

Local Arguments created : simpl never.
Local Arguments visits : simpl never.
Local Arguments shutdowns : simpl never.

Lemma no_cancel_replicate n c : must_cancel c = false → no_cancel (replicate n c).
Proof. intros. by apply Forall_replicate. Qed.

Ltac held_facts :=
  repeat match goal with
  | H : consumers ?s !! ?i = Some ?c |- context [<[?i := ?c']> (consumers ?s)] =>
      pose proof (held_insert _ _ _ c' H);
      pose proof (held_lookup _ _ _ H);
      assert (no_cancel (consumers s) →
              must_cancel c' = false → no_cancel (<[i := c']> (consumers s)))
        by (intros; by apply Forall_insert);
      revert H
  end; intros;
  rewrite ?held_cancel, ?held_replicate in * by done;
  unfold held in *; unfold weight in *; cbn in *.

Ltac finish :=
  intros;
  repeat match goal with
  | H : maxsize ?q = maxsize _ |- _ => rewrite H in *; clear H
  | H : items ?q = _ ++ _ |- _ => rewrite H in *; clear H
  | H : items _ = _ :: _ |- _ => rewrite H in *; clear H
  | H : items ?q = _ |- _ => is_var q; rewrite H in *; clear H
  | u : unit |- _ => destruct u
  end;
  rewrite ?length_app in *; cbn [length] in *;
  repeat case_match; destruct_and?; simplify_eq/=;
  repeat match goal with
  | H : consumers _ = [] |- _ => rewrite H in *; clear H; simplify_eq/=
  end;
  repeat split; try congruence; try lia; eauto using no_cancel_replicate.

Lemma InvQ_step c l s s' : InvQ c s → step l s = Some s' → InvQ c s'.
Proof.
  intros Hinv H. step_inv H; destruct Hinv as [Hmax Hput Hunf Hctl];
    split; unfold control_ok, queue in *; cbn in *; held_facts; finish.
Qed.

(** ** Reachable states *)

Lemma exec_app ls1 ls2 s : exec (ls1 ++ ls2) s = exec ls1 s ≫= exec ls2.
Proof.
  revert s. induction ls1 as [|l ls1 IH]; intros s; cbn; [done|].
  destruct (step l s); cbn; [apply IH|done].
Qed.

Lemma reachable_boot c : reachable c (boot c).
Proof. by exists []. Qed.

Lemma reachable_step c l s s' : reachable c s → step l s = Some s' → reachable c s'.
Proof.
  intros [ls Hls] Hs. exists (ls ++ [l]). rewrite exec_app, Hls. cbn. by rewrite Hs.
Qed.

Lemma reachable_exec c ls s s' : reachable c s → exec ls s = Some s' → reachable c s'.
Proof.
  intros [ls0 Hls] Hs. exists (ls0 ++ ls). by rewrite exec_app, Hls.
Qed.

Lemma reachable_ind (P : System → Prop) c :
  P (boot c) →
  (∀ l s s', reachable c s → P s → step l s = Some s' → P s') →
  ∀ s, reachable c s → P s.
Proof.
  intros Hboot Hstep s [ls Hls]. revert s Hls.
  induction ls as [|l ls IH] using rev_ind; intros s Hls.
  - by injection Hls as <-.
  - rewrite exec_app in Hls. destruct (exec ls (boot c)) as [s0|] eqn:Hs0; [|done].
    cbn in Hls. destruct (step l s0) as [s1|] eqn:Hs1; [|done].
    injection Hls as <-. eapply Hstep; [by exists ls|by apply IH|done].
Qed.

Lemma InvQ_reachable c s : reachable c s → InvQ c s.
Proof.
  apply reachable_ind; [apply InvQ_boot|]. intros l s0 s1 _. apply InvQ_step.
Qed.

(** ** The pool of workers *)

Lemma make_worker_pool env p s s0 r :
  make_worker env p s = (s0, r) →
  JobIndexing.worker_pool (self s) `prefix_of` JobIndexing.worker_pool (self s0).
Proof.
  rewrite make_worker_eq. destruct (JobIndexing.browser (self s)); cbv zeta.
  - destruct (_.2); intros [= <- <-]; cbn; [by apply prefix_app_r|done].
  - by intros [= <- <-].
Qed.

Lemma worker_pool_step l s s' :
  step l s = Some s' →
  JobIndexing.worker_pool (self s) `prefix_of` JobIndexing.worker_pool (self s').
Proof.
  intros H. step_split H;
    try (match goal with
         | Hm : make_worker _ _ _ = _ |- _ => apply make_worker_pool in Hm
         end);
    step_facts; cbn; done.
Qed.

Lemma worker_pool_exec ls s s' :
  exec ls s = Some s' →
  JobIndexing.worker_pool (self s) `prefix_of` JobIndexing.worker_pool (self s').
Proof.
  revert s. induction ls as [|l ls IH]; intros s; cbn.
  - by intros [= <-].
  - destruct (step l s) as [s0|] eqn:Hs; [|done]. intros H.
    etrans; [by eapply worker_pool_step|by apply IH].
Qed.

(** ** The identity of a worker *)

(** C1 (amended): the identity of a worker is the number drawn by
    [random.randint(20, 9999)] when the worker is constructed: an integer
    from 20 to 9999 fixed by the state of the random generator of the process
    alone, whatever the browser, the proxy and the purpose given to the
    constructor; the draw advances the generator by one.  It is assigned
    once: a worker of the pool stays in its place with its identity whatever
    the tasks of [run] do afterwards. *)
Theorem worker_identity_drawn_by_randint env browser proxy_info _purpose w w' worker :
  ScrapingWorker.__init__ env browser proxy_info _purpose w = (w', Returned worker) →
  ScrapingWorker.id worker = (randint_pure 20 9999 (random_state w)).1
  ∧ 20 ≤ ScrapingWorker.id worker ≤ 9999
  ∧ pos (random_state w') = S (pos (random_state w))
  ∧ ∀ ls s s' i,
      JobIndexing.worker_pool (self s) !! i = Some worker →
      exec ls s = Some s' →
      JobIndexing.worker_pool (self s') !! i = Some worker.
Proof.
  unfold ScrapingWorker.__init__, new_context, call_, emit, fault, answer,
    randint, bind, gets, modify, ret.
  cbn. intros H.
  destruct (ScrapingWorker.new_context_fault env),
    (ScrapingWorker.new_page_fault env), (ScrapingWorker.stealth_fault env);
    simplify_eq; cbn.
  split; [done|]. split; [|split; [done|]].
  - pose proof (Z.mod_pos_bound (raw (random_state w) (pos (random_state w)))
                  (9999 - 20 + 1) ltac:(lia)).
    lia.
  - intros ls s s' i Hi Hls. by eapply prefix_lookup_Some, worker_pool_exec.
Qed.

Lemma worker_identity_drawn_by_randint_witness :
  let w := boot_world (sample_config counting 1) in
  ∃ w' worker,
    ScrapingWorker.__init__ ScrapingWorker.init_ok sample_browser None
      "Feed Scraping" w = (w', Returned worker)
    ∧ ScrapingWorker.id worker = (randint_pure 20 9999 (random_state w)).1
    ∧ 20 ≤ ScrapingWorker.id worker ≤ 9999
    ∧ pos (random_state w') = S (pos (random_state w))
    ∧ ∀ ls s s' i,
        JobIndexing.worker_pool (self s) !! i = Some worker →
        exec ls s = Some s' →
        JobIndexing.worker_pool (self s') !! i = Some worker.
Proof.
  intros w. eexists _, _. split; [reflexivity|].
  apply (worker_identity_drawn_by_randint ScrapingWorker.init_ok sample_browser
           None "Feed Scraping" w).
  reflexivity.
Defined.

(** C1 as stated fails: with the same arguments, two states of the generator
    give two different identities (20 and 27); and in one process two workers
    built one after the other can get the same identity (27 twice). *)
Lemma worker_identity_not_deterministic :
  let new w := ScrapingWorker.__init__ ScrapingWorker.init_ok sample_browser None
                 "Job Details Scraping" w in
  let w1 := boot_world (sample_config counting 1) in
  let w2 := boot_world (sample_config stuck 1) in
  (ScrapingWorker.id <$> built (new w1)) ≠ (ScrapingWorker.id <$> built (new w2))
  ∧ (ScrapingWorker.id <$> built (new w2)) = Some 27
  ∧ (ScrapingWorker.id <$> built (new (new w2).1)) = Some 27.
Proof. vm_compute. split_and!; [discriminate|reflexivity..]. Qed.

(** ** The shutdown calls of [run] *)

Ltac use_shutdowns :=
  repeat match goal with
  | H : same_browser _ _ |- _ => destruct H as [_ _ _ ?]; cbn in *
  end;
  rewrite ?shutdowns_app;
  repeat match goal with
  | H : shutdowns (log ?w) = _ |- _ => rewrite H in *; clear H
  end.

Lemma InvShut_step l s s' : InvShut s → step l s = Some s' → InvShut s'.
Proof.
  unfold InvShut. intros Hinv H. step_inv H; cbn in *; use_shutdowns;
    rewrite ?shutdowns_app; cbn; intros Hr;
    try (by destruct (Hr tt));
    rewrite ?app_nil_r; apply Hinv; intros; congruence.
Qed.

Lemma InvShut_reachable c s : reachable c s → InvShut s.
Proof.
  apply reachable_ind; [by intros _|]. intros l s0 s1 _. apply InvShut_step.
Qed.

(** ** Workers and contexts *)

Lemma InvCtx_boot c : InvCtx (boot c).
Proof.
  split; cbn; try done; unfold created; cbn;
    try (by apply NoDup_nil_2);
    try (intros ? H; by apply elem_of_nil in H);
    intros H; by apply elem_of_nil in H.
Qed.

(** The consumers after consumer [i] moved to [c'], the contexts opened
    having grown from [cr] to [cr']. *)
Lemma consumers_insert cr cr' cs i c' :
  (∀ j ct, cs !! j = Some ct → consumer_ok cr j ct) →
  (i < length cs)%nat →
  consumer_ok cr' i c' →
  (∀ j ct, j ≠ i → consumer_ok cr j ct → consumer_ok cr' j ct) →
  ∀ j ct, <[i := c']> cs !! j = Some ct → consumer_ok cr' j ct.
Proof.
  intros Hall Hi Hc' Hmono j ct Hj.
  apply list_lookup_insert_Some in Hj as [(<- & <- & _)|(Hne & Hj)]; [done|].
  apply Hmono; [done|]. by apply Hall.
Qed.

Lemma consumer_ok_keep cr i c c' :
  consumer_ok cr i c →
  state c' ≠ CCreated →
  (∀ w, worker_of (state c') = Some w → worker_of (state c) = Some w) →
  consumer_ok cr i c'.
Proof.
  intros [Hn Hw] Hne Hsame. split; [done|]. intros w Hw'. apply Hw, Hsame, Hw'.
Qed.

Lemma consumer_ok_other cr j ct t c :
  t ≠ Some (TConsumer j) →
  consumer_ok cr j ct → consumer_ok (cr ++ [(t, c)]) j ct.
Proof.
  intros Hne [Hn Hw]. split.
  - intros Hs. rewrite fmap_app, elem_of_app. intros [?|Hin]; [by apply Hn|].
    apply list_elem_of_singleton in Hin. cbn in Hin. congruence.
  - intros w Hw'. destruct (Hw w Hw') as [? ?]. split; [|done].
    apply elem_of_app. by left.
Qed.

Lemma created_task_done t : created [(t, EvTaskDone)] = [].
Proof. done. Qed.

Lemma visits_task_done t : visits [(t, EvTaskDone)] = [].
Proof. done. Qed.

Ltac use_world :=
  repeat match goal with
  | H : same_browser _ _ |- _ => destruct H as [? ? ? _]; cbn in *
  end;
  rewrite ?created_app, ?visits_app, ?created_task_done, ?visits_task_done,
    ?app_nil_r in *;
  repeat match goal with
  | H : created (log ?w) = _ |- _ => is_var w; rewrite H in *; clear H
  | H : visits (log ?w) = _ |- _ => is_var w; rewrite H in *; clear H
  | H : contexts_opened ?w = _ |- _ => is_var w; rewrite H in *; clear H
  | H : current_task ?w = _ |- _ => is_var w; rewrite H in *; clear H
  end.

Section grow.
Context (cr : list (option TaskId * Context)) (t : option TaskId) (op : nat).
Hypothesis Hbound : ∀ tc, tc ∈ cr → (tc.2 < op)%nat.

Lemma grow_bound : ∀ tc, tc ∈ cr ++ [(t, op)] → (tc.2 < S op)%nat.
Proof using Hbound.
  intros tc [Hin|Hin%list_elem_of_singleton]%elem_of_app.
  - apply Hbound in Hin. lia.
  - subst tc. cbn. lia.
Qed.

Lemma grow_nodup_ctx : NoDup cr.*2 → NoDup (cr ++ [(t, op)]).*2.
Proof using Hbound.
  intros Hnd. rewrite fmap_app. cbn. apply NoDup_app. split_and!; [done| |].
  - intros c [tc [-> Hin]]%list_elem_of_fmap Heq%list_elem_of_singleton.
    apply Hbound in Hin. lia.
  - apply NoDup_singleton.
Qed.

Lemma grow_nodup_task : t ∉ cr.*1 → NoDup cr.*1 → NoDup (cr ++ [(t, op)]).*1.
Proof using Type.
  intros Hnew Hnd. rewrite fmap_app. cbn. apply NoDup_app. split_and!; [done| |].
  - intros t' Hin Heq%list_elem_of_singleton. cbn in Heq. by subst t'.
  - apply NoDup_singleton.
Qed.

Lemma grow_elem (t' : option TaskId) :
  t' ≠ t → t' ∈ (cr ++ [(t, op)]).*1 → t' ∈ cr.*1.
Proof using Type.
  intros Hne. rewrite fmap_app.
  intros [?|Hin%list_elem_of_singleton]%elem_of_app; [done|]. cbn in Hin. congruence.
Qed.
End grow.

Lemma consumer_ok_start cr i op w m :
  ScrapingWorker.context w = op → ScrapingWorker.page w = op →
  consumer_ok (cr ++ [(Some (TConsumer i), op)]) i
    {| state := CWaiting w; must_cancel := m |}.
Proof.
  intros Hc Hp. split; [done|]. cbn. intros w' [= <-]. split; [|congruence].
  apply elem_of_app. right. apply list_elem_of_singleton. by rewrite Hc.
Qed.

Lemma consumer_ok_finished cr i e j m :
  consumer_ok cr i {| state := CFinished e j; must_cancel := m |}.
Proof. by split. Qed.

Lemma visit_own cr vs i ct w :
  (∀ tc, tc ∈ vs → tc ∈ cr) →
  consumer_ok cr i ct → worker_of (state ct) = Some w →
  ∀ tc, tc ∈ vs ++ [(Some (TConsumer i), ScrapingWorker.page w)] → tc ∈ cr.
Proof.
  intros Hvs [_ Hw] Hwo tc [?|Heq%list_elem_of_singleton]%elem_of_app;
    [by apply Hvs|].
  subst tc. destruct (Hw w Hwo) as [Hin ->]. done.
Qed.

Ltac ctx_consumers Hcons :=
  match goal with
  | H0 : consumers ?s !! ?i = Some ?c
    |- ∀ j ct, <[?i := ?c']> (consumers ?s) !! j = Some ct → consumer_ok ?cr' j ct =>
      eapply (consumers_insert (created (log (world s))));
      [exact Hcons
      |eapply lookup_lt_Some, H0
      |first [ by apply consumer_ok_start
             | apply consumer_ok_finished
             | eapply consumer_ok_keep;
               [apply (Hcons _ _ H0)|done|cbn; intros; congruence] ]
      |first [ by intros
             | intros; apply consumer_ok_other; [congruence|done] ] ]
  end.

Lemma consumer_ok_cancel cr i ct : consumer_ok cr i ct → consumer_ok cr i (cancel ct).
Proof. unfold cancel. by destruct (finished (state ct)). Qed.

Lemma InvCtx_step c l s s' :
  InvQ c s → InvCtx s → step l s = Some s' → InvCtx s'.
Proof.
  intros [_ _ _ Hq] Hinv H.
  step_inv H; destruct Hinv as [Hcal Hbd Hndc Hndt Hprod Hcons Hvis];
    unfold control_ok in Hq; cbn in *;
    repeat match goal with
    | H : _ ∨ _ |- _ => destruct H as [(?&?&[? ?])|(?&?&?)]; simplify_eq
    | H : ∀ worker, Returned ?a = Returned worker → _ |- _ =>
        destruct (H a eq_refl); clear H
    end;
    split; cbn; use_world; try done;
    try (by ctx_consumers Hcons);
    try (by intros Hr; rewrite Hr in Hq; destruct Hq as [? Hnil];
            rewrite ?Hnil in *; simplify_eq/=);
    try (by apply grow_bound);
    try (by apply grow_nodup_ctx);
    try (by intros tc Hin; apply elem_of_app; left; apply Hvis);
    try (by intros; apply consumer_ok_other; [|apply Hcons]);
    try (by intros Hin; apply Hprod; eapply grow_elem; [|exact Hin]);
    try (by eapply visit_own; [exact Hvis|eapply Hcons; eassumption|]);
    try (apply grow_nodup_task; [|done]).
  - rewrite (Hcal H0). by intros ?%elem_of_nil.
  - rewrite (Hcal H0). intros i ct [-> _]%lookup_replicate. split; [|done].
    by intros _ ?%elem_of_nil.
  - intros Hin. destruct (Hprod Hin). congruence.
  - intros Hin. destruct (Hprod Hin). congruence.
  - by apply (Hcons _ _ H0).
  - by apply (Hcons _ _ H0).
  - intros i ct [ct0 [-> Hl]]%list_lookup_fmap_Some.
    by apply consumer_ok_cancel, Hcons.
Qed.

Lemma InvCtx_reachable c s : reachable c s → InvCtx s.
Proof.
  apply reachable_ind; [apply InvCtx_boot|].
  intros l s0 s1 Hr. apply InvCtx_step with c. by apply InvQ_reachable.
Qed.

(** ** The tasks spawned by [run] *)

Lemma InvT_boot c : InvT c (boot c).
Proof. by split. Qed.

Lemma InvT_step c l s s' : InvT c s → step l s = Some s' → InvT c s'.
Proof.
  intros [Hlvl Hinv] H.
  step_inv H; unfold InvT; cbn in *; rewrite ?length_insert, ?length_fmap;
    repeat case_match; destruct_and?; simplify_eq/=;
    rewrite ?Hlvl, ?Hinv, ?length_replicate; repeat split; eauto; try congruence.
Qed.

Lemma InvT_reachable c s : reachable c s → InvT c s.
Proof.
  apply reachable_ind; [apply InvT_boot|]. intros l s0 s1 _. apply InvT_step.
Qed.

(** ** Once [run] has ended *)

Lemma run_finished_step l s s' r :
  step l s = Some s' → run_state s = RFinished r → run_state s' = RFinished r.
Proof. intros H Hr. step_inv H; cbn in *; congruence. Qed.

Lemma run_finished_exec ls s s' r :
  exec ls s = Some s' → run_state s = RFinished r → run_state s' = RFinished r.
Proof.
  revert s. induction ls as [|l ls IH]; intros s; cbn.
  - by intros [= <-].
  - destruct (step l s) as [s0|] eqn:Hs; [|done]. cbn. intros Hex Hr.
    apply IH with s0; [done|]. by eapply run_finished_step.
Qed.

Lemma lost_item_insert (cs : list ConsumerTask) (i j : nat) c c' ct :
  cs !! i = Some c → lost_item c = false →
  cs !! j = Some ct → lost_item ct = true →
  <[i := c']> cs !! j = Some ct.
Proof.
  intros Hi Hc Hj Hct. rewrite list_lookup_insert_ne; [done|].
  intros ->. congruence.
Qed.

Lemma lost_item_finished ct : lost_item ct = true → finished (state ct) = true.
Proof. unfold lost_item. by destruct (state ct) as [| | | |? []]. Qed.

Lemma has_lost_item_step c l s s' :
  InvQ c s → has_lost_item s → step l s = Some s' → has_lost_item s'.
Proof.
  intros [_ _ _ Hq] (j & ct & Hj & Hct) H. unfold has_lost_item in *.
  step_inv H; cbn in *; try (by eauto);
    try (by exists j, ct; split; [eapply lost_item_insert; eauto|]).
  - unfold control_ok in Hq. rewrite H0 in Hq.
    destruct Hq as [_ Hnil]. by rewrite Hnil in Hj.
  - exists j, ct. split; [|done]. rewrite list_lookup_fmap, Hj. cbn.
    unfold cancel. by rewrite (lost_item_finished ct).
  - exists j, ct. split; [|done]. eapply lost_item_insert; eauto.
    unfold lost_item; cbn.
    match goal with
    | Hf : finished ?st = false |- _ => by destruct st as [| | | |? []]
    end.
Qed.

Lemma has_lost_item_exec c ls s s' :
  reachable c s → has_lost_item s → exec ls s = Some s' → has_lost_item s'.
Proof.
  revert s. induction ls as [|l ls IH]; intros s Hr Hl; cbn.
  - by intros [= <-].
  - destruct (step l s) as [s0|] eqn:Hs; [|done]. cbn. intros Hex.
    apply IH with s0; [by eapply reachable_step| |done].
    eapply has_lost_item_step; [by apply InvQ_reachable| |]; done.
Qed.

(** A lost item keeps the queue from draining. *)
Lemma lost_item_blocks_join c s :
  reachable c s → has_lost_item s →
  (0 < unfinished_tasks (queue s))%nat
  ∧ step LRunJoin s = None
  ∧ run_state s ≠ RFinished (Returned tt).
Proof.
  intros Hr (i & ct & Hi & Hl).
  destruct (InvQ_reachable _ _ Hr) as [_ _ Hunf Hctl].
  assert (0 < unfinished_tasks (queue s))%nat as Hpos.
  { apply held_lookup in Hi. unfold weight, lost_item in *.
    destruct (state ct) as [| | | |e [job|]]; cbn in *; try done. lia. }
  split_and!; [done| |].
  - cbn. destruct (run_state s); try done.
    unfold join_ready. rewrite bool_decide_eq_false_2; [done|lia].
  - intros Hret. unfold control_ok in Hctl. rewrite Hret in Hctl.
    destruct Hctl as [_ Hz]. lia.
Qed.

Lemma acknowledged_only_on_completion c l s s' :
  InvQ c s → step l s = Some s' →
  match iteration_outcome l s with
  | Some (i, Returned _) =>
      unfinished_tasks (queue s) = S (unfinished_tasks (queue s'))
  | Some (i, Raised e) =>
      unfinished_tasks (queue s') = unfinished_tasks (queue s)
      ∧ ∃ ct, consumers s' !! i = Some ct ∧ lost_item ct = true
  | None => (unfinished_tasks (queue s) ≤ unfinished_tasks (queue s'))%nat
  end.
Proof.
  intros [_ _ Hunf _] H. unfold iteration_outcome.
  destruct l; cbn [step] in H; repeat (case_match; simplify_option_eq);
    step_facts; unfold queue in *; cbn in *;
    repeat match goal with
    | H : consumers _ !! _ = Some _ |- _ => pose proof (held_lookup _ _ _ H); revert H
    end; intros; unfold weight in *; cbn in *; try lia.
  all: split; [done|]; eexists;
    (split; [apply list_lookup_insert_eq; by eapply lookup_lt_Some|done]).
Qed.

Lemma shutdowns_nil l ev :
  shutdowns l = [] → ev ∈ l.*2 → is_shutdown ev = false.
Proof.
  unfold shutdowns. intros Hnil Hin.
  destruct (is_shutdown ev) eqn:Hev; [|done].
  assert (ev ∈ filter (λ ev, is_shutdown ev = true) l.*2) as Hf
    by (by apply list_elem_of_filter).
  rewrite Hnil in Hf. by apply elem_of_nil in Hf.
Qed.

Lemma feed_fails_reachable :
  exec feed_fails (boot (sample_config counting 1)) = Some feed_fails_state.
Proof. vm_compute. reflexivity. Qed.

Lemma empty_feed_reachable :
  exec empty_feed (boot (sample_config counting 1)) = Some empty_feed_state.
Proof. vm_compute. reflexivity. Qed.


Lemma two_consumers_reachable :
  exec two_consumers (boot (sample_config counting 2)) = Some two_consumers_state.
Proof. vm_compute. reflexivity. Qed.

Lemma before_fetch_reachable :
  exec (removelast fetch_raises) (boot (sample_config counting 1)) = Some before_fetch_state.
Proof. vm_compute. reflexivity. Qed.

(** ** Properties of [run] *)

(** C2 (amended): when the producer task ended with an error, [run] raises
    that error as soon as [await producer_task] resumes.  It then neither
    awaits the drain of the queue nor cancels a consumer: from then on no
    [join] and no [cancel] call is ever made, [run] cannot resume, and no
    consumer carries a cancellation request. *)
Theorem run_raises_producer_error_without_shutdown c s e :
  reachable c s →
  (run_state s = RAwaitProducer → producer s = Some (PFinished (Raised e)) →
   ∃ s', step LRunProducerDone s = Some s' ∧ run_state s' = RFinished (Raised e))
  ∧ (run_state s = RFinished (Raised e) →
     producer s = Some (PFinished (Raised e))
     ∧ ∀ ls s', exec ls s = Some s' →
         run_state s' = RFinished (Raised e)
         ∧ step LRunJoin s' = None
         ∧ (EvJoin ∉ events (world s'))
         ∧ (∀ t, EvTaskCancel t ∉ events (world s'))
         ∧ Forall (λ ct, must_cancel ct = false) (consumers s')).
Proof.
  intros Hr. split.
  - intros Hrun Hp. eexists. cbn. rewrite Hrun, Hp. done.
  - intros Hrun. split.
    + destruct (InvQ_reachable _ _ Hr) as [_ _ _ Hctl].
      unfold control_ok in Hctl. rewrite Hrun in Hctl. by destruct Hctl.
    + intros ls s' Hex.
      pose proof (run_finished_exec _ _ _ _ Hex Hrun) as Hrun'.
      pose proof (reachable_exec _ _ _ _ Hr Hex) as Hr'.
      destruct (InvQ_reachable _ _ Hr') as [_ _ _ Hctl].
      unfold control_ok in Hctl. rewrite Hrun' in Hctl. destruct Hctl as [_ Hnc].
      assert (shutdowns (log (world s')) = []) as Hsh.
      { apply (InvShut_reachable _ _ Hr'). intros u. by rewrite Hrun'. }
      split_and!; try done.
      * cbn. by rewrite Hrun'.
      * intros Hin. by apply (shutdowns_nil _ _ Hsh) in Hin.
      * intros t Hin. by apply (shutdowns_nil _ _ Hsh) in Hin.
Qed.

Lemma run_raises_producer_error_without_shutdown_witness :
  reachable (sample_config counting 1) feed_fails_state
  ∧ run_state feed_fails_state = RFinished (Raised (Error "feed page failed"))
  ∧ producer feed_fails_state = Some (PFinished (Raised (Error "feed page failed")))
  ∧ (EvJoin ∉ events (world feed_fails_state)).
Proof.
  assert (reachable (sample_config counting 1) feed_fails_state) as Hr
    by (exists feed_fails; apply feed_fails_reachable).
  split; [exact Hr|]. split; [reflexivity|].
  destruct (run_raises_producer_error_without_shutdown
              (sample_config counting 1) feed_fails_state
              (Error "feed page failed") Hr) as [_ H].
  destruct (H eq_refl) as [Hp Hall]. split; [exact Hp|].
  destruct (Hall [] _ eq_refl) as (_ & _ & Hj & _). exact Hj.
Defined.

(** C2 as stated fails: the feed fails on its first page; [run] ends with
    that error, no [join] or [cancel] call was made, the consumer is still
    waiting without a cancellation request, and [run] cannot go on. *)
Lemma run_skips_drain_and_cancel_when_producer_raises :
  exec feed_fails (boot (sample_config counting 1)) = Some feed_fails_state
  ∧ run_state feed_fails_state = RFinished (Raised (Error "feed page failed"))
  ∧ task_states feed_fails_state = [(false, false)]
  ∧ shutdowns (log (world feed_fails_state)) = []
  ∧ step LRunJoin feed_fails_state = None.
Proof. split_and!; vm_compute; reflexivity. Qed.

(** C10: an item taken from the queue is acknowledged ([task_done]) only
    at the end of an iteration in which the detail fetch returned nothing or
    the indexing returned; when the fetch or the indexing raises, the item is
    not acknowledged, the count of unfinished items stays positive for ever,
    and the [join] of [run] never returns. *)
Theorem unacknowledged_item_blocks_join c l s s' :
  reachable c s → step l s = Some s' →
  ((unfinished_tasks (queue s') < unfinished_tasks (queue s))%nat →
   ∃ i, iteration_outcome l s = Some (i, Returned tt))
  ∧ (∀ i e, iteration_outcome l s = Some (i, Raised e) →
       unfinished_tasks (queue s') = unfinished_tasks (queue s)
       ∧ ∀ ls s'', exec ls s' = Some s'' →
           (0 < unfinished_tasks (queue s''))%nat
           ∧ step LRunJoin s'' = None
           ∧ run_state s'' ≠ RFinished (Returned tt)).
Proof.
  intros Hr Hstep.
  pose proof (acknowledged_only_on_completion c l s s' (InvQ_reachable _ _ Hr) Hstep)
    as Hack.
  split.
  - intros Hlt. destruct (iteration_outcome l s) as [[i [[]|e]]|].
    + by exists i.
    + destruct Hack as [Heq _]. lia.
    + lia.
  - intros i e Hout. rewrite Hout in Hack. destruct Hack as [Heq Hlost].
    split; [done|]. intros ls s'' Hex.
    assert (reachable c s') as Hr' by (by eapply reachable_step).
    apply (lost_item_blocks_join c); [by eapply reachable_exec|].
    eapply has_lost_item_exec; [exact Hr'| |exact Hex].
    destruct Hlost as (ct & ? & ?). by exists i, ct.
Qed.

Lemma unacknowledged_item_blocks_join_witness :
  reachable (sample_config counting 1) before_fetch_state
  ∧ step (LConsumerFetch 0 visit_raises) before_fetch_state = Some fetch_raises_state
  ∧ iteration_outcome (LConsumerFetch 0 visit_raises) before_fetch_state
      = Some (0%nat, Raised (Error "context closed"))
  ∧ unfinished_tasks (queue fetch_raises_state) = 1%nat
  ∧ step LRunJoin fetch_raises_state = None.
Proof.
  assert (reachable (sample_config counting 1) before_fetch_state) as Hr
    by (exists (removelast fetch_raises); apply before_fetch_reachable).
  assert (step (LConsumerFetch 0 visit_raises) before_fetch_state
          = Some fetch_raises_state) as Hs by (vm_compute; reflexivity).
  assert (iteration_outcome (LConsumerFetch 0 visit_raises) before_fetch_state
          = Some (0%nat, Raised (Error "context closed"))) as Ho
    by (vm_compute; reflexivity).
  split; [exact Hr|]. split; [exact Hs|]. split; [exact Ho|].
  destruct (unacknowledged_item_blocks_join _ _ _ _ Hr Hs) as [_ H].
  destruct (H _ _ Ho) as [Heq Hall].
  split; [exact Heq|].
  destruct (Hall [] _ eq_refl) as (_ & Hj & _). exact Hj.
Defined.

(** C8: capacity -1, the default of [data_buffer_size], means unbounded:
    [put] goes through whatever the number of buffered and of outstanding
    items, and in a run with this capacity the producer is never suspended
    in [put]. *)
Theorem unbounded_queue_never_suspends_put :
  JobIndexing.default_data_buffer_size = -1
  ∧ (∀ its n job,
       put_nowait {| maxsize := -1; items := its; unfinished_tasks := n |} job =
         Some {| maxsize := -1; items := its ++ [job]; unfinished_tasks := S n |})
  ∧ (∀ c s, data_buffer_size c = -1 → reachable c s →
       maxsize (queue s) = -1
       ∧ full (queue s) = false
       ∧ (∀ job, is_Some (put job s))
       ∧ ∀ worker job, producer s ≠ Some (PPutting worker job)).
Proof.
  split; [done|]. split; [done|]. intros c s Hsize Hr.
  destruct (InvQ_reachable _ _ Hr) as [Hmax Hput _ _].
  rewrite Hsize in Hmax.
  assert (full (queue s) = false) as Hfull by (unfold full; by rewrite Hmax).
  split_and!; [done|done| |].
  - intros job. unfold put, put_nowait. rewrite Hfull. by eexists.
  - intros worker job Hp. apply Hput in Hp. lia.
Qed.

Lemma unbounded_queue_never_suspends_put_witness :
  reachable (sample_config counting 1) before_fetch_state
  ∧ full (queue before_fetch_state) = false
  ∧ ∀ worker job, producer before_fetch_state ≠ Some (PPutting worker job).
Proof.
  assert (reachable (sample_config counting 1) before_fetch_state) as Hr
    by (exists (removelast fetch_raises); apply before_fetch_reachable).
  split; [exact Hr|].
  destruct unbounded_queue_never_suspends_put as (_ & _ & H).
  destruct (H (sample_config counting 1) before_fetch_state eq_refl Hr)
    as (_ & Hf & _ & Hp).
  split; [exact Hf|exact Hp].
Defined.

Example two_consumers_visits :
  created (log (world two_consumers_state)) =
    [(Some TProducer, 0%nat); (Some (TConsumer 0), 1%nat); (Some (TConsumer 1), 2%nat)]
  ∧ visits (log (world two_consumers_state)) =
    [(Some (TConsumer 1), 2%nat); (Some (TConsumer 0), 1%nat)].
Proof. split; vm_compute; reflexivity. Qed.

(** * Further properties of the code *)

(** ** The steps of the pipeline, opened *)

Lemma init_eq env browser px p w :
  ScrapingWorker.__init__ env browser px p w =
    let n := randint_pure 20 9999 (random_state w) in
    let w0 := set_random_state n.2 w in
    let c := contexts_opened w in
    match ScrapingWorker.new_context_fault env with
    | Some e => (w0, Raised e)
    | None =>
        let w1 := set_contexts_opened (S c) (emitted [EvNewContext c] w0) in
        match ScrapingWorker.new_page_fault env with
        | Some e => (emitted [EvNewPage c] w1, Raised e)
        | None =>
            match ScrapingWorker.stealth_fault env with
            | Some e => (emitted [EvNewPage c; EvStealth c] w1, Raised e)
            | None =>
                (emitted [EvNewPage c; EvStealth c] w1,
                 Returned {| ScrapingWorker.proxy := px; ScrapingWorker.browser := browser;
                             ScrapingWorker.page := c; ScrapingWorker.purpose := p;
                             ScrapingWorker.id := n.1; ScrapingWorker.context := c |})
            end
        end
    end.
Proof.
  destruct env as [[e1|] [e2|] [e3|]], w as [st ct lg rs co bs]; cbn;
    unfold emitted, set_log, set_contexts_opened, set_random_state; cbn;
    rewrite <- ?(assoc_L (++)); reflexivity.
Qed.

Lemma collector_eq env self job w :
  ScrapingWorker.job_details_collector env self job w =
    let ref := in_platform_id job in
    let v := EvVisit (ScrapingWorker.page self) ref in
    match ScrapingWorker.visit_job_page env with
    | Raised e => (emitted [v] w, Raised e)
    | Returned content =>
        if ScrapingWorker.truthy content then
          match ScrapingWorker.extract_details env with
          | Raised e => (emitted [v; EvExtract ref] w, Raised e)
          | Returned (d, m) =>
              (emitted [v; EvExtract ref] w, Returned (Some (update_data job d m)))
          end
        else (emitted [v] w, Returned None)
    end.
Proof.
  destruct env as [[content|e] [[d m]|e']], w as [st ct lg rs co bs]; cbn;
    try destruct (ScrapingWorker.truthy content); cbn;
    unfold emitted, set_log; cbn; rewrite <- ?(assoc_L (++)); reflexivity.
Qed.

Lemma make_worker_cases env p s :
  make_worker env p s =
    match JobIndexing.browser (self s) with
    | None =>
        (set_world (set_random_state (randint_pure 20 9999 (random_state (world s))).2
                      (world s)) s,
         Raised (Error "AttributeError: 'NoneType' object has no attribute 'new_context'"))
    | Some browser =>
        let w := world s in
        let n := randint_pure 20 9999 (random_state w) in
        let w0 := set_random_state n.2 w in
        let c := contexts_opened w in
        match ScrapingWorker.new_context_fault env with
        | Some e => (set_world w0 s, Raised e)
        | None =>
            let w1 := set_contexts_opened (S c) (emitted [EvNewContext c] w0) in
            match ScrapingWorker.new_page_fault env with
            | Some e => (set_world (emitted [EvNewPage c] w1) s, Raised e)
            | None =>
                match ScrapingWorker.stealth_fault env with
                | Some e => (set_world (emitted [EvNewPage c; EvStealth c] w1) s, Raised e)
                | None =>
                    let worker :=
                      {| ScrapingWorker.proxy := None; ScrapingWorker.browser := browser;
                         ScrapingWorker.page := c; ScrapingWorker.purpose := p;
                         ScrapingWorker.id := n.1; ScrapingWorker.context := c |} in
                    (set_self (JobIndexing.set_worker_pool
                                 (JobIndexing.worker_pool (self s) ++ [worker]) (self s))
                       (set_world (emitted [EvNewPage c; EvStealth c] w1) s),
                     Returned worker)
                end
            end
        end
    end.
Proof.
  rewrite make_worker_eq. destruct (JobIndexing.browser (self s)); [|done].
  cbv zeta. rewrite init_eq. cbv zeta.
  by destruct (ScrapingWorker.new_context_fault env),
    (ScrapingWorker.new_page_fault env), (ScrapingWorker.stealth_fault env).
Qed.

Lemma put_cases job s :
  put job s =
    if full (queue s) then None
    else Some (set_world (emitted [EvPut (in_platform_id job)] (world s))
                 (set_queue {| maxsize := maxsize (queue s);
                               items := items (queue s) ++ [job];
                               unfinished_tasks := S (unfinished_tasks (queue s)) |} s)).
Proof.
  unfold put, put_nowait. destruct (full (queue s)); [done|].
  cbn [mbind option_bind]. by rewrite perform_eq.
Qed.

Lemma run_cancel_consumers_eq s :
  run_cancel_consumers s =
    set_run_state (RFinished (Returned tt))
      (set_consumers (cancel <$> consumers s)
         (set_world
            (emitted (EvJoin :: ((λ i, EvTaskCancel (TConsumer i)) <$>
                                   seq 0 (length (consumers s)))) (world s)) s)).
Proof.
  unfold run_cancel_consumers. rewrite perform_eq.
  cbn [fst snd consumers set_world].
  unfold bind. rewrite emit_eq. cbv beta iota. rewrite for_each_emit, emitted_app.
  done.
Qed.

Lemma acknowledge_cases i worker job s :
  acknowledge i worker job s =
    match unfinished_tasks (queue s) with
    | O => set_consumer i (CFinished (ValueError "task_done() called too many times") (Some job)) s
    | S n =>
        set_consumer i (CWaiting worker)
          (set_world (emitted [EvTaskDone] (world s))
             (set_queue {| maxsize := maxsize (queue s); items := items (queue s);
                           unfinished_tasks := n |} s))
    end.
Proof.
  rewrite acknowledge_eq. unfold task_done. by destruct (unfinished_tasks (queue s)).
Qed.

(** Opens a step: every helper replaced by what it does. *)
Ltac step_open_at H :=
  cbn [step] in H; repeat (case_match; simplify_option_eq);
  repeat match goal with
  | H : make_worker _ _ _ = _ |- _ =>
      rewrite make_worker_cases in H; cbv zeta in H
  | H : perform (ScrapingWorker.job_details_collector _ _ _) _ = _ |- _ =>
      rewrite perform_eq, collector_eq in H; cbv zeta in H
  | H : perform (index_job _ _ _) _ = _ |- _ =>
      rewrite perform_eq, index_job_cases in H; cbv zeta in H
  | H : put _ _ = _ |- _ => rewrite put_cases in H
  | H : get_nowait _ = Some _ |- _ =>
      unfold get_nowait in H
  | H : join_ready _ = true |- _ => apply bool_decide_eq_true in H
  end;
  rewrite ?acknowledge_cases, ?run_cancel_consumers_eq in *;
  repeat (case_match; simplify_eq);
  try match goal with
  | |- context [run_producer_done ?r0 _] => destruct r0; cbn [run_producer_done]
  end;
  cbn [fst snd] in *; simplify_eq;
  unfold set_consumer, set_queue, queue, resume in *; cbn in *.

Ltac step_open H :=
  match type of H with
  | step ?l _ = Some _ => destruct l; step_open_at H
  end.

(** ** Conservation of the jobs *)

Local Arguments refs_of : simpl never.

Local Arguments fetching_refs : simpl never.

Lemma held_zero cs i ct :
  held cs = 0%nat → cs !! i = Some ct → in_flight (state ct) = None.
Proof.
  intros Hh Hi. apply held_lookup in Hi. unfold weight in Hi.
  destruct (in_flight (state ct)); [lia|done].
Qed.

Lemma InvCancel_step c l s s' :
  InvQ c s → InvCancel s → step l s = Some s' → InvCancel s'.
Proof.
  intros [_ _ Hunf Hctl] Hinv H. unfold InvCancel in *.
  step_open H; intros j ct Hj Hm;
    try (by eapply Hinv);
    try (apply list_lookup_insert_Some in Hj as [(_ & <- & _)|(_ & Hj)];
         [done|by eapply Hinv]).
  - by apply lookup_replicate in Hj as [-> _].
  - apply list_lookup_fmap_Some in Hj as (ct0 & -> & Hj).
    assert (in_flight (state ct0) = None) as Hn
      by (eapply held_zero; [|exact Hj]; unfold queue in *; lia).
    unfold cancel. by destruct (finished (state ct0)).
Qed.

Lemma InvCancel_reachable c s : reachable c s → InvCancel s.
Proof.
  apply reachable_ind; [by intros i ct ?|].
  intros l s0 s1 Hr. apply InvCancel_step with c. by apply InvQ_reachable.
Qed.

Lemma refs_of_app sel l1 l2 : refs_of sel (l1 ++ l2) = refs_of sel l1 ++ refs_of sel l2.
Proof. apply omap_app. Qed.

Lemma refs_of_cons sel t ev l :
  refs_of sel ((t, ev) :: l) =
    match sel ev with Some r => r :: refs_of sel l | None => refs_of sel l end.
Proof. unfold refs_of. cbn. by destruct (sel ev). Qed.

Lemma refs_of_nil sel : refs_of sel [] = [].
Proof. done. Qed.

Lemma refs_of_none sel (t : option TaskId) evs :
  Forall (λ ev, sel ev = None) evs → refs_of sel ((λ ev, (t, ev)) <$> evs) = [].
Proof.
  induction 1 as [|ev evs Hev _ IH]; [done|].
  rewrite fmap_cons, refs_of_cons, Hev. done.
Qed.

Lemma refs_of_cancels sel (t : option TaskId) (l : list nat) :
  (∀ u, sel (EvTaskCancel u) = None) →
  refs_of sel ((λ ev, (t, ev)) <$> ((λ i, EvTaskCancel (TConsumer i)) <$> l)) = [].
Proof. intros Hs. apply refs_of_none, Forall_fmap, Forall_true. intros i. apply Hs. Qed.

Ltac refs_norm :=
  rewrite ?refs_of_app, ?fmap_cons, ?refs_of_cons, ?refs_of_cancels, ?refs_of_nil,
    ?app_nil_r in * by done;
  cbn [sel_put sel_visit sel_extract sel_get sel_add] in *;
  rewrite ?app_nil_r in *.

Lemma fetching_insert cs i c c' :
  cs !! i = Some c →
  fetching_refs (<[i := c']> cs) ++ fetching c ≡ₚ fetching c' ++ fetching_refs cs.
Proof.
  unfold fetching_refs. revert i.
  induction cs as [|x cs IH]; intros [|i] H; simplify_eq/=.
  - solve_Permutation.
  - rewrite <- (assoc_L (++)), (IH _ H). solve_Permutation.
Qed.

Lemma fetching_cancel cs : fetching_refs (cancel <$> cs) = fetching_refs cs.
Proof.
  unfold fetching_refs. induction cs as [|x cs IH]; cbn; [done|]. rewrite IH. f_equal.
  unfold cancel, fetching. by destruct (finished (state x)).
Qed.

Lemma fetching_replicate n c : fetching c = [] → fetching_refs (replicate n c) = [].
Proof. intros Hc. unfold fetching_refs. induction n; cbn; [done|]. by rewrite Hc. Qed.

Lemma fetching_held ct : in_flight (state ct) = None → fetching ct = [].
Proof. unfold fetching. by destruct (state ct). Qed.

Ltac use_fetching :=
  match goal with
  | H : consumers ?s !! ?i = Some ?c |- context [<[?i := ?c']> (consumers ?s)] =>
      let Hf := fresh "Hf" in
      pose proof (fetching_insert _ _ _ c' H) as Hf;
      unfold fetching at 1 2 in Hf; cbn in Hf; rewrite ?app_nil_r in Hf
  end.

Lemma InvJobs_step c l s s' :
  InvQ c s → InvCancel s → InvJobs s → step l s = Some s' → InvJobs s'.
Proof.
  intros [_ _ _ Hctl] Hc Hinv H. unfold InvJobs in *.
  step_open H; unfold queue_refs, queue, control_ok in *; cbn; refs_norm;
    rewrite ?fetching_cancel, ?fetching_replicate by done;
    try done; try use_fetching;
    try match goal with
    | H0 : consumers _ !! _ = Some {| state := ?st; must_cancel := true |} |- _ =>
        pose proof (Hc _ _ H0 eq_refl); destruct st; simplify_eq/=;
        rewrite ?app_nil_r in *
    end;
    repeat match goal with
    | Hi : items _ = _ |- _ => rewrite Hi in *; clear Hi
    | Hr : run_state _ = _ |- _ => rewrite Hr in *; clear Hr
    end;
    destruct_and?;
    repeat match goal with
    | Hn : consumers _ = [] |- _ => rewrite Hn in *; clear Hn
    end;
    rewrite Hinv; try first [rewrite Hf|rewrite <- Hf];
    rewrite ?fmap_app, ?fmap_cons; cbn; solve_Permutation.
Qed.

Lemma InvJobs_reachable c s : reachable c s → InvJobs s.
Proof.
  apply reachable_ind; [by unfold InvJobs, refs_of|].
  intros l s0 s1 Hr. apply InvJobs_step with c.
  - by apply InvQ_reachable.
  - by eapply InvCancel_reachable.
Qed.

Lemma InvFifo_step l s s' : InvFifo s → step l s = Some s' → InvFifo s'.
Proof.
  intros Hinv H. unfold InvFifo in *.
  step_open H; unfold queue_refs, queue in *; cbn; refs_norm; try done;
    repeat match goal with
    | Hi : items _ = _ |- _ => rewrite Hi in *; clear Hi
    end.
  - rewrite fmap_app. by apply suffix_app.
  - rewrite fmap_app. by apply suffix_app.
  - by eapply suffix_cons_l.
Qed.

Lemma InvFifo_reachable c s : reachable c s → InvFifo s.
Proof.
  apply reachable_ind; [by apply suffix_nil|]. intros l s0 s1 _. apply InvFifo_step.
Qed.

Lemma fetching_refs_held cs : held cs = 0%nat → fetching_refs cs = [].
Proof.
  unfold held, fetching_refs. induction cs as [|ct cs IH]; cbn; [done|].
  intros Hh. rewrite IH by lia. rewrite fetching_held; [done|].
  unfold weight in Hh. destruct (in_flight (state ct)); [lia|done].
Qed.

(** X1: At every point of a run, the references put on the queue are, counted
    with multiplicity, those whose detail page was visited, those a consumer
    has taken and not yet visited, and those still buffered, and the buffer is
    the end of what was put, in the same order. So no reference is visited
    twice unless the feed yielded it twice, and when run() has returned
    normally every job put was visited exactly once. *)
Theorem jobs_neither_lost_nor_duplicated c s :
  reachable c s →
  let put := refs_of sel_put (log (world s)) in
  let visited := refs_of sel_visit (log (world s)) in
  put ≡ₚ visited ++ fetching_refs (consumers s) ++ queue_refs (queue s)
  ∧ queue_refs (queue s) `suffix_of` put
  ∧ (NoDup put → NoDup visited)
  ∧ (run_state s = RFinished (Returned tt) → visited ≡ₚ put).
Proof.
  intros Hr put visited.
  pose proof (InvJobs_reachable _ _ Hr) as Hj. unfold InvJobs in Hj. fold put visited in Hj.
  split_and!; [done|by apply (InvFifo_reachable c)| |].
  - rewrite Hj. by intros [? _]%NoDup_app.
  - intros Hrun. destruct (InvQ_reachable _ _ Hr) as [_ _ Hunf Hctl].
    unfold control_ok in Hctl. rewrite Hrun in Hctl. destruct Hctl as [_ Hz].
    rewrite Hz in Hunf.
    rewrite Hj, fetching_refs_held by lia. unfold queue_refs.
    destruct (items (queue s)); [|cbn in Hunf; lia]. by rewrite !app_nil_r.
Qed.

(** X1 on a concrete run. *)
Lemma jobs_neither_lost_nor_duplicated_witness :
  refs_of sel_put (log (world two_consumers_state)) = ["r1"; "r2"]
  ∧ refs_of sel_visit (log (world two_consumers_state)) = ["r2"; "r1"]
  ∧ NoDup (refs_of sel_visit (log (world two_consumers_state))).
Proof.
  split; [reflexivity|]. split; [reflexivity|].
  assert (reachable (sample_config counting 2) two_consumers_state) as Hr
    by (exists two_consumers; apply two_consumers_reachable).
  destruct (jobs_neither_lost_nor_duplicated _ _ Hr) as (_ & _ & Hnd & _).
  apply Hnd. vm_compute. repeat constructor; not_in_log.
Defined.

(** ** The pool and the resources *)

Lemma InvRes_step c l s s' : InvRes c s → step l s = Some s' → InvRes c s'.
Proof. intros [] H. step_open H; by split. Qed.

Lemma InvRes_reachable c s : reachable c s → InvRes c s.
Proof. apply reachable_ind; [by split|]. intros l s0 s1 _. apply InvRes_step. Qed.

Lemma created_cons t ev l :
  created ((t, ev) :: l) =
    match ev with EvNewContext c => (t, c) :: created l | _ => created l end.
Proof. unfold created. cbn. by destruct ev. Qed.

Lemma created_nil : created [] = [].
Proof. done. Qed.

Lemma created_cancels (t : option TaskId) (l : list nat) :
  created ((λ ev, (t, ev)) <$> ((λ i, EvTaskCancel (TConsumer i)) <$> l)) = [].
Proof. apply created_shutdown, Forall_fmap, Forall_true. done. Qed.

Lemma tagged_events (t : option TaskId) (evs : list Event) :
  ((λ ev, (t, ev)) <$> evs).*2 = evs.
Proof. rewrite <- list_fmap_compose. apply list_fmap_id. Qed.

Lemma InvPool_step l s s' : InvPool s → step l s = Some s' → InvPool s'.
Proof.
  intros [Hb Hn Hc Hx] H. unfold pool_contexts in *.
  step_open H; split; unfold pool_contexts, events in *; cbn;
    rewrite ?fmap_app, ?created_app, ?created_cons, ?created_cancels, ?created_nil,
      ?tagged_events, ?app_nil_r; cbn;
    rewrite ?fmap_app, ?tagged_events; cbn;
    try done;
    lazymatch goal with
    | |- Forall _ _ =>
        repeat (apply Forall_app; split); try done;
        repeat (apply Forall_cons; split; [done|]);
        first [apply Forall_nil_2|by apply Forall_fmap, Forall_true]
    | |- NoDup _ =>
        apply NoDup_app; split; [done|]; split; [|apply NoDup_singleton];
        intros ctx Hin ->%list_elem_of_singleton; apply Hb in Hin; lia
    | |- ∀ ctx, _ ∈ _ ++ _ → (_ < _)%nat =>
        intros ctx [Hin| ->%list_elem_of_singleton]%elem_of_app;
        [apply Hb in Hin|]; lia
    | |- ∀ ctx, _ → (_ < _)%nat => intros ctx Hin; apply Hb in Hin; lia
    | |- ∀ ctx, _ ∈ _ ++ _ → _ ∈ _ ++ _ =>
        intros ctx [Hin|Hin]%elem_of_app; apply elem_of_app; [left; by apply Hc|by right]
    | |- ∀ ctx, _ → _ ∈ _ ++ _ =>
        intros ctx Hin; apply elem_of_app; left; by apply Hc
    end.
Qed.

Lemma InvPool_reachable c s : reachable c s → InvPool s.
Proof.
  apply reachable_ind; [|intros l s0 s1 _; apply InvPool_step].
  split; unfold pool_contexts; cbn.
  - by intros ctx ?%elem_of_nil.
  - apply NoDup_nil_2.
  - by intros ctx ?%elem_of_nil.
  - by repeat constructor.
Qed.

(** ** The workers of the tasks *)

Lemma InvOwn_step l s s' : InvOwn s → step l s = Some s' → InvOwn s'.
Proof.
  intros [Hc Hp] H.
  step_open H; split; cbn;
    rewrite ?created_app, ?created_cons, ?created_cancels, ?created_nil, ?app_nil_r;
    try done.
  all: repeat match goal with
       | H0 : producer _ = _ |- _ => rewrite H0 in *
       end; cbn in Hp.
  all: lazymatch goal with
       | |- context [worker_of] =>
           intros j ct w0 Hj Hw;
           try (apply list_lookup_insert_Some in Hj as [(_ & <- & _)|(_ & Hj)];
                cbn in Hw; simplify_eq);
           try (apply lookup_replicate in Hj as [-> _]; done);
           try (apply list_lookup_fmap_Some in Hj as (ct0 & -> & Hj);
                assert (worker_of (state ct0) = Some w0)
                  by (unfold cancel in Hw; by destruct (finished (state ct0))));
           rewrite ?elem_of_app, ?list_elem_of_singleton; eauto
       | |- _ =>
           intros w0 Hw; cbn in Hw; simplify_eq;
           rewrite ?elem_of_app, ?list_elem_of_singleton;
           first [destruct (Hp _ eq_refl) as [? ?]|destruct (Hp _ Hw) as [? ?]|idtac]; eauto
       end.
Qed.

Lemma InvOwn_reachable c s : reachable c s → InvOwn s.
Proof.
  apply reachable_ind; [|intros l s0 s1 _; apply InvOwn_step].
  split; cbn; [by intros i ct w ?|by intros w ?].
Qed.

Lemma filter_none {A} (P : A → Prop) `{∀ x, Decision (P x)} (l : list A) :
  (∀ x, x ∈ l → ¬ P x) → filter P l = [].
Proof.
  induction l as [|a l IH]; intros Hn; [done|].
  rewrite filter_cons_False by (apply Hn; left).
  apply IH. intros x Hx. apply Hn. by right.
Qed.

Lemma filter_the_one {A B} `{EqDecision B} (f : A → B) (l : list A) x :
  NoDup (f <$> l) → x ∈ l → filter (λ y, f y = f x) l = [x].
Proof.
  induction l as [|a l IH]; intros Hnd Hin; [by apply elem_of_nil in Hin|].
  rewrite fmap_cons in Hnd. apply NoDup_cons in Hnd as [Ha Hnd].
  apply elem_of_cons in Hin as [->|Hin].
  - rewrite filter_cons_True by done. f_equal. apply filter_none.
    intros y Hy Heq. apply Ha. rewrite <- Heq. by apply list_elem_of_fmap_2.
  - rewrite filter_cons_False; [by apply IH|].
    intros Heq. apply Ha. rewrite Heq. by apply list_elem_of_fmap_2.
Qed.

Lemma filter_at_most_one {A B} `{EqDecision B} (f : A → B) (l : list A) b :
  NoDup (f <$> l) → (length (filter (λ y, f y = b) l) ≤ 1)%nat.
Proof.
  intros Hnd. destruct (filter (λ y, f y = b) l) as [|x l'] eqn:Hf; [cbn; lia|].
  assert (x ∈ filter (λ y, f y = b) l) as Hx by (rewrite Hf; left).
  apply list_elem_of_filter in Hx as [<- Hx].
  rewrite (filter_the_one f l x Hnd Hx) in Hf. injection Hf as <-. cbn; lia.
Qed.

(** The context a task opened decides which worker of the pool it built. *)
Lemma built_by_context t ctx s :
  NoDup (created (log (world s))).*1 →
  (Some t, ctx) ∈ created (log (world s)) →
  built_by t s = filter (λ w, ScrapingWorker.context w = ctx)
                   (JobIndexing.worker_pool (self s)).
Proof.
  intros Hnd Hin. unfold built_by. apply list_filter_iff. intros w. split.
  - intros Hw.
    apply list_elem_of_lookup in Hin as [a Ha], Hw as [b Hb].
    assert (a = b) as ->.
    { eapply (NoDup_lookup _ _ _ _ Hnd); rewrite list_lookup_fmap.
      - by rewrite Ha.
      - by rewrite Hb. }
    rewrite Ha in Hb. congruence.
  - by intros ->.
Qed.

Lemma built_by_at_most_one t s :
  InvCtx s → InvPool s → (length (built_by t s) ≤ 1)%nat.
Proof.
  intros Hctx Hpool.
  destruct (decide (Some t ∈ (created (log (world s))).*1)) as [Hin|Hn].
  - apply list_elem_of_fmap in Hin as ([t' ctx] & Heq & Hin). cbn in Heq. subst t'.
    rewrite (built_by_context t ctx); [|apply Hctx|done].
    apply (filter_at_most_one ScrapingWorker.context). apply (pool_nodup _ Hpool).
  - unfold built_by. rewrite filter_none; [cbn; lia|].
    intros w _ Hw. apply Hn. by apply (list_elem_of_fmap_2 fst) in Hw.
Qed.

Lemma built_by_holder t w s :
  InvCtx s → InvPool s →
  w ∈ JobIndexing.worker_pool (self s) →
  (Some t, ScrapingWorker.context w) ∈ created (log (world s)) →
  built_by t s = [w].
Proof.
  intros Hctx Hpool Hw Hin.
  rewrite (built_by_context t (ScrapingWorker.context w)); [|apply Hctx|done].
  apply (filter_the_one ScrapingWorker.context); [apply (pool_nodup _ Hpool)|done].
Qed.

Lemma built_by_nobody t s :
  Some t ∉ (created (log (world s))).*1 → built_by t s = [].
Proof.
  intros Hn. apply filter_none. intros w _ Hw. apply Hn.
  by apply (list_elem_of_fmap_2 fst) in Hw.
Qed.

(** The log only grows. *)
Lemma log_step l s s' : step l s = Some s' → log (world s) `prefix_of` log (world s').
Proof.
  intros H. step_open H; rewrite <- ?(assoc_L (++)); try done;
    try apply prefix_app_r; done.
Qed.

Lemma log_exec ls s s' : exec ls s = Some s' → log (world s) `prefix_of` log (world s').
Proof.
  revert s. induction ls as [|l ls IH]; intros s; cbn.
  - by intros [= <-].
  - destruct (step l s) as [s1|] eqn:Hs; [|done]. cbn. intros H.
    etrans; [by eapply log_step|by apply IH].
Qed.

Lemma created_prefix l1 l2 : l1 `prefix_of` l2 → created l1 `prefix_of` created l2.
Proof. intros [k ->]. rewrite created_app. by apply prefix_app_r. Qed.

(** A worker that a task built stays the one worker it built. *)
Lemma built_by_exec c t w ls s s' :
  reachable c s → exec ls s = Some s' →
  built_by t s = [w] → built_by t s' = [w].
Proof.
  intros Hr Hex Hb.
  assert (reachable c s') as Hr' by (by eapply reachable_exec).
  assert (w ∈ built_by t s) as Hw by (rewrite Hb; left).
  apply list_elem_of_filter in Hw as [Hin Hw].
  apply built_by_holder; [by eapply InvCtx_reachable|by eapply InvPool_reachable| |].
  - eapply elem_of_prefix; [exact Hw|]. by eapply worker_pool_exec.
  - eapply elem_of_prefix; [exact Hin|].
    apply created_prefix. by eapply log_exec.
Qed.

(** C7 (amended): [run] creates one producer task and [conccurency_lvl]
    consumer tasks.  A consumer task constructs its worker once, when it
    starts.  When the construction returns, the worker is appended to the
    pool and is the one worker of the pool that this task built, for the
    rest of the run; the consumer holds it in all its iterations; it differs
    (by its context and its page) from the worker of every other consumer and
    from the worker of the producer; and a detail page is visited by a task
    only in the context this task opened.  When the construction raises,
    the consumer task ends with this exception and has no worker: the pool
    is as it was.  No task ever builds a second worker. *)
Theorem run_spawns_tasks_with_their_own_workers c s :
  reachable c s → run_state s ≠ RCalled →
  let n := Z.to_nat (conccurent_scraper_count c) in
  let opened := created (log (world s)) in
  let pool := JobIndexing.worker_pool (self s) in
  (JobIndexing.tasks (self s) = TProducer :: (TConsumer <$> seq 0 n)
   ∧ is_Some (producer s)
   ∧ length (consumers s) = n
   ∧ (0 ≤ conccurent_scraper_count c →
      Z.of_nat (length (consumers s)) = conccurent_scraper_count c))
  ∧ NoDup opened.*1
  ∧ NoDup opened.*2
  ∧ (∀ t, (length (built_by t s) ≤ 1)%nat)
  ∧ (∀ i ct, consumers s !! i = Some ct → state ct = CCreated →
       built_by (TConsumer i) s = [])
  ∧ (∀ i ct w, consumers s !! i = Some ct → worker_of (state ct) = Some w →
       built_by (TConsumer i) s = [w]
       ∧ (Some (TConsumer i), ScrapingWorker.context w) ∈ opened
       ∧ ScrapingWorker.page w = ScrapingWorker.context w
       ∧ ∀ ls s', exec ls s = Some s' → built_by (TConsumer i) s' = [w])
  ∧ (∀ i j ci cj wi wj, i ≠ j →
       consumers s !! i = Some ci → worker_of (state ci) = Some wi →
       consumers s !! j = Some cj → worker_of (state cj) = Some wj →
       ScrapingWorker.context wi ≠ ScrapingWorker.context wj)
  ∧ (∀ i ci wi wp,
       consumers s !! i = Some ci → worker_of (state ci) = Some wi →
       producer_worker (producer s) = Some wp →
       ScrapingWorker.context wi ≠ ScrapingWorker.context wp)
  ∧ (∀ t ctx, (t, ctx) ∈ visits (log (world s)) → (t, ctx) ∈ opened)
  ∧ (∀ i env,
       consumers s !! i = Some {| state := CCreated; must_cancel := false |} →
       (ScrapingWorker.new_context_fault env = None →
        ScrapingWorker.new_page_fault env = None →
        ScrapingWorker.stealth_fault env = None →
        ∃ s' w,
          step (LConsumerStart i env) s = Some s'
          ∧ consumers s' !! i = Some {| state := CWaiting w; must_cancel := false |}
          ∧ JobIndexing.worker_pool (self s') = pool ++ [w]
          ∧ built_by (TConsumer i) s' = [w])
       ∧ (is_Some (ScrapingWorker.new_context_fault env)
          ∨ is_Some (ScrapingWorker.new_page_fault env)
          ∨ is_Some (ScrapingWorker.stealth_fault env) →
          ∃ s' e,
            step (LConsumerStart i env) s = Some s'
            ∧ consumers s' !! i = Some {| state := CFinished e None; must_cancel := false |}
            ∧ JobIndexing.worker_pool (self s') = pool
            ∧ built_by (TConsumer i) s' = [])).
Proof.
  intros Hr Hrun n opened pool. subst opened pool.
  destruct (InvT_reachable _ _ Hr) as [_ Ht].
  pose proof (InvCtx_reachable _ _ Hr) as Hctx.
  pose proof (InvPool_reachable _ _ Hr) as Hpool.
  destruct (InvOwn_reachable _ _ Hr) as [Hownc Hownp].
  destruct (InvCtx_reachable _ _ Hr) as [_ _ Hndc Hndt _ Hcons Hvis].
  assert (JobIndexing.tasks (self s) = TProducer :: (TConsumer <$> seq 0 n)
          ∧ length (consumers s) = n ∧ is_Some (producer s)) as (Htasks & Hlen & Hp)
    by (by destruct (run_state s)).
  assert (∀ i ct w, consumers s !! i = Some ct → worker_of (state ct) = Some w →
            (Some (TConsumer i), ScrapingWorker.context w) ∈ created (log (world s))
            ∧ ScrapingWorker.page w = ScrapingWorker.context w) as Hown.
  { intros i ct w Hi Hw. by apply (Hcons i ct Hi). }
  assert (∀ t t' ctx, (t, ctx) ∈ created (log (world s)) → (t', ctx) ∈ created (log (world s)) → t = t') as Hsame.
  { intros t t' ctx Hin Hin'.
    apply list_elem_of_lookup in Hin as [a Ha], Hin' as [b Hb].
    assert (a = b) as ->.
    { eapply (NoDup_lookup _ _ _ _ Hndc); rewrite list_lookup_fmap.
      - by rewrite Ha.
      - by rewrite Hb. }
    rewrite Ha in Hb. congruence. }
  split_and!; try done.
  - intros Hpos. rewrite Hlen. unfold n. lia.
  - intros t. by apply built_by_at_most_one.
  - intros i ct Hi Hst. apply built_by_nobody. by apply (Hcons i ct Hi).
  - intros i ct w Hi Hw. destruct (Hown _ _ _ Hi Hw) as [Hin Hpage].
    assert (built_by (TConsumer i) s = [w]) as Hb
      by (apply built_by_holder; eauto).
    split_and!; try done. intros ls s' Hex. by eapply built_by_exec.
  - intros i j ci cj wi wj Hne Hi Hwi Hj Hwj Heq.
    destruct (Hown _ _ _ Hi Hwi) as [Hini _].
    destruct (Hown _ _ _ Hj Hwj) as [Hinj _].
    rewrite Heq in Hini. pose proof (Hsame _ _ _ Hini Hinj). congruence.
  - intros i ci wi wp Hi Hwi Hwp Heq.
    destruct (Hown _ _ _ Hi Hwi) as [Hini _].
    destruct (Hownp _ Hwp) as [_ Hinp].
    rewrite Heq in Hini. pose proof (Hsame _ _ _ Hini Hinp). congruence.
  - intros t ctx. apply Hvis.
  - intros i env Hi.
    destruct (InvRes_reachable _ _ Hr) as [_ Hb _ _ _].
    assert (i < length (consumers s))%nat as Hlt by (by eapply lookup_lt_Some).
    assert (Some (TConsumer i) ∉ (created (log (world s))).*1) as Hnew by (by apply (Hcons i _ Hi)).
    split.
    + intros H1 H2 H3.
      assert (∃ s' w,
        step (LConsumerStart i env) s = Some s'
        ∧ consumers s' !! i = Some {| state := CWaiting w; must_cancel := false |}
        ∧ JobIndexing.worker_pool (self s') = JobIndexing.worker_pool (self s) ++ [w]
        ∧ (Some (TConsumer i), ScrapingWorker.context w) ∈ created (log (world s')))
        as (s' & w & Hs & Hi' & Hp' & Hin).
      { cbn [step]. rewrite Hi, make_worker_cases. cbn. rewrite Hb, H1, H2, H3.
        eexists _, _. split; [done|].
        split; [unfold set_consumer; cbn; by apply list_lookup_insert_eq|].
        split; [done|]. cbn.
        rewrite ?created_app, ?created_cons, ?created_nil, ?app_nil_r.
        apply elem_of_app. right. left. }
      exists s', w. split_and!; try done.
      assert (reachable c s') as Hr' by (by eapply reachable_step).
      apply built_by_holder;
        [by eapply InvCtx_reachable|by eapply InvPool_reachable| |done].
      rewrite Hp'. apply elem_of_app. right. left.
    + intros Hfault.
      assert (∃ s' e,
        step (LConsumerStart i env) s = Some s'
        ∧ consumers s' !! i = Some {| state := CFinished e None; must_cancel := false |}
        ∧ JobIndexing.worker_pool (self s') = JobIndexing.worker_pool (self s)
        ∧ (∀ t ctx, (t, ctx) ∈ created (log (world s')) →
             (t, ctx) ∈ created (log (world s)) ∨ ctx = contexts_opened (world s))) as Hgen.
      { cbn [step]. rewrite Hi, make_worker_cases. cbn. rewrite Hb.
        destruct (ScrapingWorker.new_context_fault env) as [e|].
        { eexists _, e. split; [done|].
          split; [unfold set_consumer; cbn; by apply list_lookup_insert_eq|].
          split; [done|]. cbn. auto. }
        destruct (ScrapingWorker.new_page_fault env) as [e|].
        { eexists _, e. split; [done|].
          split; [unfold set_consumer; cbn; by apply list_lookup_insert_eq|].
          split; [done|]. cbn. intros t ctx.
          rewrite ?created_app, ?created_cons, ?created_nil, ?app_nil_r.
          rewrite elem_of_app, list_elem_of_singleton. intros [?|[= _ ->]]; auto. }
        destruct (ScrapingWorker.stealth_fault env) as [e|].
        { eexists _, e. split; [done|].
          split; [unfold set_consumer; cbn; by apply list_lookup_insert_eq|].
          split; [done|]. cbn. intros t ctx.
          rewrite ?created_app, ?created_cons, ?created_nil, ?app_nil_r.
          rewrite elem_of_app, list_elem_of_singleton. intros [?|[= _ ->]]; auto. }
        destruct Hfault as [[? [=]]|[[? [=]]|[? [=]]]]. }
      destruct Hgen as (s' & e & Hs & Hi' & Hpool' & Hcr).
      exists s', e. split_and!; try done.
      unfold built_by. rewrite Hpool'. apply filter_none. intros w Hw Hin.
      apply Hcr in Hin as [Hin| Heq].
      * apply Hnew. by apply (list_elem_of_fmap_2 fst) in Hin.
      * assert (ScrapingWorker.context w < contexts_opened (world s))%nat; [|lia].
        apply (pool_bound _ Hpool). unfold pool_contexts.
        by apply list_elem_of_fmap_2.
Qed.

(** C7 on a run with two consumers. *)
Lemma run_spawns_tasks_with_their_own_workers_witness :
  reachable (sample_config counting 2) two_consumers_state
  ∧ run_state two_consumers_state ≠ RCalled
  ∧ JobIndexing.tasks (self two_consumers_state) = [TProducer; TConsumer 0; TConsumer 1]
  ∧ length (consumers two_consumers_state) = 2%nat
  ∧ (∃ w0 w1,
       built_by (TConsumer 0) two_consumers_state = [w0]
       ∧ built_by (TConsumer 1) two_consumers_state = [w1]
       ∧ ScrapingWorker.context w0 ≠ ScrapingWorker.context w1)
  ∧ ∀ t ctx, (t, ctx) ∈ visits (log (world two_consumers_state)) →
      (t, ctx) ∈ created (log (world two_consumers_state)).
Proof.
  assert (reachable (sample_config counting 2) two_consumers_state) as Hr
    by (exists two_consumers; apply two_consumers_reachable).
  assert (run_state two_consumers_state ≠ RCalled) as Hrun by discriminate.
  split; [exact Hr|]. split; [exact Hrun|].
  destruct (run_spawns_tasks_with_their_own_workers _ _ Hr Hrun)
    as ((Ht & _ & Hl & _) & _ & _ & _ & _ & Hown & Hdiff & _ & Hv & _).
  split; [exact Ht|]. split; [exact Hl|]. split; [|exact Hv].
  destruct (Hown 0%nat _ _ eq_refl eq_refl) as (H0 & _).
  destruct (Hown 1%nat _ _ eq_refl eq_refl) as (H1 & _).
  eexists _, _. split; [exact H0|]. split; [exact H1|].
  apply (Hdiff 0%nat 1%nat _ _ _ _ ltac:(discriminate) eq_refl eq_refl eq_refl eq_refl).
Defined.

(** C7 as stated fails: a consumer whose worker cannot be built (here the
    page of its new context cannot be opened) ends without a worker; the
    pool holds the worker of the producer only. *)
Lemma consumer_without_worker :
  exec (producer_started ++ [LConsumerStart 0 page_fails])
    (boot (sample_config counting 1)) = Some consumer_failed_state
  ∧ JobIndexing.tasks (self consumer_failed_state) = [TProducer; TConsumer 0]
  ∧ task_states consumer_failed_state = [(true, false)]
  ∧ created (log (world consumer_failed_state)) =
      [(Some TProducer, 0%nat); (Some (TConsumer 0), 1%nat)]
  ∧ pool_contexts consumer_failed_state = [0%nat]
  ∧ built_by (TConsumer 0) consumer_failed_state = [].
Proof. split_and!; vm_compute; reflexivity. Qed.

(** ** The end of [run] and the consumers *)







(** ** Teardown *)

(** What [__aexit__] does, as a plan of release calls. *)
Lemma aexit_plan env w o :
  JobIndexing.__aexit__ env (w, o) =
    ((emitted (attempted (teardown_plan env o)) w, o),
     result_of (teardown_plan env o)).
Proof.
  unfold JobIndexing.__aexit__, teardown_plan.
  set (p1 := (λ task, (EvTaskCancel task, None)) <$> _).
  set (p2 := (λ worker, _) <$> JobIndexing.worker_pool o).
  set (p3 := if bool_decide (is_Some (JobIndexing.browser o)) then _ else _).
  set (p4 := if bool_decide (is_Some (JobIndexing.playwright_engine o)) then _ else _).
  rewrite bind_gets, (bind_emitted p1) by apply cancel_loop_plan.
  rewrite (attempted_app p1), (result_of_app p1).
  destruct (result_of p1) as [[]|e]; [|done].
  rewrite bind_gets, (bind_emitted p2)
    by apply (for_each_plan _
                (λ worker, (EvContextClose (ScrapingWorker.context worker),
                            JobIndexing.stop_fault env (ScrapingWorker.context worker)))).
  rewrite (attempted_app p2), (result_of_app p2).
  destruct (result_of p2) as [[]|e]; [|by rewrite emitted_app].
  rewrite bind_gets, (bind_emitted p3) by apply if_plan.
  rewrite (attempted_app p3), (result_of_app p3).
  destruct (result_of p3) as [[]|e]; [|by rewrite !emitted_app].
  rewrite bind_gets, if_plan. cbv zeta. fold p4.
  by rewrite ?emitted_app, <- ?(assoc_L (++)).
Qed.

Lemma attempted_ok plan :
  Forall (λ x : Event * option Exn, x.2 = None) plan →
  attempted plan = plan.*1 ∧ result_of plan = Returned tt.
Proof.
  induction 1 as [|[ev f] plan Hf _ [IH1 IH2]]; [done|].
  cbn in Hf. subst f. cbn. by rewrite IH1, IH2.
Qed.

Lemma attempted_subset plan ev : ev ∈ attempted plan → ev ∈ plan.*1.
Proof.
  induction plan as [|[ev' [e|]] plan IH]; cbn; [done| |].
  - intros ->%list_elem_of_singleton. apply elem_of_cons. by left.
  - intros [->|Hin]%elem_of_cons; apply elem_of_cons; [by left|right; by apply IH].
Qed.

Lemma close_in_teardown env o ctx :
  EvContextClose ctx ∈ (teardown_plan env o).*1 →
  ctx ∈ ScrapingWorker.context <$> JobIndexing.worker_pool o.
Proof.
  unfold teardown_plan. rewrite !fmap_app, !elem_of_app, <- !list_fmap_compose.
  intros [Hin|[Hin|[Hin|Hin]]].
  - apply list_elem_of_fmap in Hin as (t & [=] & _).
  - apply list_elem_of_fmap in Hin as (wk & [= ->] & Hin).
    by apply list_elem_of_fmap_2.
  - destruct (bool_decide _); cbn in Hin;
      [by apply list_elem_of_singleton in Hin|by apply elem_of_nil in Hin].
  - destruct (bool_decide _); cbn in Hin;
      [by apply list_elem_of_singleton in Hin|by apply elem_of_nil in Hin].
Qed.

(** X10: After any run, if no release call fails, __aexit__ returns normally
    having made exactly these calls: cancel() on each task that is not
    cancelled, then context.close() once for each worker of the pool in pool
    order, then browser.close() and the stop of Playwright. The contexts of
    the pool are pairwise distinct and were all opened by this run, and the
    orchestrator object is left as it was. *)
Theorem teardown_closes_each_pool_context_once c s env :
  reachable c s →
  (∀ ctx, JobIndexing.stop_fault env ctx = None) →
  JobIndexing.close_fault env = None →
  JobIndexing.engine_stop_fault env = None →
  let r := JobIndexing.__aexit__ env (world s, self s) in
  r.2 = Returned tt
  ∧ calls_since (world s) r.1.1 =
      (EvTaskCancel <$> filter (λ t, JobIndexing.task_cancelled env t = false)
                          (JobIndexing.tasks (self s)))
      ++ (EvContextClose <$> pool_contexts s)
      ++ [EvBrowserClose; EvEngineStop]
  ∧ NoDup (pool_contexts s)
  ∧ (∀ ctx, ctx ∈ pool_contexts s → ctx ∈ (created (log (world s))).*2)
  ∧ r.1.2 = self s.
Proof.
  intros Hr Hstop Hclose Hengine r. subst r. rewrite aexit_plan. cbn [fst snd].
  destruct (InvPool_reachable _ _ Hr) as [_ Hnd Hcr _].
  destruct (InvRes_reachable _ _ Hr) as [He Hb _ _ _].
  assert (Forall (λ x : Event * option Exn, x.2 = None) (teardown_plan env (self s)))
    as Hok.
  { unfold teardown_plan. rewrite He, Hb, Hclose, Hengine.
    repeat (apply Forall_app; split).
    - by apply Forall_fmap, Forall_true.
    - apply Forall_fmap, Forall_true. intros wk. apply Hstop.
    - by repeat constructor.
    - by repeat constructor. }
  destruct (attempted_ok _ Hok) as [-> ->].
  rewrite calls_since_emitted. split_and!; try done.
  unfold teardown_plan, pool_contexts. rewrite He, Hb.
  rewrite !fmap_app, <- !list_fmap_compose. done.
Qed.

Lemma orphan_step ctx l s s' : orphan ctx s → step l s = Some s' → orphan ctx s'.
Proof.
  intros [Hlt Hnot] H. unfold orphan, pool_contexts in *.
  step_open H; (split; [lia|]); try done.
  all: rewrite fmap_app; cbn;
    intros [?| ->%list_elem_of_singleton]%elem_of_app; [done|lia].
Qed.

Lemma orphan_exec ctx ls s s' : orphan ctx s → exec ls s = Some s' → orphan ctx s'.
Proof.
  revert s. induction ls as [|l ls IH]; intros s Ho; cbn.
  - by intros [= <-].
  - destruct (step l s) as [s0|] eqn:Hs; [|done]. cbn.
    apply IH. by eapply orphan_step.
Qed.

(** X9: When the construction of a ScrapingWorker fails after
    browser.new_context() returned (new_page() or stealth_async raises), the
    context has been opened but the worker never enters the pool, and
    context.close() is never called for it: neither later in the run nor by
    __aexit__, whatever happens there. *)
Theorem failed_construction_leaks_context c s l env s' :
  reachable c s → step l s = Some s' →
  (l = LProducerStart env ∨ ∃ i, l = LConsumerStart i env) →
  ScrapingWorker.new_context_fault env = None →
  (ScrapingWorker.new_page_fault env ≠ None ∨ ScrapingWorker.stealth_fault env ≠ None) →
  let ctx := contexts_opened (world s) in
  EvNewContext ctx ∈ calls_since (world s) (world s')
  ∧ ∀ ls s'', exec ls s' = Some s'' →
      (ctx ∉ pool_contexts s'')
      ∧ (EvContextClose ctx ∉ events (world s''))
      ∧ ∀ xenv,
          (EvContextClose ctx ∉
             events (JobIndexing.__aexit__ xenv (world s'', self s'')).1.1).
Proof.
  intros Hr Hstep Hl Hnew Hfail ctx.
  destruct (InvPool_reachable _ _ Hr) as [Hb _ _ _].
  destruct (InvRes_reachable _ _ Hr) as [_ Hbr _ _ _].
  assert (EvNewContext ctx ∈ calls_since (world s) (world s') ∧ orphan ctx s')
    as [Hin Ho].
  { unfold orphan, pool_contexts, calls_since, events in *. subst ctx.
    destruct Hl as [->|[i ->]]; step_open_at Hstep; try (by destruct Hfail); try congruence;
      rewrite ?fmap_app; cbn; rewrite <- ?(assoc_L (++)), ?drop_app_length; cbn;
      (split; [apply elem_of_cons; by left|]);
      (split; [lia|]); intros Hin%Hb; lia. }
  split; [done|]. intros ls s'' Hex.
  pose proof (orphan_exec _ _ _ _ Ho Hex) as [_ Hnot].
  assert (reachable c s'') as Hr''
    by (eapply reachable_exec; [by eapply reachable_step|done]).
  destruct (InvPool_reachable _ _ Hr'') as [_ _ _ Hx].
  split_and!; [done| |].
  - intros Hin'. eapply Forall_forall in Hx; [|exact Hin']. done.
  - intros xenv. rewrite aexit_plan. cbn [fst]. rewrite events_emitted.
    intros [Hin'|Hin']%elem_of_app.
    + eapply Forall_forall in Hx; [|exact Hin']. done.
    + by apply attempted_subset, close_in_teardown in Hin'.
Qed.

(** ** The queue: bound, acknowledgements, order of the stages *)

Local Arguments acks : simpl never.

Lemma InvBound_step l s s' : InvBound s → step l s = Some s' → InvBound s'.
Proof.
  intros Hinv H. unfold InvBound, qsize, full, qsize in *.
  step_open H; unfold queue, full, qsize in *; cbn in *; try done;
    repeat match goal with
    | Hi : items _ = _ |- _ => rewrite Hi in *; clear Hi
    end;
    rewrite ?length_app in *; cbn in *; intros; repeat case_match; lia.
Qed.

Lemma InvBound_reachable c s : reachable c s → InvBound s.
Proof.
  apply reachable_ind; [|intros l s0 s1 _; apply InvBound_step].
  unfold InvBound; cbn. lia.
Qed.

Lemma held_le cs : (held cs ≤ length cs)%nat.
Proof.
  unfold held. induction cs as [|ct cs IH]; cbn; [done|].
  unfold weight at 1. destruct (in_flight (state ct)); lia.
Qed.

(** X4: With a positive data_buffer_size the queue never holds more items than
    that, and its unfinished count exceeds it by at most the number of
    consumers. With data_buffer_size <= 0 the queue is never full and the
    producer never waits in put(). *)
Theorem buffer_size_bounds_the_queue c s :
  reachable c s →
  (0 < data_buffer_size c →
     Z.of_nat (qsize (queue s)) ≤ data_buffer_size c
     ∧ Z.of_nat (unfinished_tasks (queue s))
         ≤ data_buffer_size c + Z.of_nat (length (consumers s)))
  ∧ (data_buffer_size c ≤ 0 →
     full (queue s) = false ∧ ∀ worker job, producer s ≠ Some (PPutting worker job)).
Proof.
  intros Hr. destruct (InvQ_reachable _ _ Hr) as [Hmax Hput Hunf _].
  pose proof (InvBound_reachable _ _ Hr) as Hb. unfold InvBound in Hb.
  rewrite Hmax in Hb. split.
  - intros Hpos. specialize (Hb Hpos). split; [done|].
    rewrite Hunf. pose proof (held_le (consumers s)). unfold qsize in Hb. lia.
  - intros Hneg. split.
    + unfold full. rewrite Hmax. by case_match; [|lia].
    + intros worker job Hp. apply Hput in Hp. lia.
Qed.

Lemma acks_app l1 l2 : acks (l1 ++ l2) = (acks l1 + acks l2)%nat.
Proof. unfold acks. by rewrite filter_app, length_app. Qed.

Lemma acks_cancels (t : option TaskId) (l : list nat) :
  acks ((λ ev, (t, ev)) <$> ((λ i, EvTaskCancel (TConsumer i)) <$> l)) = 0%nat.
Proof.
  unfold acks. induction l as [|i l IH]; [done|].
  rewrite !fmap_cons, filter_cons_False; [done|]. cbn. congruence.
Qed.

Lemma acks_cons t ev l :
  acks ((t, ev) :: l) = ((if is_task_done ev then 1 else 0) + acks l)%nat.
Proof.
  unfold acks. destruct (is_task_done ev) eqn:Hev.
  - by rewrite filter_cons_True.
  - rewrite filter_cons_False; [done|]. cbn. congruence.
Qed.

Lemma acks_nil : acks [] = 0%nat.
Proof. done. Qed.

Ltac acks_norm :=
  rewrite ?acks_app, ?fmap_cons, ?acks_cons, ?acks_cancels, ?acks_nil in *;
  cbn [is_task_done] in *.

Lemma InvAck_step l s s' : InvAck s → step l s = Some s' → InvAck s'.
Proof.
  intros Hinv H. unfold InvAck in *.
  step_open H; unfold queue in *; cbn; refs_norm; acks_norm;
    rewrite ?length_app; cbn; lia.
Qed.

Lemma InvAck_reachable c s : reachable c s → InvAck s.
Proof.
  apply reachable_ind; [|intros l s0 s1 _; apply InvAck_step].
  by unfold InvAck, refs_of, acks.
Qed.

(** X3: At every point of a run, the number of put() calls equals the number
    of task_done() calls plus the unfinished count of the queue, and also the
    task_done() calls plus the buffered items plus the items held by
    consumers. Hence the task_done() of a consumer that holds an item never
    raises ValueError. *)
Theorem task_done_never_fails c s :
  reachable c s →
  length (refs_of sel_put (log (world s))) =
    (acks (log (world s)) + unfinished_tasks (queue s))%nat
  ∧ (acks (log (world s)) + qsize (queue s) + held (consumers s)
     = length (refs_of sel_put (log (world s))))%nat
  ∧ ∀ i ct job, consumers s !! i = Some ct → in_flight (state ct) = Some job →
      ∃ q, task_done (queue s) = Returned q.
Proof.
  intros Hr. pose proof (InvAck_reachable _ _ Hr) as Ha. unfold InvAck in Ha.
  destruct (InvQ_reachable _ _ Hr) as [_ _ Hunf _].
  split; [done|]. split; [unfold qsize; lia|].
  intros i ct job Hi Hj. apply held_lookup in Hi. unfold weight in Hi.
  rewrite Hj in Hi. unfold task_done.
  destruct (unfinished_tasks (queue s)); [lia|by eexists].
Qed.

Lemma sum_insert {A} (f : A → nat) (l : list A) i x y :
  l !! i = Some x →
  (sum_list_with f (<[i := y]> l) + f x = sum_list_with f l + f y)%nat.
Proof.
  revert i. induction l as [|z l IH]; intros [|i] H; simplify_eq/=; [lia|].
  specialize (IH _ H). lia.
Qed.

Lemma sum_cancel cs : sum_list_with indexing (cancel <$> cs) = sum_list_with indexing cs.
Proof.
  induction cs as [|x cs IH]; cbn; [done|]. rewrite IH. f_equal.
  unfold cancel, indexing. by destruct (finished (state x)).
Qed.

Lemma sum_replicate {A} (f : A → nat) n x : f x = 0%nat → sum_list_with f (replicate n x) = 0%nat.
Proof. intros Hx. induction n; cbn; [done|]. by rewrite Hx. Qed.

Lemma InvOrder_step l s s' : InvOrder s → step l s = Some s' → InvOrder s'.
Proof.
  intros [He Ha Hg] H.
  step_open H; split; cbn; refs_norm; rewrite ?sum_cancel, ?sum_replicate by done;
    try done;
    try match goal with
    | H0 : consumers ?s !! ?i = Some ?c |- context [<[?i := ?c']> (consumers ?s)] =>
        pose proof (sum_insert indexing _ _ _ c' H0) as Hs; cbn in Hs
    end;
    try match goal with
    | H0 : consumers _ !! _ = Some {| state := ?st; must_cancel := true |} |- _ =>
        destruct st; cbn in *
    end;
    rewrite ?length_app; cbn; try lia;
    first [by apply submseteq_app|by apply submseteq_inserts_r].
Qed.

Lemma InvOrder_reachable c s : reachable c s → InvOrder s.
Proof.
  apply reachable_ind; [|intros l s0 s1 _; apply InvOrder_step].
  split; unfold refs_of; cbn; [done..|lia].
Qed.

(** X2: At every point of a run, counted with multiplicity: extract_details is
    called only for pages that were visited, a page is visited only for a job
    that was put on the queue, indexing.add_json is called only for a
    reference looked up with indexing.get, and there are never more lookups
    than extractions. *)
Theorem stages_follow_one_another c s :
  reachable c s →
  let l := log (world s) in
  refs_of sel_extract l ⊆+ refs_of sel_visit l
  ∧ refs_of sel_visit l ⊆+ refs_of sel_put l
  ∧ refs_of sel_add l ⊆+ refs_of sel_get l
  ∧ (length (refs_of sel_get l) ≤ length (refs_of sel_extract l))%nat.
Proof.
  intros Hr l. destruct (InvOrder_reachable _ _ Hr) as [He Ha Hg].
  pose proof (InvJobs_reachable _ _ Hr) as Hj. unfold InvJobs in Hj.
  split_and!; [done| |done|unfold l; lia].
  unfold l. rewrite Hj. by apply submseteq_inserts_r.
Qed.

Lemma InvNone_step c l s s' :
  conccurent_scraper_count c ≤ 0 → InvT c s → InvNone s → step l s = Some s' → InvNone s'.
Proof.
  intros Hc [Hlvl _] [Hn Hv] H. unfold InvNone in *.
  step_open H; cbn; refs_norm; rewrite ?Hn in *; try done.
  rewrite Hlvl. by replace (Z.to_nat (conccurent_scraper_count c)) with 0%nat by lia.
Qed.

Lemma InvNone_reachable c s :
  conccurent_scraper_count c ≤ 0 → reachable c s → InvNone s.
Proof.
  intros Hc. apply reachable_ind; [by split|].
  intros l s0 s1 Hr. apply InvNone_step with c; [done|]. by apply InvT_reachable.
Qed.

(** X5: With conccurent_scraper_count <= 0 no consumer is created, no detail
    page is ever visited and every job put stays unfinished: run() returns
    normally only if the feed yielded no job (otherwise queue.join() never
    returns). *)
Theorem without_consumers_run_returns_only_on_empty_feed c s :
  conccurent_scraper_count c ≤ 0 → reachable c s →
  consumers s = []
  ∧ refs_of sel_visit (log (world s)) = []
  ∧ unfinished_tasks (queue s) = length (refs_of sel_put (log (world s)))
  ∧ (run_state s = RFinished (Returned tt) → refs_of sel_put (log (world s)) = []).
Proof.
  intros Hc Hr. destruct (InvNone_reachable _ _ Hc Hr) as [Hn Hv].
  pose proof (InvAck_reachable _ _ Hr) as Ha. unfold InvAck in Ha.
  destruct (InvQ_reachable _ _ Hr) as [_ _ Hunf Hctl].
  pose proof (InvJobs_reachable _ _ Hr) as Hj. unfold InvJobs, queue_refs in Hj.
  rewrite Hv, Hn in Hj. change (fetching_refs []) with (@nil string) in Hj.
  cbn [app] in Hj. apply Permutation_length in Hj. rewrite length_fmap in Hj. rewrite Hn in Hunf. cbn in Hunf.
  assert (unfinished_tasks (queue s) = length (refs_of sel_put (log (world s))))
    as Heq by lia.
  split_and!; [done..|].
  intros Hrun. unfold control_ok in Hctl. rewrite Hrun in Hctl.
  destruct Hctl as [_ Hz]. apply nil_length_inv. lia.
Qed.

(** ** [index_job] and a repeated [__aexit__] *)

(** X15: index_job never removes or changes an entry of the board: the other
    keys are untouched, a call that raises leaves the board as it was, and
    after a normal return the key of the job holds the job stored before if
    there was one, and the api_format of the job otherwise. *)
Theorem index_job_never_overwrites env client job w :
  let key := (BOARD_KEY (env_settings w), in_platform_id job) in
  let r := index_job env client job w in
  (∀ k v, boards w !! k = Some v → boards r.1 !! k = Some v)
  ∧ (∀ k, k ≠ key → boards r.1 !! k = boards w !! k)
  ∧ (∀ e, r.2 = Raised e → boards r.1 = boards w)
  ∧ (r.2 = Returned tt →
     boards r.1 !! key = Some (default (api_format job) (boards w !! key))).
Proof.
  intros key r. subst r. rewrite index_job_cases. cbv zeta. fold key.
  destruct (get_fault env) as [e|]; cbn [fst snd]; [by split_and!|].
  destruct (boards w !! key) as [v|] eqn:Hk; cbn [fst snd].
  { split_and!; try done. }
  destruct (add_fault env) as [e|]; cbn [fst snd]; [by split_and!|].
  cbn. split_and!; try done.
  - intros k v Hkv. rewrite lookup_insert_ne; [done|]. intros <-. congruence.
  - intros k Hne. by rewrite lookup_insert_ne.
  - intros _. by rewrite lookup_insert_eq.
Qed.

(** After a normal return the reference of the job is in the board. *)
Lemma index_job_stored env client job w :
  let key := (BOARD_KEY (env_settings w), in_platform_id job) in
  let r := index_job env client job w in
  r.2 = Returned tt →
  boards r.1 !! key = Some (default (api_format job) (boards w !! key)).
Proof.
  intros key r. subst r. rewrite index_job_cases. cbv zeta. fold key.
  destruct (get_fault env) as [e|]; cbn [fst snd]; [done|].
  destruct (boards w !! key) as [v|] eqn:Hk; cbn [fst snd]; [done|].
  destruct (add_fault env) as [e|]; cbn [fst snd]; [done|].
  cbn. intros _. by rewrite lookup_insert_eq.
Qed.

(** X16: After index_job returned for a job, a call for a job of the same
    reference leaves the board unchanged and makes no add_json call, and it
    returns normally whenever the lookup does not fail. *)
Theorem index_job_resubmission_changes_nothing env env' client job job' w :
  let r := index_job env client job w in
  let r' := index_job env' client job' r.1 in
  r.2 = Returned tt → in_platform_id job' = in_platform_id job →
  boards r'.1 = boards r.1
  ∧ (∀ board ref, EvIndexingAdd board ref ∉ calls_since r.1 r'.1)
  ∧ (get_fault env' = None → r'.2 = Returned tt).
Proof.
  intros r r' Hret Href.
  pose proof (index_job_stored env client job w Hret) as Hpost.
  cbv zeta in Hpost. fold r in Hpost.
  assert (env_settings r.1 = env_settings w) as Hset.
  { subst r. rewrite index_job_cases.
    by destruct (get_fault env), (boards w !! _), (add_fault env). }
  subst r'. rewrite index_job_cases. rewrite Href, Hset, Hpost.
  destruct (get_fault env') as [e|]; cbn [fst snd]; rewrite calls_since_emitted.
  - split_and!; [done| |done]. intros board ref. apply not_in_get.
  - split_and!; [done| |done]. intros board ref. apply not_in_get.
Qed.


(** ** Iterations of a consumer and a complete run *)

(** X6: During a run the browser and the Hrflow client acquired by __aenter__
    are in place. A consumer iteration that is not cancelled and meets no
    error (the job page is empty, or the job is indexed and both Hrflow calls
    return) calls task_done() exactly once, so the unfinished count goes down
    by one, and goes back to waiting on the queue; after indexing, the board
    has an entry for the job's reference. *)
Theorem iteration_without_error_is_acknowledged c s i worker job :
  reachable c s →
  JobIndexing.browser (self s) = Some {| launched_headless := is_headless c |}
  ∧ JobIndexing.hrflow_client (self s) =
      Some (HrflowClient (API_KEY (settings c)) (USER_EMAIL (settings c)))
  ∧ (consumers s !! i = Some {| state := CFetching worker job; must_cancel := false |} →
     ∀ env content,
       ScrapingWorker.visit_job_page env = Returned content →
       ScrapingWorker.truthy content = false →
       ∃ s', step (LConsumerFetch i env) s = Some s'
         ∧ consumers s' !! i = Some {| state := CWaiting worker; must_cancel := false |}
         ∧ unfinished_tasks (queue s) = S (unfinished_tasks (queue s')))
  ∧ (consumers s !! i = Some {| state := CIndexing worker job; must_cancel := false |} →
     ∀ env, get_fault env = None → add_fault env = None →
       ∃ s', step (LConsumerIndex i env) s = Some s'
         ∧ consumers s' !! i = Some {| state := CWaiting worker; must_cancel := false |}
         ∧ unfinished_tasks (queue s) = S (unfinished_tasks (queue s'))
         ∧ is_Some (boards (world s') !! (BOARD_KEY (settings c), in_platform_id job))).
Proof.
  intros Hr. destruct (InvRes_reachable _ _ Hr) as [_ Hb Hcl Hset _].
  destruct (InvQ_reachable _ _ Hr) as [_ _ Hunf _].
  split; [done|]. split; [done|].
  assert (∀ st, consumers s !! i = Some {| state := st; must_cancel := false |} →
            is_Some (in_flight st) → ∃ n, unfinished_tasks (queue s) = S n) as Hpos.
  { intros st Hi [j Hj]. apply held_lookup in Hi. unfold weight in Hi. cbn in Hi.
    rewrite Hj in Hi. destruct (unfinished_tasks (queue s)); [lia|by eexists]. }
  split.
  - intros Hi env content Hv Ht. destruct (Hpos _ Hi) as [n Hn]; [by eexists|].
    cbn [step]. rewrite Hi, perform_eq, collector_eq. cbv zeta. rewrite Hv, Ht.
    cbn [fst snd]. rewrite acknowledge_cases.
    unfold queue in *. cbn. rewrite Hn. eexists. split; [done|].
    unfold set_consumer; cbn. split; [|done].
    apply list_lookup_insert_eq. by eapply lookup_lt_Some.
  - intros Hi env Hg Ha. destruct (Hpos _ Hi) as [n Hn]; [by eexists|].
    cbn [step]. rewrite Hi. cbn. rewrite Hcl, perform_eq, index_job_cases.
    cbv zeta. rewrite Hg, Ha. cbn. rewrite Hset.
    destruct (boards (world s) !! _) as [v|] eqn:Hk; cbn [fst snd];
      rewrite acknowledge_cases; unfold queue in *; cbn; rewrite Hn;
      (eexists; split; [done|]); unfold set_consumer; cbn;
      (split; [apply list_lookup_insert_eq; by eapply lookup_lt_Some|]);
      (split; [done|]).
    + by rewrite Hk.
    + by rewrite lookup_insert_eq.
Qed.






Lemma exec_cons l ls s : exec (l :: ls) s = step l s ≫= exec ls.
Proof. done. Qed.






(** ** The feed generator *)

Lemma iterate_yield {A} (g : Generated A) : iterate g yield_ = g.
Proof.
  destruct g as [xs last]. unfold iterate. cbn.
  induction xs as [|x xs IH]; cbn; [done|].
  unfold then_. cbn. rewrite IH. done.
Qed.

Lemma for_in_ok {A B} (xs : list A) last (body : A → Generated B) :
  Forall (λ x, ending (body x) = None) xs →
  for_in xs last body = {| yielded := xs ≫= (yielded ∘ body); ending := last |}.
Proof.
  induction 1 as [|x xs Hx _ IH]; cbn; [done|].
  unfold then_. by rewrite Hx, IH.
Qed.

Lemma for_in_raise {A B} (xs1 xs2 : list A) x e last (body : A → Generated B) :
  Forall (λ x, ending (body x) = None) xs1 → ending (body x) = Some e →
  for_in (xs1 ++ x :: xs2) last body =
    {| yielded := (xs1 ≫= (yielded ∘ body)) ++ yielded (body x); ending := Some e |}.
Proof.
  intros H1 Hx. induction H1 as [|y xs1 Hy _ IH]; cbn.
  - unfold then_. rewrite Hx. destruct (body x) as [ys en]. cbn in *. by subst.
  - unfold then_. rewrite Hy, IH. cbn. by rewrite (assoc_L (++)).
Qed.

Lemma for_in_prefix {A B} (xs : list A) last (body : A → Generated B) :
  yielded (for_in xs last body) `prefix_of` xs ≫= (yielded ∘ body).
Proof.
  induction xs as [|x xs IH]; cbn; [done|].
  unfold then_. destruct (ending (body x)); cbn.
  - by apply prefix_app_r.
  - by apply prefix_app.
Qed.

Lemma for_in_ext {A B} (xs : list A) last (body body' : A → Generated B) :
  (∀ x, body x = body' x) → for_in xs last body = for_in xs last body'.
Proof. intros Heq. induction xs as [|x xs IH]; cbn; [done|]. by rewrite Heq, IH. Qed.

Lemma feed_jobs_generator_eq self q feed_pagination extract_initial_info :
  feed_jobs_generator self q feed_pagination extract_initial_info =
    iterate (feed_pagination (ScrapingWorker.page self)) extract_initial_info.
Proof.
  unfold feed_jobs_generator, iterate at 1. apply for_in_ext.
  intros page_content. apply iterate_yield.
Qed.

(** X12: feed_jobs_generator yields the jobs of each feed page, page after
    page: when no extraction raises, all jobs of all pages, then it ends as
    the pagination ends; when the extraction of a page raises, the jobs
    yielded up to there, then that exception. What it yields is always a
    prefix of the concatenation of the jobs of the pages. *)
Theorem feed_jobs_generator_flattens_pages self q feed_pagination extract_initial_info :
  let pages := feed_pagination (ScrapingWorker.page self) in
  let jobs_of page_content := yielded (extract_initial_info page_content) in
  let g := feed_jobs_generator self q feed_pagination extract_initial_info in
  (Forall (λ p, ending (extract_initial_info p) = None) (yielded pages) →
   yielded g = yielded pages ≫= jobs_of ∧ ending g = ending pages)
  ∧ (∀ ps1 p ps2 e,
       yielded pages = ps1 ++ p :: ps2 →
       Forall (λ p, ending (extract_initial_info p) = None) ps1 →
       ending (extract_initial_info p) = Some e →
       yielded g = (ps1 ≫= jobs_of) ++ jobs_of p ∧ ending g = Some e)
  ∧ yielded g `prefix_of` yielded pages ≫= jobs_of.
Proof.
  intros pages jobs_of g. subst g. rewrite feed_jobs_generator_eq. fold pages.
  unfold iterate. split_and!.
  - intros Hok. by rewrite for_in_ok.
  - intros ps1 p ps2 e -> Hok He. by rewrite (for_in_raise ps1 ps2 p e).
  - apply for_in_prefix.
Qed.

Lemma producer_puts w g s :
  maxsize (queue s) ≤ 0 → producer s = Some (PFeeding w) →
  ∃ s', exec (LProducerNext <$> feed_steps g) s = Some s'
    ∧ producer s' = Some (PFinished (outcome_of g))
    ∧ items (queue s') = items (queue s) ++ yielded g
    ∧ unfinished_tasks (queue s') = (unfinished_tasks (queue s) + length (yielded g))%nat
    ∧ refs_of sel_put (log (world s')) =
        refs_of sel_put (log (world s)) ++ (in_platform_id <$> yielded g)
    ∧ consumers s' = consumers s
    ∧ run_state s' = run_state s.
Proof.
  destruct g as [jobs last]. unfold feed_steps, outcome_of. cbn [yielded ending].
  revert s. induction jobs as [|job jobs IH]; intros s Hm Hp.
  - cbn [fmap list_fmap app exec step]. rewrite Hp. cbv zeta.
    destruct last as [e|]; cbn [mbind option_bind]; eexists; (split; [done|]);
      cbn; rewrite ?app_nil_r; split_and!; try done; lia.
  - cbn [fmap list_fmap app]. rewrite exec_cons. cbn [step]. rewrite Hp. cbv zeta.
    rewrite put_cases.
    assert (full (queue (resume (Some TProducer) s)) = false) as ->.
    { unfold full, queue in *. cbn. by rewrite (proj2 (Z.leb_le _ _) Hm). }
    cbn [mbind option_bind].
    match goal with |- ∃ s', exec _ ?s1 = _ ∧ _ => destruct (IH s1) as (s2 & H2 & Hp2 & Hi2 & Hu2 & Hr2 & Hc2 & Hrun2) end.
    { unfold queue in *. cbn. done. }
    { done. }
    exists s2. split; [done|]. split; [done|].
    unfold queue in *. cbn in *. refs_norm.
    rewrite Hi2, Hu2, Hr2, <- !(assoc_L (++)). split_and!; try done; lia.
Qed.

(** X13: With an unbounded queue (data_buffer_size <= 0) a producer that
    iterates the feed generator goes to its end without waiting: it puts
    exactly the jobs the generator yields, in order, at the back of the queue,
    the unfinished count grows by their number, and the task ends as the
    generator ended, normally or with its exception. *)
Theorem producer_puts_what_the_feed_yields c s worker feed_pagination extract_initial_info :
  reachable c s → data_buffer_size c ≤ 0 → producer s = Some (PFeeding worker) →
  let g := feed_jobs_generator worker (JobIndexing.query (self s))
             feed_pagination extract_initial_info in
  ∃ s', exec (LProducerNext <$> feed_steps g) s = Some s'
    ∧ producer s' = Some (PFinished (outcome_of g))
    ∧ items (queue s') = items (queue s) ++ yielded g
    ∧ unfinished_tasks (queue s') = (unfinished_tasks (queue s) + length (yielded g))%nat
    ∧ refs_of sel_put (log (world s')) =
        refs_of sel_put (log (world s)) ++ (in_platform_id <$> yielded g).
Proof.
  intros Hr Hsize Hp g. destruct (InvQ_reachable _ _ Hr) as [Hmax _ _ _].
  destruct (producer_puts worker g s) as (s' & ? & ? & ? & ? & ? & _); [lia|done|].
  by exists s'.
Qed.

Lemma step_requery q l s : step l (requery q s) = requery q <$> step l s.
Proof.
  destruct l; cbn [step]; cbv zeta;
    unfold requery, queue, resume, set_queue, set_consumer, get_nowait, run_spawn,
      run_producer_done; cbn;
    repeat (first [ progress rewrite ?make_worker_cases, ?put_cases, ?perform_eq,
                      ?collector_eq, ?index_job_cases, ?acknowledge_cases,
                      ?run_cancel_consumers_eq
                  | case_match ];
            cbv zeta; unfold queue, set_queue, set_consumer; cbn;
            simplify_eq/=; try done).
  all: unfold set_producer, set_world, set_self, set_consumers, set_run_state,
         JobIndexing.set_worker_pool, JobIndexing.set_job_queue, JobIndexing.set_tasks;
       cbn; try congruence.

Qed.

Lemma boot_requery q c : boot (with_query q c) = requery q (boot c).
Proof. done. Qed.

Lemma exec_requery q ls s : exec ls (requery q s) = requery q <$> exec ls s.
Proof.
  revert s. induction ls as [|l ls IH]; intros s; cbn [exec]; [done|].
  rewrite step_requery. destruct (step l s) as [s'|]; cbn; [apply IH|done].
Qed.

(** X14: The search query given to JobIndexing is stored and handed to
    feed_jobs_generator, which does not use it: two runs that differ only in
    the query make the same calls and go through the same states of the
    producer, the consumers, the queue and the pool, on every schedule. *)
Theorem search_query_has_no_effect c q ls :
  (∀ worker q' feed_pagination extract_initial_info,
     feed_jobs_generator worker q feed_pagination extract_initial_info =
     feed_jobs_generator worker q' feed_pagination extract_initial_info)
  ∧ exec ls (boot (with_query q c)) = requery q <$> exec ls (boot c)
  ∧ (∀ s, exec ls (boot c) = Some s →
       ∃ s', exec ls (boot (with_query q c)) = Some s'
         ∧ world s' = world s ∧ run_state s' = run_state s
         ∧ producer s' = producer s ∧ consumers s' = consumers s
         ∧ queue s' = queue s
         ∧ JobIndexing.worker_pool (self s') = JobIndexing.worker_pool (self s)).
Proof.
  split_and!.
  - intros. by rewrite !feed_jobs_generator_eq.
  - by rewrite boot_requery, exec_requery.
  - intros s Hs. exists (requery q s).
    rewrite boot_requery, exec_requery, Hs. done.
Qed.

(** ** Concrete runs *)

Lemma producer_started_reachable :
  exec producer_started (boot (sample_config counting 1)) = Some producer_started_state.
Proof. vm_compute. reflexivity. Qed.

Lemma two_puts_reachable : exec two_puts (boot bounded_config) = Some two_puts_state.
Proof. vm_compute. reflexivity. Qed.

Lemma no_consumer_reachable :
  exec no_consumer (boot (sample_config counting 0)) = Some no_consumer_state.
Proof. vm_compute. reflexivity. Qed.

Lemma fetched_reachable :
  exec fetched (boot (sample_config counting 1)) = Some fetched_state.
Proof. vm_compute. reflexivity. Qed.

(** X2 on a concrete run. *)
Lemma stages_follow_one_another_witness :
  refs_of sel_visit (log (world two_consumers_state)) ⊆+
    refs_of sel_put (log (world two_consumers_state))
  ∧ (length (refs_of sel_get (log (world two_consumers_state)))
     ≤ length (refs_of sel_extract (log (world two_consumers_state))))%nat.
Proof.
  assert (reachable (sample_config counting 2) two_consumers_state) as Hr
    by (exists two_consumers; apply two_consumers_reachable).
  destruct (stages_follow_one_another _ _ Hr) as (_ & Hv & _ & Hg).
  split; [exact Hv|exact Hg].
Defined.

(** X10 on a concrete run. *)
Lemma teardown_closes_each_pool_context_once_witness :
  let s := two_consumers_state in
  let r := JobIndexing.__aexit__ exit_ok (world s, self s) in
  r.2 = Returned tt
  ∧ calls_since (world s) r.1.1 =
      [EvTaskCancel TProducer; EvTaskCancel (TConsumer 0); EvTaskCancel (TConsumer 1);
       EvContextClose 0%nat; EvContextClose 1%nat; EvContextClose 2%nat;
       EvBrowserClose; EvEngineStop]
  ∧ NoDup (pool_contexts s).
Proof.
  intros s r.
  assert (reachable (sample_config counting 2) s) as Hr
    by (exists two_consumers; apply two_consumers_reachable).
  destruct (teardown_closes_each_pool_context_once _ s exit_ok Hr
              (λ _, eq_refl) eq_refl eq_refl) as (Hret & Hcalls & Hnd & _).
  split; [exact Hret|]. split; [|exact Hnd].
  etrans; [exact Hcalls|]. vm_compute. reflexivity.
Defined.

(** X9 on a concrete run. *)
Lemma failed_construction_leaks_context_witness :
  EvNewContext 1%nat ∈ calls_since (world producer_started_state) (world consumer_failed_state)
  ∧ (1%nat ∉ pool_contexts consumer_failed_state)
  ∧ (EvContextClose 1%nat ∉
       events (JobIndexing.__aexit__ exit_ok
                 (world consumer_failed_state, self consumer_failed_state)).1.1).
Proof.
  assert (reachable (sample_config counting 1) producer_started_state) as Hr
    by (exists producer_started; apply producer_started_reachable).
  assert (step (LConsumerStart 0 page_fails) producer_started_state
          = Some consumer_failed_state) as Hs by (vm_compute; reflexivity).
  destruct (failed_construction_leaks_context _ _ _ page_fails _ Hr Hs
              (or_intror (ex_intro _ 0%nat eq_refl)) eq_refl
              (or_introl (λ H, eq_ind (Some (Error "page failed"))
                                 (λ o, match o with Some _ => True | None => False end)
                                 I None H)))
    as [Hin Hall].
  split; [exact Hin|].
  destruct (Hall [] _ eq_refl) as (Hp & _ & Hx). split; [exact Hp|apply Hx].
Defined.

(** X4 on a concrete run. *)
Lemma buffer_size_bounds_the_queue_witness :
  Z.of_nat (qsize (queue two_puts_state)) ≤ 1
  ∧ ∃ worker job, producer two_puts_state = Some (PPutting worker job).
Proof.
  assert (reachable bounded_config two_puts_state) as Hr
    by (exists two_puts; apply two_puts_reachable).
  destruct (buffer_size_bounds_the_queue _ _ Hr) as [Hpos _].
  destruct (Hpos ltac:(reflexivity)) as [Hq _].
  split; [exact Hq|]. eexists _, _. reflexivity.
Defined.

(** X3 on a concrete run. *)
Lemma task_done_never_fails_witness :
  ∃ q, task_done (queue fetched_state) = Returned q.
Proof.
  assert (reachable (sample_config counting 1) fetched_state) as Hr
    by (exists fetched; apply fetched_reachable).
  destruct (task_done_never_fails _ _ Hr) as (_ & _ & Hack).
  eapply (Hack 0%nat); reflexivity.
Defined.

(** X5 on a concrete run. *)
Lemma without_consumers_run_returns_only_on_empty_feed_witness :
  consumers no_consumer_state = []
  ∧ unfinished_tasks (queue no_consumer_state) = 1%nat
  ∧ run_state no_consumer_state = RAwaitJoin
  ∧ step LRunJoin no_consumer_state = None.
Proof.
  assert (reachable (sample_config counting 0) no_consumer_state) as Hr
    by (exists no_consumer; apply no_consumer_reachable).
  destruct (without_consumers_run_returns_only_on_empty_feed
              (sample_config counting 0) _ ltac:(reflexivity) Hr) as (Hc & _ & Hu & _).
  split; [exact Hc|]. split; [etrans; [exact Hu|reflexivity]|].
  split; reflexivity.
Defined.

(** X6 on a concrete run. *)
Lemma iteration_without_error_is_acknowledged_witness :
  ∃ s' worker,
    step (LConsumerIndex 0 index_ok) fetched_state = Some s'
    ∧ consumers s' !! 0%nat = Some {| state := CWaiting worker; must_cancel := false |}
    ∧ unfinished_tasks (queue s') = 0%nat
    ∧ is_Some (boards (world s') !! ("board", "r1")).
Proof.
  assert (reachable (sample_config counting 1) fetched_state) as Hr
    by (exists fetched; apply fetched_reachable).
  destruct (iteration_without_error_is_acknowledged _ _ 0%nat
              {| ScrapingWorker.proxy := None; ScrapingWorker.browser := sample_browser;
                 ScrapingWorker.page := 1%nat;
                 ScrapingWorker.purpose := "Job Details Scraping";
                 ScrapingWorker.id := 21; ScrapingWorker.context := 1%nat |}
              (update_data (sample_job "r1") "description" "metadata") Hr)
    as (_ & _ & _ & Hidx).
  destruct (Hidx eq_refl index_ok eq_refl eq_refl) as (s' & Hs & Hc & Hu & Hb).
  exists s'. eexists. split; [exact Hs|]. split; [exact Hc|]. split; [|exact Hb].
  cbn in Hu. by injection Hu as <-.
Defined.

(** X15 on a concrete run. *)
Lemma index_job_never_overwrites_witness :
  let r := index_job index_ok sample_client (sample_job "r1") indexed_world in
  r.2 = Returned tt ∧ boards r.1 !! ("board", "r1") = Some old_job.
Proof.
  intros r. split; [reflexivity|].
  destruct (index_job_never_overwrites index_ok sample_client (sample_job "r1")
              indexed_world) as (Hkeep & _).
  apply Hkeep. reflexivity.
Defined.

(** X16 on a concrete run. *)
Lemma index_job_resubmission_changes_nothing_witness :
  let w := boot_world (sample_config counting 1) in
  let r := index_job index_ok sample_client (sample_job "r1") w in
  let r' := index_job index_ok sample_client (update_data (sample_job "r1") "d" "m") r.1 in
  boards r'.1 = boards r.1 ∧ r'.2 = Returned tt.
Proof.
  intros w r r'.
  destruct (index_job_resubmission_changes_nothing index_ok index_ok sample_client
              (sample_job "r1") (update_data (sample_job "r1") "d" "m") w
              eq_refl eq_refl) as (Hb & _ & Hr).
  split; [exact Hb|exact (Hr eq_refl)].
Defined.



(** X12 on a concrete run. *)
Lemma feed_jobs_generator_flattens_pages_witness :
  let g := feed_jobs_generator sample_worker None sample_pages sample_extract in
  yielded g = [sample_job "r1"; sample_job "r2"; sample_job "r3"] ∧ ending g = None.
Proof.
  intros g.
  destruct (feed_jobs_generator_flattens_pages sample_worker None sample_pages
              sample_extract) as (Hok & _).
  apply Hok. by repeat constructor.
Defined.

(** X13 on a concrete run. *)
Lemma producer_puts_what_the_feed_yields_witness :
  ∃ s',
    exec (LProducerNext <$>
            feed_steps (feed_jobs_generator sample_worker None sample_pages sample_extract))
      producer_started_state = Some s'
    ∧ producer s' = Some (PFinished (Returned tt))
    ∧ queue_refs (queue s') = ["r1"; "r2"; "r3"].
Proof.
  assert (reachable (sample_config counting 1) producer_started_state) as Hr
    by (exists producer_started; apply producer_started_reachable).
  destruct (producer_puts_what_the_feed_yields (sample_config counting 1)
              producer_started_state sample_worker sample_pages sample_extract Hr
              ltac:(by vm_compute) eq_refl) as (s' & Hs & Hp & Hi & _).
  exists s'. split; [exact Hs|]. split; [exact Hp|].
  unfold queue_refs. rewrite Hi. reflexivity.
Defined.

(** X14 on a concrete run. *)
Lemma search_query_has_no_effect_witness :
  ∃ s',
    exec two_consumers (boot (with_query None (sample_config counting 2))) = Some s'
    ∧ world s' = world two_consumers_state
    ∧ consumers s' = consumers two_consumers_state.
Proof.
  destruct (search_query_has_no_effect (sample_config counting 2) None two_consumers)
    as (_ & _ & H).
  destruct (H _ two_consumers_reachable) as (s' & Hs & Hw & _ & _ & Hc & _).
  exists s'. split; [exact Hs|]. split; [exact Hw|exact Hc].
Defined.

(** ** After [run] has returned *)

Lemma stopped_lookup cs i st :
  Forall stopped cs → cs !! i = Some {| state := st; must_cancel := false |} →
  finished st = true.
Proof.
  intros Hall Hi. eapply Forall_lookup_1 in Hall; [|exact Hi].
  by destruct Hall as [?|?].
Qed.

Lemma InvDone_step l s s' : InvDone s → step l s = Some s' → InvDone s'.
Proof.
  intros Hinv H. unfold InvDone in *.
  step_open H; intros Hr; try done;
    try (specialize (Hinv Hr)); try done;
    try match goal with
    | H0 : consumers _ !! _ = Some {| state := _; must_cancel := false |} |- _ =>
        by apply (stopped_lookup _ _ _ Hinv) in H0
    end.
  - apply Forall_fmap, Forall_true. intros ct. unfold stopped, cancel. cbn.
    destruct (finished (state ct)) eqn:Hf; cbn; auto.
  - apply Forall_insert; [done|]. by left.
Qed.

Lemma InvDone_reachable c s : reachable c s → InvDone s.
Proof. apply reachable_ind; [done|]. intros l s0 s1 _. apply InvDone_step. Qed.

(** X7: Once run() has returned normally, the only thing that can still happen
    in the pipeline is the delivery of a requested cancellation to a consumer
    that has not ended: the consumer ends with CancelledError, no call is
    made, and the queue and the producer stay as they are. *)
Theorem after_run_returns_only_cancellation_remains c s l s' :
  reachable c s → run_state s = RFinished (Returned tt) → step l s = Some s' →
  ∃ i st,
    l = LCancelDelivered i
    ∧ consumers s !! i = Some {| state := st; must_cancel := true |}
    ∧ finished st = false
    ∧ consumers s' =
        <[i := {| state := CFinished CancelledError None; must_cancel := false |}]>
          (consumers s)
    ∧ events (world s') = events (world s)
    ∧ queue s' = queue s
    ∧ producer s' = producer s.
Proof.
  intros Hr Hrun H.
  pose proof (InvDone_reachable _ _ Hr Hrun) as Hall.
  pose proof (InvCancel_reachable _ _ Hr) as Hc.
  destruct (InvQ_reachable _ _ Hr) as [_ _ _ Hctl].
  unfold control_ok in Hctl. rewrite Hrun in Hctl. destruct Hctl as [Hp _].
  step_open H; try congruence;
    try match goal with
    | H0 : consumers _ !! _ = Some {| state := _; must_cancel := false |} |- _ =>
        by apply (stopped_lookup _ _ _ Hall) in H0
    end.
  match goal with
  | H0 : consumers _ !! _ = Some _ |- _ =>
      pose proof (Hc _ _ H0 eq_refl) as Hn; cbn in Hn; rewrite Hn
  end.
  eexists _, _. by split_and!.
Qed.

(** X7 on a concrete run. *)
Lemma after_run_returns_only_cancellation_remains_witness :
  ∃ st,
    consumers empty_feed_state !! 0%nat = Some {| state := st; must_cancel := true |}
    ∧ finished st = false
    ∧ events (world cancelled_state) = events (world empty_feed_state).
Proof.
  assert (reachable (sample_config counting 1) empty_feed_state) as Hr
    by (exists empty_feed; apply empty_feed_reachable).
  assert (step (LCancelDelivered 0) empty_feed_state = Some cancelled_state) as Hs
    by (vm_compute; reflexivity).
  destruct (after_run_returns_only_cancellation_remains _ _ _ _ Hr eq_refl Hs)
    as (i & st & Hl & Hi & Hf & _ & He & _).
  injection Hl as <-. exists st. split; [exact Hi|]. split; [exact Hf|exact He].
Defined.

(** ** The script [main.py] *)

Import Script.

Lemma script_call_eq env c s :
  script_call env c s =
    ({| calls := calls s ++ [c]; data := data s; jobdata_json := jobdata_json s |},
     match fails env c with Some e => Raised e | None => Returned tt end).
Proof. done. Qed.

Lemma script_job_eq env job s :
  script_job env job s =
    let v := CallVisit (in_platform_id job) in
    let x := CallExtractDetails (in_platform_id job) in
    match visit_job_page env job with
    | Raised e =>
        ({| calls := calls s ++ [v]; data := data s; jobdata_json := jobdata_json s |},
         Raised e)
    | Returned content =>
        ({| calls := (calls s ++ [v]) ++ [x]; data := data s ++ [job];
            jobdata_json := jobdata_json s |},
         match extract_details env content with Some e => Raised e | None => Returned tt end)
    end.
Proof. unfold script_job, bind, modify, answer, fault. cbn. by destruct (visit_job_page env job). Qed.

Lemma for_each_cons {S A} (x : A) xs (body : A → Eff S unit) s :
  for_each (x :: xs) body s =
    match body x s with
    | (s', Returned _) => for_each xs body s'
    | (s', Raised e) => (s', Raised e)
    end.
Proof. done. Qed.

Lemma jobs_loop env jobs s : loop_result env jobs s (for_each jobs (script_job env) s).
Proof.
  revert s. induction jobs as [|job jobs IH]; intros s.
  - split; cbn.
    + exists []. rewrite app_nil_r. split_and!; try done. by intros job ?%elem_of_nil.
    + exists []. by rewrite app_nil_r.
    + done.
  - rewrite for_each_cons, script_job_eq. cbv zeta.
    destruct (visit_job_page env job) as [content|e] eqn:Hv.
    + destruct (extract_details env content) as [e|] eqn:Hd.
      * split; cbn.
        -- exists [job]. split_and!; try done.
           ++ apply prefix_cons, prefix_nil.
           ++ intros j ->%list_elem_of_singleton. split_and!; [| |by eexists].
              ** apply elem_of_app. left. apply elem_of_app. right. by left.
              ** apply elem_of_app. right. by left.
        -- eexists [_; _]. rewrite <- (assoc_L (++)). split; [done|].
           by repeat constructor.
        -- done.
      * destruct (IH {| calls := (calls s ++ [CallVisit (in_platform_id job)]) ++
                                   [CallExtractDetails (in_platform_id job)];
                        data := data s ++ [job]; jobdata_json := jobdata_json s |})
          as [(taken & Hdata & Hpre & Hall & Hvis) (new & Hcalls & Hnew) Hfile].
        cbn in *. split.
        -- exists (job :: taken). split_and!.
           ++ by rewrite Hdata, <- (assoc_L (++)).
           ++ by apply prefix_cons.
           ++ intros Hr. by rewrite Hall.
           ++ intros j [->|Hj]%elem_of_cons; [|by apply Hvis].
              rewrite Hcalls. split_and!; [| |by eexists].
              ** apply elem_of_app. left. apply elem_of_app. left.
                 apply elem_of_app. right. by left.
              ** apply elem_of_app. left. apply elem_of_app. right. by left.
        -- eexists (_ :: _ :: new). rewrite Hcalls, <- !(assoc_L (++)). split; [done|].
           by repeat constructor.
        -- done.
    + split; cbn.
      * exists []. rewrite app_nil_r. split_and!; try done.
        -- apply prefix_nil.
        -- by intros j ?%elem_of_nil.
      * eexists [_]. split; [done|]. by repeat constructor.
      * done.
Qed.

Lemma for_gen_eq {S A} (g : Generated A) (body : A → Eff S unit) s :
  for_gen g body s =
    match for_each (yielded g) body s with
    | (s', Returned _) =>
        (s', match ending g with Some e => Raised e | None => Returned tt end)
    | (s', Raised e) => (s', Raised e)
    end.
Proof.
  unfold for_gen, bind, fault, answer.
  by destruct (for_each (yielded g) body s) as [s' [[]|e]].
Qed.

Lemma loop_result_outcome env jobs s s' (r r' : Outcome unit) :
  loop_result env jobs s (s', r) → (r' = Returned tt → r = Returned tt) →
  loop_result env jobs s (s', r').
Proof.
  intros [(taken & ? & ? & Hall & ?) ? ?] Hr. split; [|done..].
  exists taken. split_and!; try done. intros Hr'. apply Hall. by apply Hr.
Qed.

Lemma loop_result_more env js1 js2 s r :
  loop_result env js1 s r → r.2 ≠ Returned tt → loop_result env (js1 ++ js2) s r.
Proof.
  intros [(taken & ? & ? & Hall & ?) ? ?] Hr. split; [|done..].
  exists taken. split_and!; try done. by apply prefix_app_r.
Qed.

Lemma loop_result_seq env js1 js2 s r1 r2 :
  loop_result env js1 s r1 → r1.2 = Returned tt → loop_result env js2 r1.1 r2 →
  loop_result env (js1 ++ js2) s r2.
Proof.
  intros [(t1 & Hd1 & Hp1 & Hall1 & Hv1) (n1 & Hc1 & Hn1) Hf1] Hr1
         [(t2 & Hd2 & Hp2 & Hall2 & Hv2) (n2 & Hc2 & Hn2) Hf2].
  specialize (Hall1 Hr1). subst t1. split.
  - exists (js1 ++ t2). split_and!.
    + by rewrite Hd2, Hd1, (assoc_L (++)).
    + by apply prefix_app.
    + intros Hr2. by rewrite Hall2.
    + intros job [Hj|Hj]%elem_of_app; [|by apply Hv2].
      destruct (Hv1 job Hj) as (Hin & Hx & Hc). rewrite Hc2.
      split_and!; [apply elem_of_app; by left..|done].
  - exists (n1 ++ n2). split; [by rewrite Hc2, Hc1, (assoc_L (++))|].
    by apply Forall_app.
  - by rewrite Hf2.
Qed.

Lemma inner_loop env page_content s :
  loop_result env (yielded (extract_initial_info env page_content)) s
    (for_gen (extract_initial_info env page_content) (script_job env) s).
Proof.
  rewrite for_gen_eq.
  pose proof (jobs_loop env (yielded (extract_initial_info env page_content)) s) as H.
  destruct (for_each _ _ s) as [s' [[]|e]]; [|done].
  eapply loop_result_outcome; [exact H|]. done.
Qed.

Lemma pages_loop env pages s :
  loop_result env (pages ≫= (λ p, yielded (extract_initial_info env p))) s
    (for_each pages (λ p, for_gen (extract_initial_info env p) (script_job env)) s).
Proof.
  revert s. induction pages as [|p pages IH]; intros s.
  - split; cbn.
    + exists []. rewrite app_nil_r. split_and!; try done. by intros job ?%elem_of_nil.
    + exists []. by rewrite app_nil_r.
    + done.
  - rewrite for_each_cons. cbn [mbind list_bind].
    pose proof (inner_loop env p s) as H1.
    destruct (for_gen (extract_initial_info env p) (script_job env) s) as [s1 [[]|e]] eqn:Hin.
    + eapply loop_result_seq; [exact H1|done|apply IH].
    + by apply loop_result_more.
Qed.

Lemma script_loop_result env s : loop_result env (all_jobs env) s (script_loop env s).
Proof.
  unfold script_loop, all_jobs. rewrite for_gen_eq.
  pose proof (pages_loop env (yielded (paginate env)) s) as H.
  destruct (for_each _ _ s) as [s' [[]|e]]; [|done].
  eapply loop_result_outcome; [exact H|]. done.
Qed.

Lemma bind_eq {S A B} (m : Eff S A) (k : A → Eff S B) s :
  bind m k s = match m s with (s', Returned a) => k a s' | (s', Raised e) => (s', Raised e) end.
Proof. done. Qed.

(** The setup makes the calls of [setup_calls] up to the first that raises. *)
Lemma script_setup_result env s :
  let r := script_setup env s in
  (∃ new, calls r.1 = calls s ++ new ∧ new `prefix_of` setup_calls)
  ∧ jobdata_json r.1 = jobdata_json s
  ∧ (Forall (λ c, fails env c = None) setup_calls →
     r = ({| calls := calls s ++ setup_calls; data := []; jobdata_json := jobdata_json s |},
          Returned tt))
  ∧ (r.2 = Returned tt → data r.1 = [] ∧ calls r.1 = calls s ++ setup_calls).
Proof.
  unfold script_setup, setup_calls.
  repeat (rewrite bind_eq, script_call_eq;
          match goal with
          | |- context [fails env ?c] =>
              destruct (fails env c) eqn:?; cbn [fst snd calls data jobdata_json]
          end;
          [split_and!;
           [eexists; rewrite <- ?(assoc_L (++)); split; [done|];
            repeat (apply prefix_cons); apply prefix_nil
           |done
           |intros Hall; repeat (apply Forall_cons in Hall as [? Hall]); congruence
           |done]
          |]).
  cbn. split_and!; rewrite <- ?(assoc_L (++)); try done.
  by eexists.
Qed.

Lemma script_save_eq env s :
  script_save env s =
    let o := CallOpen "jobdata.json" in
    let d := CallDump "jobdata.json" in
    let s1 := CallScreenshot DetailsPage "./assets/bugetails.jpg" in
    let s2 := CallScreenshot FeedPage "./assets/bugfeed.jpg" in
    match fails env o with
    | Some e =>
        ({| calls := calls s ++ [o]; data := data s; jobdata_json := jobdata_json s |},
         Raised e)
    | None =>
        match fails env d with
        | Some e =>
            ({| calls := calls s ++ [o; d]; data := data s; jobdata_json := Some [] |},
             Raised e)
        | None =>
            match fails env s1 with
            | Some e =>
                ({| calls := calls s ++ [o; d; s1]; data := data s;
                    jobdata_json := Some (data s) |}, Raised e)
            | None =>
                ({| calls := calls s ++ [o; d; s1; s2]; data := data s;
                    jobdata_json := Some (data s) |},
                 match fails env s2 with Some e => Raised e | None => Returned tt end)
            end
        end
    end.
Proof.
  unfold script_save, with_, try_finally, bind, ret, modify. rewrite ?script_call_eq.
  cbv zeta. destruct (fails env (CallOpen _)); cbn; [done|].
  rewrite ?script_call_eq. cbn.
  destruct (fails env (CallDump _)); cbn; rewrite <- ?(assoc_L (++)); [done|].
  rewrite ?script_call_eq. cbn.
  destruct (fails env (CallScreenshot DetailsPage _)); cbn;
    rewrite <- ?(assoc_L (++)); [done|].
  done.
Qed.

Lemma script_save_result env s :
  let r := script_save env s in
  data r.1 = data s
  ∧ (∃ new, calls r.1 = calls s ++ new ∧ Forall (λ c, is_save_call c = true) new)
  ∧ (r.2 = Returned tt → jobdata_json r.1 = Some (data s))
  ∧ (fails env (CallOpen "jobdata.json") = None →
     fails env (CallDump "jobdata.json") = None →
     jobdata_json r.1 = Some (data s)).
Proof.
  rewrite script_save_eq. cbv zeta.
  destruct (fails env (CallOpen _)); cbn; [split_and!; try done|].
  { eexists. split; [done|]. by repeat constructor. }
  destruct (fails env (CallDump _)); cbn; [split_and!; try done|].
  { eexists. split; [done|]. by repeat constructor. }
  destruct (fails env (CallScreenshot DetailsPage _)); cbn; split_and!; try done.
  all: eexists; (split; [done|]); by repeat constructor.
Qed.

Lemma main_eq env s :
  main env s =
    let s0 := {| calls := calls s ++ [CallPlaywrightStart]; data := data s;
                 jobdata_json := jobdata_json s |} in
    match fails env CallPlaywrightStart with
    | Some e => (s0, Raised e)
    | None =>
        let r := script_body env s0 in
        ({| calls := calls r.1 ++ [CallPlaywrightStop]; data := data r.1;
            jobdata_json := jobdata_json r.1 |},
         match fails env CallPlaywrightStop with Some e => Raised e | None => r.2 end)
    end.
Proof.
  unfold main, with_, try_finally. rewrite bind_eq, script_call_eq. cbv zeta.
  destruct (fails env CallPlaywrightStart); [done|].
  destruct (script_body env _) as [s1 r1]. rewrite script_call_eq. cbn.
  by destruct (fails env CallPlaywrightStop).
Qed.

Lemma script_body_eq env s :
  script_body env s =
    match script_setup env s with
    | (s1, Raised e) => (s1, Raised e)
    | (s1, Returned _) =>
        let '(s2, r2) := script_loop env s1 in
        match script_save env s2 with
        | (s3, Raised e) => (s3, Raised e)
        | (s3, Returned _) =>
            match r2 with
            | Raised e => (s3, Raised e)
            | Returned _ => script_call env CallBrowserClose s3
            end
        end
    end.
Proof.
  unfold script_body. rewrite bind_eq.
  destruct (script_setup env s) as [s1 [[]|e]]; [|done].
  rewrite bind_eq. unfold try_finally.
  destruct (script_loop env s1) as [s2 r2].
  destruct (script_save env s2) as [s3 [[]|e]]; [|done].
  by destruct r2 as [[]|e].
Qed.

(** What the block leaves, by the part that ended it. *)
Lemma script_body_result env s :
  let r := script_body env s in
  ∃ pre loop save,
    pre `prefix_of` setup_calls
    ∧ Forall (λ c, is_job_call c = true) loop
    ∧ Forall (λ c, is_save_call c = true) save
    ∧ (calls r.1 = calls s ++ pre ++ loop ++ save
       ∨ (calls r.1 = calls s ++ pre ++ loop ++ save ++ [CallBrowserClose]
          ∧ pre = setup_calls
          ∧ data r.1 = all_jobs env
          ∧ jobdata_json r.1 = Some (all_jobs env)))
    ∧ (r.2 = Returned tt → CallBrowserClose ∈ calls r.1).
Proof.
  intros r. subst r. rewrite script_body_eq.
  destruct (script_setup_result env s) as ((pre & Hpre & Hpp) & Hfile & _ & Hok).
  destruct (script_setup env s) as [s1 [[]|e]] eqn:Hs; cbn [fst snd] in *.
  2: { exists pre, [], []. rewrite !app_nil_r. split_and!; try done. by left. }
  destruct (Hok eq_refl) as [Hd1 Hc1]. clear Hok.
  destruct (script_loop_result env s1)
    as [(taken & Hdata & Hpre2 & Hall & Hvis) (loop & Hcl & Hloop) Hfl].
  destruct (script_loop env s1) as [s2 r2]. cbn [fst snd] in *.
  destruct (script_save_result env s2) as (Hds & (save & Hcs & Hsave) & Hret & _).
  destruct (script_save env s2) as [s3 [[]|e]]; cbn [fst snd] in *.
  2: { exists setup_calls, loop, save. split_and!; try done.
       left. by rewrite Hcs, Hcl, Hc1, <- !(assoc_L (++)). }
  destruct r2 as [[]|e]; cbn [fst snd].
  2: { exists setup_calls, loop, save. split_and!; try done.
       left. by rewrite Hcs, Hcl, Hc1, <- !(assoc_L (++)). }
  rewrite script_call_eq. cbn [fst snd calls data jobdata_json].
  exists setup_calls, loop, save. split_and!; try done.
  - right. rewrite Hcs, Hcl, Hc1, <- !(assoc_L (++)). split_and!; try done.
    + rewrite Hds, Hdata, Hd1, (Hall eq_refl). done.
    + rewrite (Hret eq_refl), Hdata, Hd1, (Hall eq_refl). done.
  - intros _. apply elem_of_app. right. by left.
Qed.

Lemma close_not_in_setup pre :
  pre `prefix_of` setup_calls → CallBrowserClose ∉ pre.
Proof.
  intros [k Hk] Hin.
  assert (CallBrowserClose ∈ setup_calls) as Hs
    by (rewrite Hk; apply elem_of_app; by left).
  unfold setup_calls in Hs.
  repeat (apply elem_of_cons in Hs as [[=]|Hs]). by apply elem_of_nil in Hs.
Qed.

Lemma close_not_job_call l :
  Forall (λ c, is_job_call c = true) l → CallBrowserClose ∉ l.
Proof. intros Hl Hin. eapply Forall_forall in Hl; [|exact Hin]. done. Qed.

Lemma close_not_save_call l :
  Forall (λ c, is_save_call c = true) l → CallBrowserClose ∉ l.
Proof. intros Hl Hin. eapply Forall_forall in Hl; [|exact Hin]. done. Qed.

(** X18: In main.py browser.close() stands after the try/finally, so it is
    called only when nothing before it raised: if it was called, every job of
    the feed was collected and written to jobdata.json, and a script that ends
    without exception has called it. When Playwright does not start nothing
    else is called; otherwise the last call is always the stop of Playwright. *)
Theorem script_closes_the_browser_only_without_error env :
  let r := main env script_start in
  (∀ e, fails env CallPlaywrightStart = Some e →
     r = ({| calls := [CallPlaywrightStart]; data := []; jobdata_json := None |}, Raised e))
  ∧ (fails env CallPlaywrightStart = None → last (calls r.1) = Some CallPlaywrightStop)
  ∧ (CallBrowserClose ∈ calls r.1 →
     data r.1 = all_jobs env ∧ jobdata_json r.1 = Some (all_jobs env))
  ∧ (r.2 = Returned tt → CallBrowserClose ∈ calls r.1).
Proof.
  intros r. subst r. rewrite main_eq. cbv zeta.
  destruct (fails env CallPlaywrightStart) as [e|] eqn:Hstart.
  { cbn. split_and!; try done.
    - by intros e' [= <-].
    - intros [[=]|Hin%elem_of_nil]%elem_of_cons. done. }
  set (s0 := {| calls := calls script_start ++ [CallPlaywrightStart];
                data := _; jobdata_json := _ |}).
  destruct (script_body_result env s0)
    as (pre & loop & save & Hpre & Hloop & Hsave & Hcalls & Hret).
  cbn [fst snd calls data jobdata_json]. split_and!; try done.
  - intros _. by rewrite last_snoc.
  - intros Hin. destruct Hcalls as [Hc|(Hc & _ & Hd & Hf)]; [|done].
    exfalso. rewrite Hc in Hin. subst s0. cbn in Hin.
    apply elem_of_cons in Hin as [[=]|Hin].
    rewrite !elem_of_app in Hin.
    destruct Hin as [[Hin|[Hin|Hin]]|Hin].
    + by apply close_not_in_setup in Hin.
    + by apply close_not_job_call in Hin.
    + by apply close_not_save_call in Hin.
    + by apply list_elem_of_singleton in Hin.
  - intros Hr. apply elem_of_app. left. apply Hret.
    by destruct (fails env CallPlaywrightStop).
Qed.


(** X18 on a concrete script. *)
Lemma script_closes_the_browser_only_without_error_witness :
  let r := main sample_script_env script_start in
  r.2 = Raised (Error "timeout")
  ∧ last (calls r.1) = Some CallPlaywrightStop
  ∧ (CallBrowserClose ∉ calls r.1).
Proof.
  intros r.
  destruct (script_closes_the_browser_only_without_error sample_script_env)
    as (_ & Hlast & Hclose & _).
  split; [reflexivity|]. split; [exact (Hlast eq_refl)|].
  intros Hin. destruct (Hclose Hin) as [Hd _]. discriminate Hd.
Defined.

